(** * InvenTree [users/models.py]: a shallow embedding and its properties

    The development follows the layout of the Python module: the API token
    redaction, the [RuleSet] tables and their save hook, the reconciliation
    of group permissions ([update_group_roles]), the authorization checks,
    the [Owner] proxy and the [UserProfile] primary-group handlers.

    Database tables are finite maps and finite sets (stdpp), Python
    exceptions are an explicit result type, and every function that touches
    the database takes the database and returns the new one. *)

From Stdlib Require Import ZArith Lia Ascii String.
From stdpp Require Import gmap mapset strings list fin_maps pretty.

Local Open Scope string_scope.
Set Warnings "-clear-no-such-hyp".

(** ** Python exceptions and results *)

Inductive exn : Type :=
| AttributeError
| TypeError
| ValueError
| IndexError
| KeyError
| IntegrityError
| DoesNotExist
| NameError
| RecursionError.

Inductive result (A : Type) : Type :=
| Ok (a : A)
| Raise (e : exn).

Arguments Ok {A} a.
Arguments Raise {A} e.

#[global] Instance result_ret : MRet result := fun _ a => Ok a.

#[global] Instance result_bind : MBind result := fun _ _ k m =>
  match m with
  | Ok a => k a
  | Raise e => Raise e
  end.

Definition is_ok {A : Type} (m : result A) : bool :=
  match m with Ok _ => true | Raise _ => false end.

(** A [for] loop whose body may raise: the first exception ends the loop. *)
Fixpoint for_each {A S : Type} (body : S → A → result S) (xs : list A) (s : S)
  : result S :=
  match xs with
  | [] => Ok s
  | x :: xs' => s' ← body s x; for_each body xs' s'
  end.

(** ** Python [set] operations *)

(** [s.add(x)] and [s.remove(x)] (used only on members, or as the
    many-to-many [remove], which ignores absent rows): the set is a finite
    map to [unit], updated at one key. *)
Definition set_add `{Countable K} (x : K) (X : gset K) : gset K :=
  Mapset (<[x := ()]> (mapset_car X)).

Definition set_remove `{Countable K} (x : K) (X : gset K) : gset K :=
  Mapset (delete x (mapset_car X)).

(** [set()] filled by a loop of [add]. *)
Definition set_of_list `{Countable K} (xs : list K) : gset K :=
  foldr set_add ∅ xs.

(** ** Python [str] operations used by the module *)

Module Py.

(** [s.split(sep)] for a one-character separator: never the empty list. *)
Fixpoint split (sep : ascii) (s : string) : list string :=
  match s with
  | EmptyString => [""]
  | String c s' =>
      if decide (c = sep) then "" :: split sep s'
      else match split sep s' with
           | [] => [String c ""]
           | w :: ws => String c w :: ws
           end
  end.

(** [sep.join(parts)]. *)
Fixpoint join (sep : string) (parts : list string) : string :=
  match parts with
  | [] => ""
  | [w] => w
  | w :: ws => w +:+ sep +:+ join sep ws
  end.

(** [s[:n]]. *)
Fixpoint slice_to (n : nat) (s : string) : string :=
  match n, s with
  | S n', String c s' => String c (slice_to n' s')
  | _, _ => ""
  end.

(** [s[n:]] for [n >= 0]. *)
Fixpoint slice_from (n : nat) (s : string) : string :=
  match n, s with
  | S n', String c s' => slice_from n' s'
  | _, _ => s
  end.

(** [s[-n:]] for [n > 0]: the last [n] characters, the whole string when it
    is shorter. *)
Definition slice_last (n : nat) (s : string) : string :=
  slice_from (String.length s - n) s.

(** [c * m]: the empty string when [m <= 0]. *)
Definition repeat_char (c : ascii) (m : Z) : string :=
  string_of_list_ascii (replicate (Z.to_nat m) c).

(** [len(s)] as a Python integer. *)
Definition len (s : string) : Z := Z.of_nat (String.length s).

(** [str(n)] for a non-negative integer. *)
Definition str_of_N (n : N) : string := pretty n.

End Py.

(** ** [ApiToken] *)

Module ApiToken.

Record t : Type := mk {
  pk : option N;     (* [None] until the row is saved *)
  key : string;
  revoked : bool
}.

(** The [token] property: the raw key before the first save, afterwards
    the first 8 characters, [len(key) - 20] stars and the last 12. *)
Definition token (self : t) : string :=
  match pk self with
  | None => key self
  | Some _ =>
      let M := (Py.len (key self) - 20)%Z in
      Py.slice_to 8 (key self) +:+ Py.repeat_char "*" M +:+ Py.slice_last 12 (key self)
  end.

(** [__str__] uses the redacted token. *)
Definition to_str (self : t) : string := token self.

(** [MinLengthValidator(50)] of the [key] field (run by [full_clean],
    not by [save]). *)
Definition key_validates (self : t) : Prop :=
  (50 ≤ String.length (key self))%nat.

End ApiToken.

(** ** The data model *)

Module User.

(** The fields of [django.contrib.auth.models.User] the module reads. *)
Record t : Type := mk {
  pk : N;
  is_superuser : bool
}.

End User.

(** A [Permission] row by its natural key [(codename, app_label, model)]. *)
Definition Permission : Type := (string * string * string)%type.

Definition codename (p : Permission) : string := p.1.1.
Definition app_label (p : Permission) : string := p.1.2.
Definition perm_model (p : Permission) : string := p.2.

(** The content types [Owner.owner_type] can point to. *)
Inductive ContentType : Type :=
| CT_group                          (* auth.group *)
| CT_user                           (* the user model *)
| CT_other (app model : string).    (* any other model *)

#[global] Instance ContentType_eq_dec : EqDecision ContentType.
Proof. solve_decision. Defined.

(** A row of [users_ruleset]: the four flags of a [(group, name)] pair. *)
Record Flags : Type := mkFlags {
  can_view : bool;
  can_add : bool;
  can_change : bool;
  can_delete : bool
}.

#[global] Instance Flags_eq_dec : EqDecision Flags.
Proof. solve_decision. Defined.

Definition no_flags : Flags := mkFlags false false false false.

(** A row of [users_owner]. *)
Record OwnerRow : Type := mkOwner {
  owner_pk : N;
  owner_type : option ContentType;
  owner_id : option N
}.

#[global] Instance OwnerRow_eq_dec : EqDecision OwnerRow.
Proof. solve_decision. Defined.

(** The database: one field per table the module reads or writes. *)
Record DB : Type := mkDB {
  auth_group : gmap N string;                 (* Group: pk -> name *)
  auth_user : gset N;                         (* User pks *)
  user_groups : gset (N * N);                 (* User.groups: (user, group) *)
  group_permissions : gset (N * Permission);  (* Group.permissions *)
  users_ruleset : gmap (N * string) Flags;    (* unique_together (name, group) *)
  users_owner : list OwnerRow;                (* rows in insertion order *)
  users_userprofile : gmap N (option N);      (* user -> primary_group *)
  other_rows : gset (string * string * N)     (* rows of all other models *)
}.

Definition set_auth_group (f : gmap N string → gmap N string) (db : DB) : DB :=
  mkDB (f (auth_group db)) (auth_user db) (user_groups db) (group_permissions db)
       (users_ruleset db) (users_owner db) (users_userprofile db) (other_rows db).

Definition set_user_groups (f : gset (N * N) → gset (N * N)) (db : DB) : DB :=
  mkDB (auth_group db) (auth_user db) (f (user_groups db)) (group_permissions db)
       (users_ruleset db) (users_owner db) (users_userprofile db) (other_rows db).

Definition set_group_permissions
  (f : gset (N * Permission) → gset (N * Permission)) (db : DB) : DB :=
  mkDB (auth_group db) (auth_user db) (user_groups db) (f (group_permissions db))
       (users_ruleset db) (users_owner db) (users_userprofile db) (other_rows db).

Definition set_users_ruleset
  (f : gmap (N * string) Flags → gmap (N * string) Flags) (db : DB) : DB :=
  mkDB (auth_group db) (auth_user db) (user_groups db) (group_permissions db)
       (f (users_ruleset db)) (users_owner db) (users_userprofile db) (other_rows db).

Definition set_users_owner (f : list OwnerRow → list OwnerRow) (db : DB) : DB :=
  mkDB (auth_group db) (auth_user db) (user_groups db) (group_permissions db)
       (users_ruleset db) (f (users_owner db)) (users_userprofile db) (other_rows db).

Definition set_users_userprofile
  (f : gmap N (option N) → gmap N (option N)) (db : DB) : DB :=
  mkDB (auth_group db) (auth_user db) (user_groups db) (group_permissions db)
       (users_ruleset db) (users_owner db) (f (users_userprofile db)) (other_rows db).

(** [user.groups.all()] and [group.user_set.all()]. *)
Definition groups_of (db : DB) (u : N) : list N :=
  (filter (λ x, x.1 = u) (elements (user_groups db))).*2.

Definition user_set (db : DB) (g : N) : list N :=
  (filter (λ x, x.2 = g) (elements (user_groups db))).*1.

(** Settings and collaborators outside the module. *)
Record Env : Type := mkEnv {
  SITE_MULTI : bool;                 (* settings.SITE_MULTI *)
  canAppAccessDatabase : bool;       (* InvenTree.ready, allow_test=True *)
  isImportingData : bool;            (* InvenTree.ready *)
  (** [ContentType.objects.get(app_label, model)] finds a row. *)
  content_type_exists : string → string → bool;
  (** [Permission.objects.get(content_type, codename)] finds a row:
      arguments are app label, model and codename. *)
  permission_exists : string → string → string → bool;
  (** [user.has_perm(name)] of the authentication backends. *)
  has_perm : DB → User.t → string → bool
}.

(** ** [RuleSet]: the declarative tables *)

Module RuleSet.

(** An in-memory [RuleSet] object. *)
Record t : Type := mk {
  name : string;
  group : N;
  flags : Flags
}.

Definition RULESET_NAMES : list string :=
  [ "admin"; "part_category"; "part"; "stocktake"; "stock_location"; "stock";
    "build"; "purchase_order"; "sales_order"; "return_order" ].

Definition RULESET_PERMISSIONS : list string := [ "view"; "add"; "change"; "delete" ].

Definition admin_models : list string :=
  [ "auth_group"; "auth_user"; "auth_permission"; "users_apitoken";
    "users_ruleset"; "report_labeltemplate"; "report_reportasset";
    "report_reportsnippet"; "report_reporttemplate"; "account_emailaddress";
    "account_emailconfirmation"; "socialaccount_socialaccount";
    "socialaccount_socialapp"; "socialaccount_socialtoken";
    "otp_totp_totpdevice"; "otp_static_statictoken"; "otp_static_staticdevice";
    "mfa_authenticator"; "plugin_pluginconfig"; "plugin_pluginsetting";
    "plugin_notificationusersetting"; "common_barcodescanresult";
    "common_newsfeedentry"; "taggit_tag"; "taggit_taggeditem";
    "flags_flagstate"; "machine_machineconfig"; "machine_machinesetting" ].

(** The dictionary of [get_ruleset_models], as an association list in the
    order of its literal. *)
Definition get_ruleset_models (env : Env) : list (string * list string) :=
  [ ("admin", (admin_models ++ (if SITE_MULTI env then ["sites_site"] else []))%list);
    ("part_category",
       [ "part_partcategory"; "part_partcategoryparametertemplate";
         "part_partcategorystar" ]);
    ("part",
       [ "part_part"; "part_partpricing"; "part_bomitem";
         "part_bomitemsubstitute"; "part_partsellpricebreak";
         "part_partinternalpricebreak"; "part_parttesttemplate";
         "part_partparametertemplate"; "part_partparameter";
         "part_partrelated"; "part_partstar"; "part_partcategorystar";
         "company_supplierpart"; "company_manufacturerpart";
         "company_manufacturerpartparameter" ]);
    ("stocktake", [ "part_partstocktake"; "part_partstocktakereport" ]);
    ("stock_location", [ "stock_stocklocation"; "stock_stocklocationtype" ]);
    ("stock",
       [ "stock_stockitem"; "stock_stockitemtracking";
         "stock_stockitemtestresult" ]);
    ("build",
       [ "part_part"; "part_partcategory"; "part_bomitem";
         "part_bomitemsubstitute"; "build_build"; "build_builditem";
         "build_buildline"; "stock_stockitem"; "stock_stocklocation" ]);
    ("purchase_order",
       [ "company_company"; "company_contact"; "company_address";
         "company_manufacturerpart"; "company_manufacturerpartparameter";
         "company_supplierpart"; "company_supplierpricebreak";
         "order_purchaseorder"; "order_purchaseorderlineitem";
         "order_purchaseorderextraline" ]);
    ("sales_order",
       [ "company_company"; "company_contact"; "company_address";
         "order_salesorder"; "order_salesorderallocation";
         "order_salesorderlineitem"; "order_salesorderextraline";
         "order_salesordershipment" ]);
    ("return_order",
       [ "company_company"; "company_contact"; "company_address";
         "order_returnorder"; "order_returnorderlineitem";
         "order_returnorderextraline" ]) ].

(** [d.get(key)] on an association list. *)
Fixpoint assoc_get {V : Type} (key : string) (d : list (string * V)) : option V :=
  match d with
  | [] => None
  | (k, v) :: d' => if decide (k = key) then Some v else assoc_get key d'
  end.

(** [get_ruleset_models()[role]]. *)
Definition models_of_role (env : Env) (role : string) : option (list string) :=
  assoc_get role (get_ruleset_models env).

(** [self.get_models()]: [get_ruleset_models().get(self.name, [])]. *)
Definition get_models (env : Env) (self : t) : list string :=
  default [] (models_of_role env (name self)).

Definition get_ruleset_ignore : list string :=
  [ "admin_logentry"; "contenttypes_contenttype";
    "common_attachment"; "common_customunit"; "common_dataoutput";
    "common_inventreesetting"; "common_inventreeusersetting";
    "common_notificationentry"; "common_notificationmessage";
    "common_notesimage"; "common_projectcode"; "common_webhookendpoint";
    "common_webhookmessage"; "common_inventreecustomuserstatemodel";
    "common_selectionlistentry"; "common_selectionlist"; "users_owner";
    "users_userprofile";
    "error_report_error"; "exchange_rate"; "exchange_exchangebackend";
    "usersessions_usersession"; "sessions_session";
    "django_q_ormq"; "django_q_failure"; "django_q_task"; "django_q_schedule";
    "django_q_success";
    "importer_dataimportsession"; "importer_dataimportcolumnmap";
    "importer_dataimportrow" ].

Definition RULESET_CHANGE_INHERIT : list (string * string) :=
  [ ("part", "partparameter"); ("part", "bomitem") ].

(** The table name of an inheritance pair: [f'{parent}_{child}']. *)
Definition parent_child_string (parent child : string) : string :=
  parent +:+ "_" +:+ child.

(** [split_model]: [*app, model = model.split('_')], then the app parts are
    joined again; [app[0]] raises [IndexError] when there is no underscore. *)
Definition split_model (model : string) : result (string * string) :=
  let parts := Py.split "_" model in
  let app := removelast parts in
  let model' := List.last parts "" in
  match app with
  | [] => Raise IndexError
  | [a] => Ok (model', a)
  | _ => Ok (model', Py.join "_" app)
  end.

(** [get_model_permission_string]: [f'{app}.{permission}_{model}']. *)
Definition get_model_permission_string (model permission : string) : result string :=
  '(model', app) ← split_model model;
  Ok (app +:+ "." +:+ permission +:+ "_" +:+ model').

(** [split_permission(app, perm)]: the codename and the model name; the
    change it makes to [app] stays local to the function. *)
Definition split_permission (app perm : string) : result (string * string) :=
  match Py.split "_" perm with
  | [] => Raise ValueError
  | permission_name :: model =>
      match model with
      | [] => Raise IndexError
      | [m] => Ok (perm, m)
      | _ => let m := List.last model "" in Ok (permission_name +:+ "_" +:+ m, m)
      end
  end.

(** The two assignments that open [save]. *)
Definition normalize (f : Flags) : Flags :=
  let f1 :=
    if can_add f || can_change f || can_delete f
    then mkFlags true (can_add f) (can_change f) (can_delete f)
    else f in
  if can_add f1 || can_delete f1
  then mkFlags (can_view f1) (can_add f1) true (can_delete f1)
  else f1.

End RuleSet.

(** ** [Owner]: a proxy for a group or a user *)

(** A model instance as the module sees it: a [Group], a user, or an
    instance of any other model. *)
Inductive ModelObj : Type :=
| AGroup (pk : N) (name : string)
| AUser (pk : N)
| AnOther (app model : string) (pk : N).

Definition obj_pk (obj : ModelObj) : N :=
  match obj with
  | AGroup pk _ => pk
  | AUser pk => pk
  | AnOther _ _ pk => pk
  end.

Definition obj_content_type (obj : ModelObj) : ContentType :=
  match obj with
  | AGroup _ _ => CT_group
  | AUser _ => CT_user
  | AnOther app model _ => CT_other app model
  end.

Module Owner.

Definition matches (ct : ContentType) (id : N) (o : OwnerRow) : bool :=
  bool_decide (owner_type o = Some ct ∧ owner_id o = Some id).

(** [Owner.objects.get(owner_id=id, owner_type=ct)]: [None] stands for
    [Owner.DoesNotExist]. *)
Definition objects_get (rows : list OwnerRow) (ct : ContentType) (id : N)
  : option OwnerRow :=
  List.find (matches ct id) rows.

(** [get_owner]: only a group or a user has a content type to look under. *)
Definition get_owner (db : DB) (user_or_group : ModelObj) : option OwnerRow :=
  match user_or_group with
  | AGroup pk _ => objects_get (users_owner db) CT_group pk
  | AUser pk => objects_get (users_owner db) CT_user pk
  | AnOther _ _ _ => None
  end.

Definition next_pk (rows : list OwnerRow) : N :=
  (1 + foldr N.max 0 (owner_pk <$> rows))%N.

(** [Owner.objects.create(owner=obj)] under the [unique_owner] constraint on
    [(owner_type, owner_id)]. *)
Definition objects_create (rows : list OwnerRow) (obj : ModelObj)
  : result (OwnerRow * list OwnerRow) :=
  if existsb (matches (obj_content_type obj) (obj_pk obj)) rows
  then Raise IntegrityError
  else
    let o := mkOwner (next_pk rows) (Some (obj_content_type obj)) (Some (obj_pk obj)) in
    Ok (o, (rows ++ [o])%list).

(** [Owner.create(obj)].  [others] is what concurrent writers commit between
    the lookup of [get_owner] and the insert; the identity when there are
    none. *)
Definition create (others : DB → DB) (db : DB) (obj : ModelObj)
  : result (option OwnerRow * DB) :=
  match get_owner db obj with
  | Some existing_owner => Ok (Some existing_owner, db)
  | None =>
      let db' := others db in
      match objects_create (users_owner db') obj with
      | Ok (o, rows) => Ok (Some o, set_users_owner (λ _, rows) db')
      | Raise IntegrityError => Ok (None, db')
      | Raise e => Raise e
      end
  end.

(** The [owner] generic foreign key: the instance behind
    [(owner_type, owner_id)], [None] when there is none. *)
Definition owner (db : DB) (self : OwnerRow) : option ModelObj :=
  match owner_type self, owner_id self with
  | Some CT_group, Some id => (λ nm, AGroup id nm) <$> auth_group db !! id
  | Some CT_user, Some id =>
      if bool_decide (id ∈ auth_user db) then Some (AUser id) else None
  | Some (CT_other app model), Some id =>
      if bool_decide ((app, model, id) ∈ other_rows db)
      then Some (AnOther app model id) else None
  | _, _ => None
  end.

(** [user_model.objects.filter(groups__name=name)]. *)
Definition users_in_group_named (db : DB) (name : string) : list N :=
  (filter (λ x, x.1 ∈ auth_user db ∧ auth_group db !! x.2 = Some name)
          (elements (user_groups db))).*1.

Definition owner_id_in (users : list N) (o : OwnerRow) : bool :=
  match owner_id o with
  | Some id => bool_decide (id ∈ users)
  | None => false
  end.

(** [get_related_owners]: [None] is Python's [None], the initial value of
    [related_owners]. *)
Definition get_related_owners (db : DB) (self : OwnerRow) (include_group : bool)
  : option (list OwnerRow) :=
  match owner db self with
  | Some (AGroup gid gname) =>
      let users := users_in_group_named db gname in
      let user_q (o : OwnerRow) :=
        owner_id_in users o && bool_decide (owner_type o = Some CT_user) in
      let group_q (o : OwnerRow) :=
        bool_decide (owner_id o = Some gid) && bool_decide (owner_type o = Some CT_group) in
      let query (o : OwnerRow) :=
        if include_group then user_q o || group_q o else user_q o in
      Some (List.filter query (users_owner db))
  | Some (AUser _) => Some [self]
  | _ => None
  end.

(** [x in related] for an [Owner] or [None]: instances are equal when their
    primary keys are. *)
Definition contains (x : option OwnerRow) (related : list OwnerRow) : bool :=
  match x with
  | Some uo => existsb (λ o, bool_decide (owner_pk o = owner_pk uo)) related
  | None => false
  end.

(** [is_user_allowed]: [in] applied to [None] raises [TypeError]. *)
Definition is_user_allowed (db : DB) (self : OwnerRow) (user : ModelObj)
  (include_group : bool) : result bool :=
  let user_owner := get_owner db user in
  match get_related_owners db self include_group with
  | Some related => Ok (contains user_owner related)
  | None => Raise TypeError
  end.

(** [owner.delete()]. *)
Definition delete_row (o : OwnerRow) (db : DB) : DB :=
  set_users_owner (List.filter (λ r, negb (bool_decide (owner_pk r = owner_pk o)))) db.

End Owner.

(** [post_save] receiver of groups and users. *)
Definition create_owner (env : Env) (db : DB) (instance : ModelObj) : result DB :=
  if isImportingData env then Ok db
  else '(_, db') ← Owner.create id db instance; Ok db'.

(** [post_delete] receiver of groups and users: [owner.delete()] on [None]
    raises [AttributeError]. *)
Definition delete_owner (db : DB) (instance : ModelObj) : result DB :=
  match Owner.get_owner db instance with
  | Some o => Ok (Owner.delete_row o db)
  | None => Raise AttributeError
  end.

(** ** [UserProfile] and the primary-group receivers *)

Module UserProfile.

Record t : Type := mk {
  user : N;
  primary_group : option N
}.

(** [primary_group and primary_group not in user.groups.all()]. *)
Definition stale_primary_group (db : DB) (u : N) (pg : option N) : bool :=
  match pg with
  | Some g => negb (bool_decide (g ∈ groups_of db u))
  | None => false
  end.

(** [save]: clear a primary group the user is not a member of, then write
    the row. *)
Definition save (db : DB) (self : t) : DB :=
  let pg := if stale_primary_group db (user self) (primary_group self)
            then None else primary_group self in
  set_users_userprofile <[user self := pg]> db.

(** [user.profile]: the related row, or [RelatedObjectDoesNotExist]. *)
Definition profile_of (db : DB) (u : N) : result t :=
  match users_userprofile db !! u with
  | Some pg => Ok (mk u pg)
  | None => Raise DoesNotExist
  end.

(** [UserProfile.objects.create(user=instance)]: the one-to-one field is
    unique. *)
Definition objects_create (db : DB) (u : N) : result DB :=
  match users_userprofile db !! u with
  | Some _ => Raise IntegrityError
  | None => Ok (save db (mk u None))
  end.

End UserProfile.


(** [post_save] receiver of groups. *)
Definition validate_primary_group_on_save (db : DB) (instance : N) : result DB :=
  for_each
    (λ db' u,
       profile ← UserProfile.profile_of db' u;
       if UserProfile.stale_primary_group db' u (UserProfile.primary_group profile)
       then Ok (UserProfile.save db' (UserProfile.mk u None))
       else Ok db')
    (user_set db instance) db.

(** [post_delete] receiver of groups. *)
Definition validate_primary_group_on_delete (db : DB) (instance : N) : result DB :=
  for_each
    (λ db' u,
       profile ← UserProfile.profile_of db' u;
       if bool_decide (UserProfile.primary_group profile = Some instance)
       then Ok (UserProfile.save db' (UserProfile.mk u None))
       else Ok db')
    (user_set db instance) db.

(** [m2m_changed] receiver of [User.groups.through]: [instance] is the side
    of the relation that was changed, a user unless the reverse accessor was
    used; a [Group] has no [profile] attribute. *)
Definition validate_primary_group_on_group_change
  (db : DB) (instance : ModelObj) (action : string) : result DB :=
  if bool_decide (action ∈ ["post_add"; "post_remove"]) then
    match instance with
    | AUser u =>
        profile ← UserProfile.profile_of db u;
        if UserProfile.stale_primary_group db u (UserProfile.primary_group profile)
        then Ok (UserProfile.save db (UserProfile.mk u None))
        else Ok db
    | _ => Raise AttributeError
    end
  else Ok db.

(** ** [update_group_roles]: reconciliation of a group's permissions *)

(** [f'{app}.{permission}'] from the natural key of a permission. *)
Definition permission_string (p : Permission) : string :=
  app_label p +:+ "." +:+ codename p.

(** [group.permissions.all()]. *)
Definition permissions_of (db : DB) (group : N) : list Permission :=
  (filter (λ x, x.1 = group) (elements (group_permissions db))).*2.

(** The set [group_permissions] built at the top of [update_group_roles]. *)
Definition current_permission_strings (db : DB) (group : N) : gset string :=
  set_of_list (permission_string <$> permissions_of db group).

(** The two sets [permissions_to_add] and [permissions_to_delete]. *)
Record Pile : Type := mkPile {
  permissions_to_add : gset string;
  permissions_to_delete : gset string
}.

Definition empty_pile : Pile := mkPile ∅ ∅.

(** The nested function [add_model].  Its body reads [model], the loop
    variable of the enclosing function, not its own parameter [name];
    [model_var] is that variable, [None] while it is unbound. *)
Definition add_model (model_var : option string) (pile : Pile)
  (name action : string) (allowed : bool) : result Pile :=
  if bool_decide (action ∈ ["view"; "add"; "change"; "delete"]) then
    match model_var with
    | None => Raise NameError
    | Some model =>
        permission_string ← RuleSet.get_model_permission_string model action;
        if allowed then
          Ok (mkPile (set_add permission_string (permissions_to_add pile))
                     (set_remove permission_string (permissions_to_delete pile)))
        else if bool_decide (permission_string ∈ permissions_to_add pile) then Ok pile
        else
          Ok (mkPile (permissions_to_add pile)
                     (set_add permission_string (permissions_to_delete pile)))
    end
  else Raise ValueError.

(** The nested function [get_permission_object]: [None] when the content
    type is unknown; a missing permission row of a known content type is
    not caught. *)
Definition get_permission_object (env : Env) (permission_string : string)
  : result (option Permission) :=
  match Py.split "." permission_string with
  | [app; perm] =>
      '(perm', model) ← RuleSet.split_permission app perm;
      if content_type_exists env app model then
        if permission_exists env app model perm'
        then Ok (Some (perm', app, model))
        else Raise DoesNotExist
      else Ok None
  | _ => Raise ValueError
  end.

(** [group.permissions.add(p)] and [group.permissions.remove(p)]. *)
Definition permissions_add (group : N) (p : Permission) (db : DB) : DB :=
  set_group_permissions (set_add (group, p)) db.

Definition permissions_remove (group : N) (p : Permission) (db : DB) : DB :=
  set_group_permissions (set_remove (group, p)) db.

(** The local variables of [update_group_roles] that its loops update. *)
Record Locals : Type := mkLocals {
  l_db : DB;
  l_pile : Pile;
  l_model : option string;        (* [model], read by [add_model] *)
  l_ruleset : option RuleSet.t    (* [ruleset], read by the last loop *)
}.

(** The four [add_model] calls made for one model of a ruleset. *)
Definition add_model_actions (ruleset : RuleSet.t) (st : Pile * option string)
  (model : string) : result (Pile * option string) :=
  let f := RuleSet.flags ruleset in
  p1 ← add_model (Some model) st.1 model "view" (can_view f);
  p2 ← add_model (Some model) p1 model "add" (can_add f);
  p3 ← add_model (Some model) p2 model "change" (can_change f);
  p4 ← add_model (Some model) p3 model "delete" (can_delete f);
  Ok (p4, Some model).

(** One round of the loop over [RULESET_CHOICES].  [rulesets] is the
    prefetched table; [objects_create] is [RuleSet.objects.create], which
    saves the new row and with it the group. *)
Definition ruleset_round (env : Env) (objects_create : DB → RuleSet.t → result DB)
  (group : N) (rulesets : gmap (N * string) Flags) (st : Locals) (rulename : string)
  : result Locals :=
  '(ruleset, db1) ←
    match rulesets !! (group, rulename) with
    | Some f => Ok (RuleSet.mk rulename group f, l_db st)
    | None =>
        match users_ruleset (l_db st) !! (group, rulename) with
        | Some f => Ok (RuleSet.mk rulename group f, l_db st)
        | None =>
            let r := RuleSet.mk rulename group no_flags in
            db' ← objects_create (l_db st) r; Ok (r, db')
        end
    end;
  '(pile, model) ←
    for_each (add_model_actions ruleset) (RuleSet.get_models env ruleset)
             (l_pile st, l_model st);
  Ok (mkLocals db1 pile model (Some ruleset)).

(** The loop that adds missing permissions. *)
Definition add_round (env : Env) (group : N) (group_permissions : gset string)
  (db : DB) (perm : string) : result DB :=
  if bool_decide (perm ∈ group_permissions) then Ok db
  else
    permission ← get_permission_object env perm;
    match permission with
    | Some p => Ok (permissions_add group p db)
    | None => Ok db
    end.

(** The loop that removes extra permissions. *)
Definition remove_round (env : Env) (group : N) (group_permissions : gset string)
  (db : DB) (perm : string) : result DB :=
  if bool_decide (perm ∈ group_permissions) then
    permission ← get_permission_object env perm;
    match permission with
    | Some p => Ok (permissions_remove group p db)
    | None => Ok db
    end
  else Ok db.

(** One action of one pair of the loop over [RULESET_CHANGE_INHERIT]. *)
Definition inherit_round (env : Env) (group : N) (group_permissions : gset string)
  (parent child : string) (st : Locals) (action : string) : result Locals :=
  let parent_perm := parent +:+ "." +:+ action +:+ "_" +:+ parent in
  if bool_decide (parent_perm ∈ group_permissions) then
    let child_perm := parent +:+ "." +:+ action +:+ "_" +:+ child in
    if bool_decide (child_perm ∈ group_permissions) then Ok st
    else
      match l_ruleset st with
      | None => Raise NameError
      | Some ruleset =>
          pile ← add_model (l_model st) (l_pile st)
                   (RuleSet.parent_child_string parent child) action
                   (can_delete (RuleSet.flags ruleset));
          permission ← get_permission_object env child_perm;
          match permission with
          | Some p =>
              Ok (mkLocals (permissions_add group p (l_db st)) pile
                           (l_model st) (l_ruleset st))
          | None => Ok (mkLocals (l_db st) pile (l_model st) (l_ruleset st))
          end
      end
  else Ok st.

Definition inherit_pair (env : Env) (group : N) (group_permissions : gset string)
  (st : Locals) (pair : string * string) : result Locals :=
  for_each (inherit_round env group group_permissions pair.1 pair.2)
           ["view"; "change"; "add"; "delete"] st.

(** The statements of [update_group_roles] after the database check, given
    [RuleSet.objects.create]: the local variables when the function ends. *)
Definition update_group_roles_locals (env : Env)
  (objects_create : DB → RuleSet.t → result DB) (db : DB) (group : N)
  : result Locals :=
  let group_permissions := current_permission_strings db group in
  let rulesets := users_ruleset db in
  st ← for_each (ruleset_round env objects_create group rulesets)
                RuleSet.RULESET_NAMES (mkLocals db empty_pile None None);
  db2 ← for_each (add_round env group group_permissions)
                 (elements (permissions_to_add (l_pile st))) (l_db st);
  db3 ← for_each (remove_round env group group_permissions)
                 (elements (permissions_to_delete (l_pile st))) db2;
  for_each (inherit_pair env group group_permissions)
           RuleSet.RULESET_CHANGE_INHERIT
           (mkLocals db3 (l_pile st) (l_model st) (l_ruleset st)).

(** The body of [update_group_roles]. *)
Definition update_group_roles_body (env : Env)
  (objects_create : DB → RuleSet.t → result DB) (db : DB) (group : N)
  : result DB :=
  if negb (canAppAccessDatabase env) then Ok db
  else st ← update_group_roles_locals env objects_create db group; Ok (l_db st).

(** ** Saving: [RuleSet.save], [Group.save] and the [post_save] receivers *)

(** [Group.save()] followed by its [post_save] receivers in the order they
    are registered: [create_owner], [create_missing_rule_sets] (which calls
    [update_group_roles]) and [validate_primary_group_on_save]. *)
Definition Group_save_with (update : DB → N → result DB) (env : Env) (db : DB)
  (pk : N) (name : string) : result DB :=
  let db1 := set_auth_group <[pk := name]> db in
  db2 ← create_owner env db1 (AGroup pk name);
  db3 ← update db2 pk;
  validate_primary_group_on_save db3 pk.

(** [RuleSet.save()]: normalise the flags, write the row, save the group. *)
Definition RuleSet_save_with (update : DB → N → result DB) (env : Env) (db : DB)
  (self : RuleSet.t) : result DB :=
  let f := RuleSet.normalize (RuleSet.flags self) in
  let db1 := set_users_ruleset <[(RuleSet.group self, RuleSet.name self) := f]> db in
  match auth_group db1 !! RuleSet.group self with
  | Some name => Group_save_with update env db1 (RuleSet.group self) name
  | None => Raise DoesNotExist
  end.

(** [update_group_roles] re-enters itself through the save of a ruleset it
    creates; [depth] bounds the nesting, as the interpreter's recursion limit
    does. *)
Fixpoint update_group_roles_at (depth : nat) (env : Env) (db : DB) (group : N)
  : result DB :=
  match depth with
  | O => Raise RecursionError
  | S d =>
      update_group_roles_body env
        (RuleSet_save_with (update_group_roles_at d env) env) db group
  end.

(** Every nested call finds one more ruleset in the table, so the nesting
    never exceeds the number of ruleset names. *)
Definition recursion_limit : nat := S (length RuleSet.RULESET_NAMES).

Definition update_group_roles (env : Env) (db : DB) (group : N) : result DB :=
  update_group_roles_at recursion_limit env db group.

Definition Group_save (env : Env) (db : DB) (pk : N) (name : string) : result DB :=
  Group_save_with (update_group_roles env) env db pk name.

Definition RuleSet_save (env : Env) (db : DB) (self : RuleSet.t) : result DB :=
  RuleSet_save_with (update_group_roles env) env db self.

(** ** Authorization checks *)

(** A model class, by its [_meta.app_label] and [_meta.model_name]. *)
Record ModelMeta : Type := mkMeta {
  meta_app_label : string;
  meta_model_name : string
}.

(** [check_user_permission]. *)
Definition check_user_permission (env : Env) (db : DB) (user : option User.t)
  (model : ModelMeta) (permission : string) : bool :=
  match user with
  | None => false
  | Some u =>
      if User.is_superuser u then true
      else
        let permission_name :=
          meta_app_label model +:+ "." +:+ permission +:+ "_" +:+ meta_model_name model in
        has_perm env db u permission_name
  end.

(** The session cache of [InvenTree.cache]: keys to cached results. *)
Abbreviation Cache := (gmap string bool).

(** [f'role_{user.pk}_{role}_{permission}']. *)
Definition cache_key (u : User.t) (role permission : string) : string :=
  "role_" +:+ Py.str_of_N (User.pk u) +:+ "_" +:+ role +:+ "_" +:+ permission.

(** [group.rule_sets.all()]. *)
Definition rule_sets (db : DB) (group : N) : list RuleSet.t :=
  (λ kv, RuleSet.mk kv.1.2 kv.1.1 kv.2)
    <$> filter (λ kv, kv.1.1 = group) (map_to_list (users_ruleset db)).

(** The test made on a rule whose name is the role asked for. *)
Definition rule_grants (permission : string) (f : Flags) : bool :=
  (bool_decide (permission = "add") && can_add f)
  || (bool_decide (permission = "change") && can_change f)
  || (bool_decide (permission = "view") && can_view f)
  || (bool_decide (permission = "delete") && can_delete f).

(** The inner loop of [check_user_role] over the rules of one group: a
    granting rule sets [result] and breaks. *)
Fixpoint scan_rules (role permission : string) (rules : list RuleSet.t)
  (result : bool) : bool :=
  match rules with
  | [] => result
  | rule :: rules' =>
      if bool_decide (RuleSet.name rule = role)
           && rule_grants permission (RuleSet.flags rule)
      then true
      else scan_rules role permission rules' result
  end.

(** The outer loop over the groups of the user. *)
Definition scan_groups (db : DB) (role permission : string) (groups : list N) : bool :=
  foldl (λ result g, scan_rules role permission (rule_sets db g) result) false groups.

(** [check_user_role]: the result and the session cache afterwards. *)
Definition check_user_role (db : DB) (cache : Cache) (user : option User.t)
  (role permission : string) : bool * Cache :=
  match user with
  | None => (false, cache)
  | Some u =>
      if User.is_superuser u then (true, cache)
      else
        let key := cache_key u role permission in
        match cache !! key with
        | Some result => (result, cache)
        | None =>
            let result := scan_groups db role permission (groups_of db (User.pk u)) in
            (result, <[key := result]> cache)
        end
  end.

(** The loop of [check_table_permission] over [RULESET_NAMES]: [true] as
    soon as a role that touches the table grants the permission. *)
Fixpoint check_roles (env : Env) (db : DB) (user : User.t) (table permission : string)
  (roles : list string) (cache : Cache) : result (bool * Cache) :=
  match roles with
  | [] => Ok (false, cache)
  | role :: roles' =>
      match RuleSet.models_of_role env role with
      | None => Raise KeyError
      | Some models =>
          if bool_decide (table ∈ models) then
            let '(granted, cache') := check_user_role db cache (Some user) role permission in
            if granted then Ok (true, cache')
            else check_roles env db user table permission roles' cache'
          else check_roles env db user table permission roles' cache
      end
  end.

(** The loop over [RULESET_CHANGE_INHERIT]: a child table is allowed when the
    parent role has the [change] permission. *)
Fixpoint check_inherit (db : DB) (user : User.t) (table : string)
  (pairs : list (string * string)) (cache : Cache) : bool * Cache :=
  match pairs with
  | [] => (false, cache)
  | (parent, child) :: pairs' =>
      if bool_decide (RuleSet.parent_child_string parent child = table) then
        let '(granted, cache') := check_user_role db cache (Some user) parent "change" in
        if granted then (true, cache')
        else check_inherit db user table pairs' cache'
      else check_inherit db user table pairs' cache
  end.

(** [RuleSet.check_table_permission]: reading [is_superuser] of [None]
    raises [AttributeError]. *)
Definition check_table_permission (env : Env) (db : DB) (cache : Cache)
  (user : option User.t) (table permission : string) : result (bool * Cache) :=
  match user with
  | None => Raise AttributeError
  | Some u =>
      if User.is_superuser u then Ok (true, cache)
      else if bool_decide (table ∈ RuleSet.get_ruleset_ignore) then Ok (true, cache)
      else
        match check_roles env db u table permission RuleSet.RULESET_NAMES cache with
        | Raise e => Raise e
        | Ok (true, cache1) => Ok (true, cache1)
        | Ok (false, cache1) =>
            Ok (check_inherit db u table RuleSet.RULESET_CHANGE_INHERIT cache1)
        end
  end.

(** ** Deleting a group and changing memberships *)

(** [group.delete()]: the cascade of the database (memberships, group
    permissions and rulesets of the group go, [primary_group] is set to
    null), then the [post_delete] receivers [delete_owner] and
    [validate_primary_group_on_delete]. *)
Definition delete_cascade (pk : N) (db : DB) : DB :=
  mkDB (delete pk (auth_group db)) (auth_user db)
       (filter (λ x, x.2 ≠ pk) (user_groups db))
       (filter (λ x, x.1 ≠ pk) (group_permissions db))
       (filter (λ kv, kv.1.1 ≠ pk) (users_ruleset db))
       (users_owner db)
       ((λ pg, if bool_decide (pg = Some pk) then None else pg) <$> users_userprofile db)
       (other_rows db).

Definition Group_delete (db : DB) (pk : N) (name : string) : result DB :=
  let db1 := delete_cascade pk db in
  db2 ← delete_owner db1 (AGroup pk name);
  validate_primary_group_on_delete db2 pk.

(** [user.groups.add] and [user.groups.remove] of some groups: with no
    group given the manager returns at once and sends no signal; otherwise
    the rows change between the [pre_] and the [post_] signal. *)
Definition groups_add (db : DB) (u : N) (groups : list N) : result DB :=
  match groups with
  | [] => Ok db
  | _ =>
      db0 ← validate_primary_group_on_group_change db (AUser u) "pre_add";
      let db1 := set_user_groups (λ s, s ∪ list_to_set ((λ g, (u, g)) <$> groups)) db0 in
      validate_primary_group_on_group_change db1 (AUser u) "post_add"
  end.

Definition groups_remove (db : DB) (u : N) (groups : list N) : result DB :=
  match groups with
  | [] => Ok db
  | _ =>
      db0 ← validate_primary_group_on_group_change db (AUser u) "pre_remove";
      let db1 := set_user_groups (λ s, s ∖ list_to_set ((λ g, (u, g)) <$> groups)) db0 in
      validate_primary_group_on_group_change db1 (AUser u) "post_remove"
  end.

(** ** Notions used to state the properties *)

(** The local variables at the end of a top-level [update_group_roles]. *)
Definition reconcile_locals (env : Env) (db : DB) (group : N) : result Locals :=
  update_group_roles_locals env
    (RuleSet_save_with (update_group_roles_at (length RuleSet.RULESET_NAMES) env) env)
    db group.

(** A sequence of [add_model] calls [(model, action, allowed)], each made
    while the loop variable is bound to its model, as in the loop over the
    models of a ruleset. *)
Definition add_model_calls (calls : list (string * string * bool)) (pile : Pile)
  : result Pile :=
  for_each (λ p c, add_model (Some c.1.1) p c.1.1 c.1.2 c.2) calls pile.

(** A call [add_model] accepts: a known action and a table name with an
    app prefix. *)
Definition valid_call (c : string * string * bool) : Prop :=
  c.1.2 ∈ RuleSet.RULESET_PERMISSIONS ∧ is_ok (RuleSet.split_model c.1.1) = true.

(** Some group of the user has a ruleset [role] that grants [permission]. *)
Definition role_grants (db : DB) (u : User.t) (role permission : string) : Prop :=
  ∃ g f, (User.pk u, g) ∈ user_groups db
         ∧ users_ruleset db !! (g, role) = Some f
         ∧ rule_grants permission f = true.

(** Some ruleset that governs [table] grants [permission] to the user. *)
Definition table_granted (env : Env) (db : DB) (u : User.t) (table permission : string)
  : Prop :=
  ∃ role models, role ∈ RuleSet.RULESET_NAMES
                 ∧ RuleSet.models_of_role env role = Some models
                 ∧ table ∈ models
                 ∧ role_grants db u role permission.

(** [table] is the child of an inheritance pair whose parent role grants
    [change] to the user. *)
Definition inherit_granted (db : DB) (u : User.t) (table : string) : Prop :=
  ∃ parent child, (parent, child) ∈ RuleSet.RULESET_CHANGE_INHERIT
                  ∧ RuleSet.parent_child_string parent child = table
                  ∧ role_grants db u parent "change".

(** Every result the session cache holds for the user is up to date. *)
Definition cache_fresh (db : DB) (u : User.t) (cache : Cache) : Prop :=
  ∀ role permission v,
    role ∈ RuleSet.RULESET_NAMES → permission ∈ RuleSet.RULESET_PERMISSIONS →
    cache !! cache_key u role permission = Some v →
    (v = true ↔ role_grants db u role permission).

(** The invariant of [UserProfile.primary_group]. *)
Definition primary_group_valid (db : DB) : Prop :=
  ∀ u g, users_userprofile db !! u = Some (Some g) → (u, g) ∈ user_groups db.

(** Rows of [users_ruleset] are kept. *)
Definition rulesets_kept (db db' : DB) : Prop :=
  ∀ k f, users_ruleset db !! k = Some f → users_ruleset db' !! k = Some f.

(** The child permission of an inheritance pair: [f'{parent}.{action}_{child}']. *)
Definition child_perm (parent child action : string) : string :=
  parent +:+ "." +:+ action +:+ "_" +:+ child.

(** *** The statements that do not hold as written *)


(** [Owner.create] returns the existing owner, also when the insert meets a
    duplicate key. *)
Definition create_claim (others : DB → DB) (db : DB) (obj : ModelObj) : Prop :=
  (∀ o, Owner.get_owner db obj = Some o → Owner.create others db obj = Ok (Some o, db))
  ∧ (Owner.get_owner db obj = None →
     Owner.objects_create (users_owner (others db)) obj = Raise IntegrityError →
     ∃ o, Owner.create others db obj = Ok (Some o, others db)
          ∧ Owner.matches (obj_content_type obj) (obj_pk obj) o = true).

(** Inheritance: with [change] on the parent ruleset, reconciliation makes
    all four child permissions desired (or granted), and the table check
    allows every action on the child table. *)
Definition inheritance_claim (env : Env) (db : DB) (cache : Cache) (u : User.t)
  (group : N) : Prop :=
  ∀ parent child action f,
    (parent, child) ∈ RuleSet.RULESET_CHANGE_INHERIT →
    action ∈ RuleSet.RULESET_PERMISSIONS →
    User.is_superuser u = false →
    (User.pk u, group) ∈ user_groups db →
    users_ruleset db !! (group, parent) = Some f → can_change f = true →
    (∀ st, reconcile_locals env db group = Ok st →
           child_perm parent child action ∈ permissions_to_add (l_pile st)
           ∨ child_perm parent child action ∈ current_permission_strings (l_db st) group)
    ∧ (∃ cache', check_table_permission env db cache (Some u)
                   (RuleSet.parent_child_string parent child) action = Ok (true, cache')).

(** Union of grants: a grant by any governing ruleset allows the action. *)
Definition union_claim (env : Env) (db : DB) (cache : Cache) (u : User.t)
  (table permission : string) : Prop :=
  User.is_superuser u = false →
  table ∉ RuleSet.get_ruleset_ignore →
  table_granted env db u table permission →
  ∃ cache', check_table_permission env db cache (Some u) table permission
            = Ok (true, cache').

(** *** Concrete databases *)

(** Every content type and every permission row exists. *)
Definition env_all : Env :=
  mkEnv false true false (λ _ _, true) (λ _ _ _, true) (λ _ _ _, false).

(** The ten rulesets of group [g], all flags off except those of [build]
    and [part]. *)
Definition ruleset_rows (g : N) (build part : Flags) : gmap (N * string) Flags :=
  <[(g, "part") := part]>
    (<[(g, "build") := build]>
       (list_to_map ((λ n, ((g, n), no_flags)) <$> RuleSet.RULESET_NAMES))).

(** Group 1 with member 1, no permissions yet. *)
Definition db_group (build part : Flags) : DB :=
  mkDB {[ 1%N := "G" ]} {[ 1%N ]} {[ (1%N, 1%N) ]} ∅
       (ruleset_rows 1 build part)
       [mkOwner 1 (Some CT_group) (Some 1%N); mkOwner 2 (Some CT_user) (Some 1%N)]
       {[ 1%N := None ]} ∅.

Definition view_change : Flags := mkFlags true false true false.

Definition user1 : User.t := User.mk 1 false.

(** The cache left by a check made before any ruleset granted anything. *)
Definition cache_before : Cache :=
  match check_table_permission env_all (db_group no_flags no_flags) ∅
          (Some user1) "part_part" "view" with
  | Ok (_, cache) => cache
  | Raise _ => ∅
  end.

(** The database after an administrator grants [view] on [part]. *)
Definition db_after_grant : DB :=
  match RuleSet_save env_all (db_group no_flags no_flags)
          (RuleSet.mk "part" 1 (mkFlags true false false false)) with
  | Ok db => db
  | Raise _ => db_group no_flags no_flags
  end.

(** *** Relations between the database before and after an operation *)

(** The two sets of a pile have no permission string in common. *)
Definition pile_disjoint (pile : Pile) : Prop :=
  permissions_to_add pile ## permissions_to_delete pile.

(** What the loops need of [RuleSet.objects.create] to keep a relation [R]:
    it is only called for a ruleset that has no row yet. *)
Definition create_keeps (R : DB → DB → Prop)
  (objects_create : DB → RuleSet.t → result DB) : Prop :=
  ∀ db r db',
    users_ruleset db !! (RuleSet.group r, RuleSet.name r) = None →
    objects_create db r = Ok db' → R db db'.

(** The invariant of the primary group is kept. *)
Definition keeps_primary_group (db db' : DB) : Prop :=
  primary_group_valid db → primary_group_valid db'.

(** A profile that has no primary group keeps none. *)
Definition keeps_cleared (u : N) (db db' : DB) : Prop :=
  users_userprofile db !! u = Some None → users_userprofile db' !! u = Some None.

(** The part of a cache key after the user: [f'{role}_{permission}']. *)
Definition key_suffix (rp : string * string) : string := rp.1 +:+ "_" +:+ rp.2.

(** Every role with every permission. *)
Definition role_permission_pairs : list (string * string) :=
  r ← RuleSet.RULESET_NAMES; (λ p, (r, p)) <$> RuleSet.RULESET_PERMISSIONS.

(** Two calls of [update_group_roles] in succession. *)
Definition reconcile_twice (env : Env) (db : DB) (group : N) : result (DB * DB) :=
  db1 ← update_group_roles env db group;
  db2 ← update_group_roles env db1 group;
  Ok (db1, db2).

(** [perm] is not in the group after the first call and is after the second. *)
Definition second_call_adds (r : result (DB * DB)) (group : N) (perm : string) : bool :=
  match r with
  | Ok (db1, db2) =>
      negb (bool_decide (perm ∈ current_permission_strings db1 group))
      && bool_decide (perm ∈ current_permission_strings db2 group)
  | Raise _ => false
  end.

(** [perm] is in the group after the earlier call and not after the later. *)
Definition later_call_removes (r : result (DB * DB)) (group : N) (perm : string) : bool :=
  match r with
  | Ok (db1, db2) =>
      bool_decide (perm ∈ current_permission_strings db1 group)
      && negb (bool_decide (perm ∈ current_permission_strings db2 group))
  | Raise _ => false
  end.

(** [perm] is desired or granted when the pass ends. *)
Definition desired_or_granted (r : result Locals) (group : N) (perm : string) : bool :=
  match r with
  | Ok st =>
      bool_decide (perm ∈ permissions_to_add (l_pile st))
      || bool_decide (perm ∈ current_permission_strings (l_db st) group)
  | Raise _ => false
  end.

(** The ruleset names that have no row yet for the group. *)
Definition missing_rulesets (db : DB) (group : N) : nat :=
  length (filter (λ n, users_ruleset db !! (group, n) = None) RuleSet.RULESET_NAMES).

(** The result is not the recursion limit being hit. *)
Definition within_limit {A : Type} (r : result A) : Prop := r ≠ Raise RecursionError.

(** The answer of a table check, without the cache. *)
Definition answer (r : result (bool * Cache)) : result bool :=
  match r with
  | Ok (b, _) => Ok b
  | Raise e => Raise e
  end.

(** The cache left by a check of [delete] on the child table
    [part_partparameter] made before any ruleset granted anything. *)
Definition cache_before_child : Cache :=
  match check_table_permission env_all (db_group no_flags no_flags) ∅
          (Some user1) "part_partparameter" "delete" with
  | Ok (_, cache) => cache
  | Raise _ => ∅
  end.

(** The database after an administrator grants [view] and [change] on
    [part]. *)
Definition db_after_change : DB :=
  match RuleSet_save env_all (db_group no_flags no_flags)
          (RuleSet.mk "part" 1 view_change) with
  | Ok db => db
  | Raise _ => db_group no_flags no_flags
  end.

(** Three calls of [update_group_roles] in succession: the databases after
    the second and after the third. *)
Definition reconcile_thrice (env : Env) (db : DB) (group : N) : result (DB * DB) :=
  db1 ← update_group_roles env db group;
  db2 ← update_group_roles env db1 group;
  db3 ← update_group_roles env db2 group;
  Ok (db2, db3).

(** Group 1 with member 1, whose primary group it is. *)
Definition db_member : DB :=
  mkDB {[ 1%N := "G" ]} {[ 1%N ]} {[ (1%N, 1%N) ]} ∅ ∅
       [mkOwner 1 (Some CT_group) (Some 1%N); mkOwner 2 (Some CT_user) (Some 1%N)]
       {[ 1%N := Some 1%N ]} ∅.

(** ** Further notions *)

(** [c in s] for a character. *)
Fixpoint has_char (c : ascii) (s : string) : bool :=
  match s with
  | EmptyString => false
  | String d s' => bool_decide (d = c) || has_char c s'
  end.

(** The flags satisfy the two implications of [save]. *)
Definition normalized (f : Flags) : Prop :=
  (can_add f || can_change f || can_delete f = true → can_view f = true)
  ∧ (can_add f || can_delete f = true → can_change f = true).

(** Every flag set in [f] is set in [f']. *)
Definition flags_le (f f' : Flags) : Prop :=
  (can_view f = true → can_view f' = true)
  ∧ (can_add f = true → can_add f' = true)
  ∧ (can_change f = true → can_change f' = true)
  ∧ (can_delete f = true → can_delete f' = true).

(** What [get_permission_object] does once the string is taken apart into
    app label, model and codename. *)
Definition lookup_permission (env : Env) (app model codename : string)
  : result (option Permission) :=
  if content_type_exists env app model then
    if permission_exists env app model codename
    then Ok (Some (codename, app, model))
    else Raise DoesNotExist
  else Ok None.

(** All the tables named by [get_ruleset_models]. *)
Definition governed_tables (env : Env) : list string :=
  mjoin (snd <$> RuleSet.get_ruleset_models env).

(** ** Owners: the constraint of the table, and the owners of a user *)

(** The instance is a [Group] or a user: the two [isinstance] tests of
    [get_owner]. *)
Definition is_group_or_user (obj : ModelObj) : bool :=
  match obj with
  | AGroup _ _ | AUser _ => true
  | AnOther _ _ _ => false
  end.

(** The primary key and the [unique_owner] constraint of [users_owner]: no
    two rows share a primary key, or an [(owner_type, owner_id)] without
    nulls. *)
Definition owners_unique (rows : list OwnerRow) : Prop :=
  NoDup (owner_pk <$> rows) ∧
  ∀ (i j : nat) (o1 o2 : OwnerRow) (ct : ContentType) (id : N),
    rows !! i = Some o1 → rows !! j = Some o2 →
    Owner.matches ct id o1 = true → Owner.matches ct id o2 = true → i = j.

(** [owners.append(cls.objects.get(owner_id=id, owner_type=ct))] inside
    [try ... except Exception: pass]: the row is appended when exactly one
    matches, and nothing is when [get] raises. *)
Definition get_or_pass (rows : list OwnerRow) (ct : ContentType) (id : N)
  : list OwnerRow :=
  match List.filter (Owner.matches ct id) rows with
  | [o] => [o]
  | _ => []
  end.

(** [Owner.get_owners_matching_user]: the two content types are looked up
    outside any [try]. *)
Definition get_owners_matching_user (env : Env) (db : DB) (user : N)
  : result (list OwnerRow) :=
  if content_type_exists env "auth" "user" then
    if content_type_exists env "auth" "group" then
      Ok (get_or_pass (users_owner db) CT_user user
          ++ mjoin ((λ group, get_or_pass (users_owner db) CT_group group)
                    <$> groups_of db user))%list
    else Raise DoesNotExist
  else Raise DoesNotExist.

(** A database in which a user, the groups of the user's memberships, and
    owners for both exist. *)
Definition db_owners : DB :=
  mkDB {[ 7%N := "staff" ]} {[ 1%N ]} {[ (1%N, 7%N) ]} ∅ ∅
       [mkOwner 1 (Some CT_group) (Some 7%N); mkOwner 2 (Some CT_user) (Some 1%N)]
       ∅ ∅.

(** ** What a reconciliation of one group leaves alone *)

(** Between [db] and [db'] nothing has changed but rows of [group]: its
    permissions; rulesets it had none of, now rows with no flag set; primary
    groups of its members, now cleared; an owner standing for it. *)
Definition group_frame (group : N) (db db' : DB) : Prop :=
  auth_group db' = auth_group db
  ∧ auth_user db' = auth_user db
  ∧ user_groups db' = user_groups db
  ∧ other_rows db' = other_rows db
  ∧ (∀ g p, g ≠ group → (g, p) ∈ group_permissions db' ↔ (g, p) ∈ group_permissions db)
  ∧ (∀ k, users_ruleset db' !! k = users_ruleset db !! k
          ∨ (k.1 = group ∧ users_ruleset db !! k = None
             ∧ users_ruleset db' !! k = Some no_flags))
  ∧ (∀ u, users_userprofile db' !! u = users_userprofile db !! u
          ∨ ((u, group) ∈ user_groups db ∧ users_userprofile db' !! u = Some None))
  ∧ (∀ o, o ∈ users_owner db → o ∈ users_owner db')
  ∧ (∀ o, o ∈ users_owner db' →
          o ∈ users_owner db ∨ Owner.matches CT_group group o = true).

(** The table of owners is the same. *)
Definition owners_same (db db' : DB) : Prop := users_owner db' = users_owner db.

(** Every ruleset name has a row for the group. *)
Definition rulesets_complete (db : DB) (group : N) : Prop :=
  ∀ name, name ∈ RuleSet.RULESET_NAMES → is_Some (users_ruleset db !! (group, name)).

(** What [RuleSet.objects.create] has to keep of a relation [R] for the
    rulesets of one group. *)
Definition create_keeps_for (group : N) (R : DB → DB → Prop)
  (objects_create : DB → RuleSet.t → result DB) : Prop :=
  ∀ db name db',
    users_ruleset db !! (group, name) = None →
    objects_create db (RuleSet.mk name group no_flags) = Ok db' → R db db'.

(** Group 1 with member 1 and no ruleset yet; group 2 with a permission. *)
Definition db_no_rulesets : DB :=
  mkDB {[ 1%N := "G"; 2%N := "H" ]} {[ 1%N ]} {[ (1%N, 1%N) ]}
       {[ (2%N, ("view_part", "part", "part")) ]} ∅
       [mkOwner 1 (Some CT_group) (Some 1%N); mkOwner 2 (Some CT_user) (Some 1%N)]
       {[ 1%N := None ]} ∅.

(** The settings while data is imported. *)
Definition env_import : Env :=
  mkEnv false true true (λ _ _, true) (λ _ _ _, true) (λ _ _ _, false).

(** ** [ApiToken]: expiry, generated keys and names *)

(** [s.replace(old, new)] for a one-character [old]. *)
Fixpoint py_replace (old : ascii) (new s : string) : string :=
  match s with
  | EmptyString => ""
  | String c s' =>
      if decide (c = old) then new +:+ py_replace old new s'
      else String c (py_replace old new s')
  end.

(** Dates are day numbers; [current_date] is what
    [InvenTree.helpers.current_date()] returns. *)
Definition default_token_expiry (current_date : Z) : Z := (current_date + 365)%Z.

(** The fields of a token that [expired] and [active] read. *)
Module ApiTokenRow.

Record t : Type := mk {
  revoked : bool;
  expiry : option Z
}.

Definition expired (self : t) (current_date : Z) : bool :=
  match expiry self with
  | Some e => bool_decide (e < current_date)%Z
  | None => false
  end.

Definition active (self : t) (current_date : Z) : bool :=
  negb (revoked self) && negb (expired self current_date).

End ApiTokenRow.

(** [generate_key]: [random] is the key [AuthToken.generate_key()] returns
    and [isodate] the [isoformat()] of today's date. *)
Definition generate_key (prefix random isodate : string) : string :=
  let suffix := "-" +:+ py_replace "-" "" isodate in
  prefix +:+ random +:+ suffix.

Definition default_token (random isodate : string) : string :=
  generate_key "inv-" random isodate.

(** [sanitize_name]: [strip] is [str.strip], the two helpers are those of
    [InvenTree.helpers], which may raise. *)
Definition sanitize_name (strip : string → string)
  (remove_non_printable_characters strip_html_tags : string → result string)
  (name : string) : result string :=
  let name := strip name in
  name ← remove_non_printable_characters name;
  name ← strip_html_tags name;
  let name := py_replace " " "-" name in
  Ok (Py.slice_to 100 name).

(** ** Memberships changed in other ways *)

(** [user.groups.clear()]: the rows go between the [pre_clear] and the
    [post_clear] signal. *)
Definition groups_clear (db : DB) (u : N) : result DB :=
  db0 ← validate_primary_group_on_group_change db (AUser u) "pre_clear";
  let db1 := set_user_groups (filter (λ x, x.1 ≠ u)) db0 in
  validate_primary_group_on_group_change db1 (AUser u) "post_clear".

(** [group.user_set.add] and [group.user_set.remove] of some users: through
    the reverse accessor the signals carry the group as [instance]; with no
    user given nothing is done. *)
Definition user_set_add (db : DB) (g : N) (name : string) (users : list N)
  : result DB :=
  match users with
  | [] => Ok db
  | _ =>
      db0 ← validate_primary_group_on_group_change db (AGroup g name) "pre_add";
      let db1 := set_user_groups (λ s, s ∪ list_to_set ((λ u, (u, g)) <$> users)) db0 in
      validate_primary_group_on_group_change db1 (AGroup g name) "post_add"
  end.

Definition user_set_remove (db : DB) (g : N) (name : string) (users : list N)
  : result DB :=
  match users with
  | [] => Ok db
  | _ =>
      db0 ← validate_primary_group_on_group_change db (AGroup g name) "pre_remove";
      let db1 := set_user_groups (λ s, s ∖ list_to_set ((λ u, (u, g)) <$> users)) db0 in
      validate_primary_group_on_group_change db1 (AGroup g name) "post_remove"
  end.

(** User 1, a member of group 7, which is the user's primary group. *)
Definition db_primary : DB :=
  mkDB {[ 7%N := "staff" ]} {[ 1%N ]} {[ (1%N, 7%N) ]} ∅ ∅ [] {[ 1%N := Some 7%N ]} ∅.

(** ** When a reconciliation succeeds *)

(** The group exists and every member of it has a profile. *)
Definition reconcilable (db : DB) (group : N) : Prop :=
  is_Some (auth_group db !! group)
  ∧ ∀ u, (u, group) ∈ user_groups db → is_Some (users_userprofile db !! u).

(** Every content type has its four default permissions. *)
Definition default_permissions (env : Env) : Prop :=
  ∀ app model action,
    action ∈ RuleSet.RULESET_PERMISSIONS →
    content_type_exists env app model = true →
    permission_exists env app model (action +:+ "_" +:+ model) = true.

(** A table name with an app prefix and no dot. *)
Definition table_ok (t : string) : Prop :=
  is_ok (RuleSet.split_model t) = true ∧ has_char "." t = false.

(** Every string of the two sets is one [get_permission_object] resolves. *)
Definition pile_ok (env : Env) (p : Pile) : Prop :=
  ∀ s, s ∈ permissions_to_add p ∨ s ∈ permissions_to_delete p →
       is_ok (get_permission_object env s) = true.

(** The loop variable [model] is unbound or holds a table name. *)
Definition model_ok (model_var : option string) : Prop :=
  ∀ m, model_var = Some m → table_ok m.

(** * Properties *)

(** ** Strings *)

Lemma length_app (s1 s2 : string) :
  String.length (s1 +:+ s2) = String.length s1 + String.length s2.
Proof. induction s1 as [|c s1 IH]; simpl; [done | by rewrite IH]. Qed.

Lemma length_string_of_list (l : list ascii) :
  String.length (string_of_list_ascii l) = length l.
Proof. induction l as [|c l IH]; simpl; [done | by rewrite IH]. Qed.

Lemma slice_to_substring (n : nat) (s : string) :
  Py.slice_to n s = substring 0 n s.
Proof.
  revert s; induction n as [|n IH]; intros [|c s]; simpl; try done.
  by rewrite IH.
Qed.

Lemma slice_from_substring (n : nat) (s : string) :
  Py.slice_from n s = substring n (String.length s - n) s.
Proof.
  revert s; induction n as [|n IH]; intros [|c s]; simpl; try done.
  f_equal. clear. induction s as [|d s IH]; simpl; [done | by rewrite <- IH].
Qed.

Lemma length_slice_to (n : nat) (s : string) :
  String.length (Py.slice_to n s) = n `min` String.length s.
Proof.
  revert s; induction n as [|n IH]; intros [|c s]; simpl; try done.
  by rewrite IH.
Qed.

Lemma length_slice_from (n : nat) (s : string) :
  String.length (Py.slice_from n s) = String.length s - n.
Proof.
  revert s; induction n as [|n IH]; intros [|c s]; simpl; try done.
Qed.

Lemma length_repeat_char (c : ascii) (m : Z) :
  String.length (Py.repeat_char c m) = Z.to_nat m.
Proof. unfold Py.repeat_char. by rewrite length_string_of_list, length_replicate. Qed.

(** ** [ApiToken.token] *)

(** An unsaved token shows its raw key. *)
Lemma token_unsaved (k : string) (r : bool) :
  ApiToken.token (ApiToken.mk None k r) = k.
Proof. reflexivity. Qed.

(** The length of the redacted form, for every key. *)
Lemma token_length (tok : ApiToken.t) :
  ApiToken.pk tok ≠ None →
  String.length (ApiToken.token tok)
  = 8 `min` String.length (ApiToken.key tok)
    + (String.length (ApiToken.key tok) - 20)
    + 12 `min` String.length (ApiToken.key tok).
Proof.
  intros Hpk. unfold ApiToken.token. destruct (ApiToken.pk tok); [|done].
  rewrite !length_app, length_slice_to, length_repeat_char.
  unfold Py.slice_last, Py.len. rewrite length_slice_from. lia.
Qed.


(** Keys of 20 characters and more, as the validator of the field
    demands: for a saved token whose key has length [L >= 20], the redacted
    token is the first 8 characters of the key, [L - 20] stars and the last
    12 characters of the key, and it has length [L]. *)
Theorem token_redacts (tok : ApiToken.t) :
  ApiToken.pk tok ≠ None →
  (20 ≤ String.length (ApiToken.key tok))%nat →
  let k := ApiToken.key tok in
  let L := String.length k in
  ApiToken.token tok
    = substring 0 8 k +:+ string_of_list_ascii (replicate (L - 20) "*"%char)
      +:+ substring (L - 12) 12 k
  ∧ String.length (ApiToken.token tok) = L.
Proof.
  intros Hpk HL k L. change (20 ≤ L)%nat in HL. split.
  - unfold ApiToken.token. destruct (ApiToken.pk tok); [|done].
    fold k. rewrite slice_to_substring. unfold Py.slice_last, Py.repeat_char, Py.len.
    rewrite slice_from_substring. fold L.
    replace (Z.to_nat (Z.of_nat L - 20)) with (L - 20) by lia.
    by replace (L - (L - 12)) with 12 by lia.
  - rewrite token_length by done. fold k L. lia.
Qed.

Lemma token_redacts_witness :
  let tok := ApiToken.mk (Some 7%N)
               "inv-0123456789abcdef0123456789abcdef01234567-20260101" false in
  ApiToken.token tok = "inv-0123*********************************567-20260101"
  ∧ String.length (ApiToken.token tok) = 53.
Proof.
  intros tok.
  destruct (token_redacts tok) as [H1 H2]; [done | vm_compute; lia |].
  split; [rewrite H1; reflexivity | exact H2].
Defined.

(** ** A null user *)

(** The two role and permission checks deny a null user. *)
Lemma check_user_role_null (db : DB) (cache : Cache) (role permission : string) :
  check_user_role db cache None role permission = (false, cache).
Proof. reflexivity. Qed.

Lemma check_user_permission_null (env : Env) (db : DB) (model : ModelMeta)
  (permission : string) :
  check_user_permission env db None model permission = false.
Proof. reflexivity. Qed.

(** C2: [check_user_role] and [check_user_permission] return [False] for a
    null user, but [check_table_permission] has no such guard: it reads
    [user.is_superuser] first and raises [AttributeError]. *)
Theorem check_table_permission_null_raises (env : Env) (db : DB) (cache : Cache)
  (table permission : string) (model : ModelMeta) :
  check_user_role db cache None "part" permission = (false, cache)
  ∧ check_user_permission env db None model permission = false
  ∧ check_table_permission env db cache None table permission = Raise AttributeError.
Proof. repeat split. Qed.

(** ** [Owner] *)

Lemma objects_get_matches (rows : list OwnerRow) (ct : ContentType) (id : N)
  (o : OwnerRow) :
  Owner.objects_get rows ct id = Some o → o ∈ rows ∧ Owner.matches ct id o = true.
Proof.
  unfold Owner.objects_get. intros H. apply find_some in H as [Hin Hm].
  by rewrite list_elem_of_In.
Qed.

Lemma objects_get_none (rows : list OwnerRow) (ct : ContentType) (id : N) :
  Owner.objects_get rows ct id = None → existsb (Owner.matches ct id) rows = false.
Proof.
  unfold Owner.objects_get. induction rows as [|r rows IH]; simpl; [done|].
  destruct (Owner.matches ct id r); [done | exact IH].
Qed.

(** Without concurrent writers the insert of [create] never meets a
    duplicate for a group or a user. *)
Lemma create_sequential (db : DB) (obj : ModelObj) :
  (∀ app model pk, obj ≠ AnOther app model pk) →
  ∃ o db', Owner.create id db obj = Ok (Some o, db')
           ∧ Owner.matches (obj_content_type obj) (obj_pk obj) o = true.
Proof.
  intros Hobj. unfold Owner.create.
  destruct (Owner.get_owner db obj) as [o|] eqn:Hget.
  - exists o, db. split; [done|].
    destruct obj as [pk name|pk|app model pk]; simpl in *;
      [| | by destruct (Hobj app model pk)];
      by eapply (objects_get_matches (users_owner db)).
  - unfold Owner.objects_create, id.
    assert (existsb (Owner.matches (obj_content_type obj) (obj_pk obj)) (users_owner db) = false) as ->.
    { destruct obj as [pk name|pk|app model pk]; simpl in *;
        [| | by destruct (Hobj app model pk)]; by apply objects_get_none. }
    do 2 eexists. split; [done|]. unfold Owner.matches. simpl. by apply bool_decide_eq_true.
Qed.

(** C8, as stated, fails when a concurrent writer inserts the owner of user
    1 between the lookup and the insert: [create] returns [None], not the
    row that exists now. *)
Lemma create_claim_race :
  ¬ create_claim
      (set_users_owner (λ rows, rows ++ [mkOwner 1 (Some CT_user) (Some 1%N)])%list)
      (mkDB ∅ {[ 1%N ]} ∅ ∅ ∅ [] ∅ ∅) (AUser 1).
Proof. intros [_ H]. destruct H as (o & Ho & _); [done | done | discriminate Ho]. Qed.

(** C8 (amended): [Owner.create] returns the existing owner of the subject
    and leaves the table alone when [get_owner] finds one; when it finds
    none and the insert meets a duplicate key, the integrity error is not
    propagated and [create] returns [None]; otherwise it returns the row it
    inserts. *)
Theorem create_returns_existing_or_none (others : DB → DB) (db : DB) (obj : ModelObj) :
  (∀ o, Owner.get_owner db obj = Some o →
        Owner.create others db obj = Ok (Some o, db)
        ∧ o ∈ users_owner db)
  ∧ (Owner.get_owner db obj = None →
     existsb (Owner.matches (obj_content_type obj) (obj_pk obj))
             (users_owner (others db)) = true →
     Owner.create others db obj = Ok (None, others db))
  ∧ (Owner.get_owner db obj = None →
     existsb (Owner.matches (obj_content_type obj) (obj_pk obj))
             (users_owner (others db)) = false →
     ∃ o, Owner.create others db obj
          = Ok (Some o, set_users_owner (λ _, users_owner (others db) ++ [o])%list (others db))
          ∧ owner_type o = Some (obj_content_type obj)
          ∧ owner_id o = Some (obj_pk obj)).
Proof.
  unfold Owner.create, Owner.objects_create. repeat split.
  - by rewrite H.
  - destruct obj; simpl in H; [| | done];
      by eapply (objects_get_matches (users_owner db)).
  - intros -> ->. done.
  - intros -> ->. eexists. repeat split.
Qed.

Lemma create_returns_existing_or_none_witness :
  Owner.create
    (set_users_owner (λ rows, rows ++ [mkOwner 1 (Some CT_user) (Some 1%N)])%list)
    (mkDB ∅ {[ 1%N ]} ∅ ∅ ∅ [] ∅ ∅) (AUser 1)
  = Ok (None,
        set_users_owner (λ rows, rows ++ [mkOwner 1 (Some CT_user) (Some 1%N)])%list
          (mkDB ∅ {[ 1%N ]} ∅ ∅ ∅ [] ∅ ∅)).
Proof.
  destruct (create_returns_existing_or_none
              (set_users_owner (λ rows, rows ++ [mkOwner 1 (Some CT_user) (Some 1%N)])%list)
              (mkDB ∅ {[ 1%N ]} ∅ ∅ ∅ [] ∅ ∅) (AUser 1)) as (_ & Hrace & _).
  apply Hrace; reflexivity.
Defined.

(** C10: [get_related_owners] returns a sequence exactly when the owner
    object is a [Group] or a user; for every other owner, a dangling
    reference included, it returns [None] and [is_user_allowed] raises
    [TypeError] instead of returning [False]. *)
Theorem related_owners_none_raises (db : DB) (self : OwnerRow) (include_group : bool)
  (user : ModelObj) :
  (is_Some (Owner.get_related_owners db self include_group)
   ↔ (∃ pk name, Owner.owner db self = Some (AGroup pk name))
     ∨ (∃ pk, Owner.owner db self = Some (AUser pk)))
  ∧ (Owner.get_related_owners db self include_group = None
     ↔ Owner.is_user_allowed db self user include_group = Raise TypeError)
  ∧ (Owner.owner db self = None →
     Owner.get_related_owners db self include_group = None).
Proof.
  unfold Owner.is_user_allowed, Owner.get_related_owners.
  destruct (Owner.owner db self) as [[pk name|pk|app model pk]|]; repeat split;
    try done; try (intros [? ?]; done); eauto;
    try (intros [(? & ? & ?)|(? & ?)]; done).
Qed.

(** ** Sets and loops *)

Lemma elem_of_set_add `{Countable K} (x y : K) (X : gset K) :
  y ∈ set_add x X ↔ y = x ∨ y ∈ X.
Proof.
  destruct X as [m]. unfold set_add, elem_of, gset_elem_of, mapset_elem_of. simpl.
  destruct (decide (x = y)) as [->|Hne].
  - rewrite lookup_insert_eq. naive_solver.
  - rewrite lookup_insert_ne by done. naive_solver.
Qed.

Lemma elem_of_set_remove `{Countable K} (x y : K) (X : gset K) :
  y ∈ set_remove x X ↔ y ≠ x ∧ y ∈ X.
Proof.
  destruct X as [m]. unfold set_remove, elem_of, gset_elem_of, mapset_elem_of. simpl.
  destruct (decide (x = y)) as [->|Hne].
  - rewrite lookup_delete_eq. naive_solver.
  - rewrite lookup_delete_ne by done. naive_solver.
Qed.

Lemma set_add_union `{Countable K} (x : K) (X : gset K) : set_add x X = X ∪ {[x]}.
Proof. apply set_eq. intros y. rewrite elem_of_set_add. set_solver. Qed.

Lemma set_remove_difference `{Countable K} (x : K) (X : gset K) :
  set_remove x X = X ∖ {[x]}.
Proof. apply set_eq. intros y. rewrite elem_of_set_remove. set_solver. Qed.

Lemma elem_of_set_of_list `{Countable K} (x : K) (xs : list K) :
  x ∈ set_of_list xs ↔ x ∈ xs.
Proof.
  unfold set_of_list. induction xs as [|y xs IH]; simpl.
  - set_solver.
  - rewrite elem_of_set_add, elem_of_cons, IH. done.
Qed.

Lemma is_ok_inv {A : Type} (m : result A) : is_ok m = true → ∃ a, m = Ok a.
Proof. destruct m as [a|e]; [by exists a | done]. Qed.

(** The value of a result that is known to be [Ok]. *)
Lemma ok_value {A : Type} (r : result A) (d : A) :
  is_ok r = true → r = Ok (match r with Ok a => a | Raise _ => d end).
Proof. by destruct r. Qed.

Lemma answer_value (r : result (bool * Cache)) (b : bool) (d : Cache) :
  answer r = Ok b →
  r = Ok (b, match r with Ok (_, cache) => cache | Raise _ => d end).
Proof. destruct r as [[b' c]|e]; simpl; [by intros [= ->] | done]. Qed.

Lemma answer_false (r : result (bool * Cache)) (c : Cache) :
  answer r = Ok false → r ≠ Ok (true, c).
Proof. by intros H ->. Qed.

(** A property kept by every round of a loop holds when the loop ends. *)
Lemma for_each_inv {A S : Type} (P : S → Prop) (body : S → A → result S)
  (xs : list A) (s s' : S) :
  (∀ s1 x s2, x ∈ xs → P s1 → body s1 x = Ok s2 → P s2) →
  P s → for_each body xs s = Ok s' → P s'.
Proof.
  revert s. induction xs as [|x xs IH]; simpl; intros s Hbody Hs Hrun.
  - by injection Hrun as <-.
  - destruct (body s x) as [s1|e] eqn:Hx; simpl in Hrun; [|done].
    apply (IH s1); [| |done].
    + intros s2 y s3 Hy. apply Hbody. by right.
    + eapply Hbody; [by left | done | done].
Qed.

(** A loop whose rounds all return does return. *)
Lemma for_each_total {A S : Type} (P : S → Prop) (body : S → A → result S)
  (xs : list A) (s : S) :
  (∀ s1 x, x ∈ xs → P s1 → ∃ s2, body s1 x = Ok s2 ∧ P s2) →
  P s → ∃ s', for_each body xs s = Ok s' ∧ P s'.
Proof.
  revert s. induction xs as [|x xs IH]; simpl; intros s Hbody Hs.
  - by exists s.
  - destruct (Hbody s x) as (s1 & -> & Hs1); [by left | done |]. simpl.
    apply IH; [|done]. intros s2 y Hy. apply Hbody. by right.
Qed.

(** ** [add_model]: an allowed action wins over a forbidden one *)

Lemma get_model_permission_string_ok (model action : string) :
  is_ok (RuleSet.split_model model) = true →
  ∃ ps, RuleSet.get_model_permission_string model action = Ok ps.
Proof.
  unfold RuleSet.get_model_permission_string.
  destruct (RuleSet.split_model model) as [[m a]|e]; [eauto | done].
Qed.

(** What one call does to the two sets. *)
Lemma add_model_spec (model name action ps : string) (allowed : bool) (pile : Pile) :
  action ∈ RuleSet.RULESET_PERMISSIONS →
  RuleSet.get_model_permission_string model action = Ok ps →
  ∃ pile', add_model (Some model) pile name action allowed = Ok pile'
    ∧ (permissions_to_add pile ⊆ permissions_to_add pile')
    ∧ (pile_disjoint pile → pile_disjoint pile')
    ∧ (allowed = true → ps ∈ permissions_to_add pile').
Proof.
  intros Hact Hps. unfold add_model.
  rewrite bool_decide_eq_true_2 by exact Hact. rewrite Hps. simpl.
  unfold pile_disjoint. destruct allowed.
  - eexists. split; [done|]. simpl.
    rewrite set_add_union, set_remove_difference. set_solver.
  - case_bool_decide.
    + eexists. split; [done|]. set_solver.
    + eexists. split; [done|]. simpl. rewrite set_add_union. set_solver.
Qed.

(** Whatever variable it reads, a call that returns keeps the two sets
    disjoint and keeps what is to be added. *)
Lemma add_model_keeps (model_var : option string) (name action : string)
  (allowed : bool) (pile pile' : Pile) :
  add_model model_var pile name action allowed = Ok pile' →
  (pile_disjoint pile → pile_disjoint pile')
  ∧ permissions_to_add pile ⊆ permissions_to_add pile'.
Proof.
  unfold add_model. case_bool_decide as Hact; [|done].
  destruct model_var as [model|]; [|done].
  destruct (RuleSet.get_model_permission_string model action) as [ps|e] eqn:Hps; [|done].
  intros Hrun.
  destruct (add_model_spec model name action ps allowed pile Hact Hps)
    as (pile2 & Hrun2 & Hsub & Hdis & _).
  unfold add_model in Hrun2. rewrite bool_decide_eq_true_2, Hps in Hrun2 by done.
  rewrite Hrun2 in Hrun. by injection Hrun as <-.
Qed.

(** C5: in any sequence of [add_model] calls, in any order, starting from
    disjoint sets, the calls return, the set to remove stays disjoint from
    the set to add, and a permission string marked allowed by any call is in
    the final set to add and not in the final set to remove. *)
Theorem add_wins_over_remove (calls : list (string * string * bool)) (pile : Pile) :
  pile_disjoint pile →
  Forall valid_call calls →
  ∃ pile', add_model_calls calls pile = Ok pile'
    ∧ pile_disjoint pile'
    ∧ permissions_to_add pile ⊆ permissions_to_add pile'
    ∧ ∀ model action ps,
        (model, action, true) ∈ calls →
        RuleSet.get_model_permission_string model action = Ok ps →
        ps ∈ permissions_to_add pile' ∧ ps ∉ permissions_to_delete pile'.
Proof.
  unfold add_model_calls. revert pile.
  induction calls as [|[[model action] allowed] calls IH]; intros pile Hdis Hvalid.
  - exists pile. split; [done|]. split; [done|]. split; [set_solver|].
    intros ??? Hin. by apply elem_of_nil in Hin.
  - apply Forall_cons in Hvalid as [[Hact Hsplit] Hvalid]. simpl in Hact, Hsplit.
    destruct (get_model_permission_string_ok model action Hsplit) as [ps Hps].
    destruct (add_model_spec model model action ps allowed pile Hact Hps)
      as (pile1 & Hrun1 & Hsub1 & Hdis1 & Hin1).
    destruct (IH pile1 (Hdis1 Hdis) Hvalid) as (pile' & Hrun & Hdis' & Hsub & Hall).
    exists pile'. simpl. rewrite Hrun1. simpl. split; [exact Hrun|].
    split; [exact Hdis'|]. split; [set_solver|].
    intros model' action' ps' Hin Hps'.
    apply elem_of_cons in Hin as [Heq|Hin]; [|by eapply Hall].
    injection Heq as ? ? ?; subst model' action' allowed.
    assert (ps' = ps) as -> by congruence.
    assert (ps ∈ permissions_to_add pile') by (apply Hsub, Hin1; done).
    unfold pile_disjoint in Hdis'. set_solver.
Qed.

Lemma add_wins_over_remove_witness :
  ∃ pile', add_model_calls
             [("part_part", "view", false); ("part_part", "view", true);
              ("part_part", "view", false)] empty_pile = Ok pile'
    ∧ "part.view_part" ∈ permissions_to_add pile'
    ∧ "part.view_part" ∉ permissions_to_delete pile'.
Proof.
  destruct (add_wins_over_remove
              [("part_part", "view", false); ("part_part", "view", true);
               ("part_part", "view", false)] empty_pile)
    as (pile' & Hrun & _ & _ & Hall).
  - unfold pile_disjoint. simpl. set_solver.
  - repeat constructor; simpl; set_solver.
  - exists pile'. split; [exact Hrun|].
    apply (Hall "part_part" "view"); [set_solver | reflexivity].
Defined.

(** ** What saving and reconciling keep *)

Lemma bind_ok {A B : Type} (k : A → result B) (m : result A) (r : B) :
  mbind k m = Ok r → ∃ a, m = Ok a ∧ k a = Ok r.
Proof. destruct m as [a|e]; [by exists a | done]. Qed.

(** In a hypothesis [x ← m; k = Ok r], [m] returned. *)
Ltac ok_bind H :=
  let a := fresh "a" in
  let E := fresh "E" in
  apply bind_ok in H as (a & E & H); cbv beta in H.

Section Preservation.

(** A relation between the database before and after, kept by the writes
    the module makes. *)
Variable R : DB → DB → Prop.
Hypothesis R_refl : ∀ db, R db db.
Hypothesis R_trans : ∀ db1 db2 db3, R db1 db2 → R db2 db3 → R db1 db3.
Hypothesis R_perms : ∀ db f, R db (set_group_permissions f db).
Hypothesis R_owner : ∀ db f, R db (set_users_owner f db).
Hypothesis R_group : ∀ db pk name, R db (set_auth_group <[pk := name]> db).
Hypothesis R_profile : ∀ db u, R db (UserProfile.save db (UserProfile.mk u None)).
Hypothesis R_ruleset :
  ∀ db k f, users_ruleset db !! k = None → R db (set_users_ruleset <[k := f]> db).

Lemma create_owner_R (env : Env) (db db' : DB) (obj : ModelObj) :
  create_owner env db obj = Ok db' → R db db'.
Proof using R_refl R_owner.
  unfold create_owner. destruct (isImportingData env).
  { intros [= <-]. apply R_refl. }
  unfold Owner.create, id.
  destruct (Owner.get_owner db obj); simpl.
  { intros [= <-]. apply R_refl. }
  destruct (Owner.objects_create (users_owner db) obj) as [[o rows]|[]]; simpl;
    intros [= <-]; [apply R_owner | apply R_refl].
Qed.

Lemma for_each_R {A : Type} (body : DB → A → result DB) (xs : list A) (db db' : DB) :
  (∀ db1 x db2, body db1 x = Ok db2 → R db1 db2) →
  for_each body xs db = Ok db' → R db db'.
Proof using R_refl R_trans.
  intros Hbody. apply (for_each_inv (R db)); [|apply R_refl].
  intros db1 x db2 _ H1 Hx. eapply R_trans; [exact H1 | by eapply Hbody].
Qed.

Lemma validate_primary_group_on_save_R (db db' : DB) (g : N) :
  validate_primary_group_on_save db g = Ok db' → R db db'.
Proof using R_refl R_trans R_profile.
  apply for_each_R. intros db1 u db2 H. ok_bind H.
  destruct (UserProfile.stale_primary_group _ _ _); injection H as <-;
    [apply R_profile | apply R_refl].
Qed.

Lemma validate_primary_group_on_delete_R (db db' : DB) (g : N) :
  validate_primary_group_on_delete db g = Ok db' → R db db'.
Proof using R_refl R_trans R_profile.
  apply for_each_R. intros db1 u db2 H. ok_bind H.
  case_bool_decide as Hdec; injection H as <-; [apply R_profile | apply R_refl].
Qed.

Lemma validate_primary_group_on_group_change_R (db db' : DB) (instance : ModelObj)
  (action : string) :
  validate_primary_group_on_group_change db instance action = Ok db' → R db db'.
Proof using R_refl R_profile.
  unfold validate_primary_group_on_group_change. case_bool_decide as Hdec.
  - destruct instance; try done. intros H. ok_bind H.
    destruct (UserProfile.stale_primary_group _ _ _); injection H as <-;
      [apply R_profile | apply R_refl].
  - intros [= <-]. apply R_refl.
Qed.

Lemma add_round_R (env : Env) (group : N) (gp : gset string) (db db' : DB)
  (perm : string) :
  add_round env group gp db perm = Ok db' → R db db'.
Proof using R_refl R_perms.
  unfold add_round. case_bool_decide as Hdec.
  { intros [= <-]. apply R_refl. }
  intros H. ok_bind H. destruct a; injection H as <-; [apply R_perms | apply R_refl].
Qed.

Lemma remove_round_R (env : Env) (group : N) (gp : gset string) (db db' : DB)
  (perm : string) :
  remove_round env group gp db perm = Ok db' → R db db'.
Proof using R_refl R_perms.
  unfold remove_round. case_bool_decide as Hdec.
  - intros H. ok_bind H. destruct a; injection H as <-; [apply R_perms | apply R_refl].
  - intros [= <-]. apply R_refl.
Qed.

Lemma inherit_round_R (env : Env) (group : N) (gp : gset string)
  (parent child action : string) (st st' : Locals) :
  inherit_round env group gp parent child st action = Ok st' →
  R (l_db st) (l_db st').
Proof using R_refl R_perms.
  unfold inherit_round. case_bool_decide as Hdec; [|intros [= <-]; apply R_refl].
  case_bool_decide as Hdec2; [intros [= <-]; apply R_refl|].
  destruct (l_ruleset st); [|done]. intros H. ok_bind H. ok_bind H.
  destruct a0; injection H as <-; simpl; [apply R_perms | apply R_refl].
Qed.

Lemma inherit_pair_R (env : Env) (group : N) (gp : gset string)
  (st st' : Locals) (pair : string * string) :
  inherit_pair env group gp st pair = Ok st' → R (l_db st) (l_db st').
Proof using R_refl R_trans R_perms.
  unfold inherit_pair.
  apply (for_each_inv (λ s, R (l_db st) (l_db s))); [|apply R_refl].
  intros s1 x s2 _ H1 Hx. eapply R_trans; [exact H1 | by eapply inherit_round_R].
Qed.

Lemma ruleset_round_R (env : Env) (objects_create : DB → RuleSet.t → result DB)
  (group : N) (rulesets : gmap (N * string) Flags) (st st' : Locals) (rulename : string) :
  create_keeps R objects_create →
  ruleset_round env objects_create group rulesets st rulename = Ok st' →
  R (l_db st) (l_db st').
Proof using R_refl.
  intros Hcreate. unfold ruleset_round. intros H.
  destruct (rulesets !! (group, rulename)) as [f|]; simpl in H.
  { ok_bind H. destruct a. injection H as <-. apply R_refl. }
  destruct (users_ruleset (l_db st) !! (group, rulename)) as [f|] eqn:Hrow; simpl in H.
  { ok_bind H. destruct a. injection H as <-. apply R_refl. }
  destruct (objects_create (l_db st) _) as [db1|] eqn:Hc; simpl in H; [|done].
  ok_bind H. destruct a. injection H as <-. simpl.
  eapply Hcreate; [|exact Hc]. exact Hrow.
Qed.

Lemma update_group_roles_locals_R (env : Env)
  (objects_create : DB → RuleSet.t → result DB) (db : DB) (group : N) (st : Locals) :
  create_keeps R objects_create →
  update_group_roles_locals env objects_create db group = Ok st → R db (l_db st).
Proof using R_refl R_trans R_perms.
  intros Hcreate. unfold update_group_roles_locals. intros H.
  ok_bind H. rename a into st1. ok_bind H. rename a into db2.
  ok_bind H. rename a into db3.
  assert (R db (l_db st1)) as H1.
  { revert E. apply (for_each_inv (λ s, R db (l_db s))); [|apply R_refl].
    intros s1 x s2 _ Hs1 Hx. eapply R_trans; [exact Hs1 | by eapply ruleset_round_R]. }
  assert (R (l_db st1) db2) as H2.
  { revert E0. apply for_each_R. intros ???. apply add_round_R. }
  assert (R db2 db3) as H3.
  { revert E1. apply for_each_R. intros ???. apply remove_round_R. }
  assert (R db3 (l_db st)) as H4.
  { revert H. apply (for_each_inv (λ s, R db3 (l_db s))); [|apply R_refl].
    intros s1 x s2 _ Hs1 Hx. eapply R_trans; [exact Hs1 | by eapply inherit_pair_R]. }
  eauto.
Qed.

Lemma update_group_roles_body_R (env : Env)
  (objects_create : DB → RuleSet.t → result DB) (db db' : DB) (group : N) :
  create_keeps R objects_create →
  update_group_roles_body env objects_create db group = Ok db' → R db db'.
Proof using R_refl R_trans R_perms.
  intros Hcreate. unfold update_group_roles_body.
  destruct (negb (canAppAccessDatabase env)); [intros [= <-]; apply R_refl|].
  intros H. ok_bind H. injection H as <-. by eapply update_group_roles_locals_R.
Qed.

Lemma Group_save_with_R (update : DB → N → result DB) (env : Env) (db db' : DB)
  (pk : N) (name : string) :
  (∀ db1 g db2, update db1 g = Ok db2 → R db1 db2) →
  Group_save_with update env db pk name = Ok db' → R db db'.
Proof using R_refl R_trans R_owner R_group R_profile.
  intros Hup. unfold Group_save_with. intros H. ok_bind H. ok_bind H.
  eapply R_trans; [apply R_group|].
  eapply R_trans; [by eapply create_owner_R|].
  eapply R_trans; [by eapply Hup|].
  by eapply validate_primary_group_on_save_R.
Qed.

Lemma RuleSet_save_with_new_R (update : DB → N → result DB) (env : Env)
  (db db' : DB) (self : RuleSet.t) :
  (∀ db1 g db2, update db1 g = Ok db2 → R db1 db2) →
  users_ruleset db !! (RuleSet.group self, RuleSet.name self) = None →
  RuleSet_save_with update env db self = Ok db' → R db db'.
Proof using R_refl R_trans R_owner R_group R_profile R_ruleset.
  intros Hup Hnew. unfold RuleSet_save_with.
  destruct (auth_group _ !! _) as [name|]; [|done]. intros H.
  eapply R_trans; [by apply R_ruleset|]. by eapply Group_save_with_R.
Qed.

Lemma update_group_roles_at_R (depth : nat) (env : Env) (db db' : DB) (group : N) :
  update_group_roles_at depth env db group = Ok db' → R db db'.
Proof using All.
  revert db db' group. induction depth as [|d IH]; intros db db' group; [done|].
  simpl. apply update_group_roles_body_R.
  intros db1 r db2 Hnew.
  apply RuleSet_save_with_new_R; [intros ???; apply IH | exact Hnew].
Qed.

Lemma update_group_roles_R (env : Env) (db db' : DB) (group : N) :
  update_group_roles env db group = Ok db' → R db db'.
Proof using All. apply update_group_roles_at_R. Qed.

Lemma Group_save_R (env : Env) (db db' : DB) (pk : N) (name : string) :
  Group_save env db pk name = Ok db' → R db db'.
Proof using All. apply Group_save_with_R. intros ???. apply update_group_roles_R. Qed.

End Preservation.

(** ** [RuleSet.save] *)

Lemma normalize_view (f : Flags) :
  can_add f || can_change f || can_delete f = true →
  can_view (RuleSet.normalize f) = true.
Proof. destruct f as [[] [] [] []]; simpl; done. Qed.

Lemma normalize_change (f : Flags) :
  can_add f || can_delete f = true → can_change (RuleSet.normalize f) = true.
Proof. destruct f as [[] [] [] []]; simpl; done. Qed.

Lemma normalize_add_delete (f : Flags) :
  can_add (RuleSet.normalize f) = can_add f
  ∧ can_delete (RuleSet.normalize f) = can_delete f.
Proof. destruct f as [[] [] [] []]; simpl; done. Qed.

Lemma normalize_idempotent (f : Flags) :
  RuleSet.normalize (RuleSet.normalize f) = RuleSet.normalize f.
Proof. destruct f as [[] [] [] []]; simpl; done. Qed.

(** Saving a group, and reconciling it, keeps every ruleset row there is. *)
Lemma Group_save_keeps_rulesets (update : DB → N → result DB) (env : Env)
  (db db' : DB) (pk : N) (name : string) :
  Group_save env db pk name = Ok db' → rulesets_kept db db'.
Proof.
  apply (Group_save_R rulesets_kept); unfold rulesets_kept; simpl; try done.
  - eauto.
  - intros db0 k f Hnone k' f' Hk'.
    rewrite lookup_insert_ne; [done|]. intros ->. congruence.
Qed.

(** C1: when [save] completes, the row written for the ruleset has
    [can_view] set if any of [can_add], [can_change], [can_delete] was set,
    and [can_change] set if [can_add] or [can_delete] was set; the flags
    [can_add] and [can_delete] are as they were given. *)
Theorem ruleset_save_persists_normalized (env : Env) (db db' : DB) (self : RuleSet.t) :
  RuleSet_save env db self = Ok db' →
  ∃ f, users_ruleset db' !! (RuleSet.group self, RuleSet.name self) = Some f
     ∧ (can_add (RuleSet.flags self) || can_change (RuleSet.flags self)
          || can_delete (RuleSet.flags self) = true → can_view f = true)
     ∧ (can_add (RuleSet.flags self) || can_delete (RuleSet.flags self) = true →
        can_change f = true)
     ∧ can_add f = can_add (RuleSet.flags self)
     ∧ can_delete f = can_delete (RuleSet.flags self).
Proof.
  unfold RuleSet_save, RuleSet_save_with. simpl.
  destruct (auth_group db !! RuleSet.group self) as [name|]; [|done].
  intros Hsave. apply (Group_save_keeps_rulesets (update_group_roles env)) in Hsave.
  exists (RuleSet.normalize (RuleSet.flags self)). split.
  - apply Hsave. simpl. apply lookup_insert_eq.
  - split; [apply normalize_view|]. split; [apply normalize_change|].
    apply normalize_add_delete.
Qed.

Lemma ruleset_save_persists_normalized_witness :
  ∃ db' f,
    RuleSet_save env_all (db_group no_flags no_flags)
      (RuleSet.mk "part" 1 (mkFlags false true false false)) = Ok db'
    ∧ users_ruleset db' !! (1%N, "part") = Some f
    ∧ can_view f = true ∧ can_change f = true.
Proof.
  destruct (is_ok_inv (RuleSet_save env_all (db_group no_flags no_flags)
                         (RuleSet.mk "part" 1 (mkFlags false true false false))))
    as [db' Hsave]; [vm_compute; reflexivity|].
  destruct (ruleset_save_persists_normalized _ _ _ _ Hsave)
    as (f & Hrow & Hview & Hchange & _).
  exists db', f. split; [exact Hsave|]. split; [exact Hrow|].
  split; [apply Hview | apply Hchange]; reflexivity.
Defined.

(** ** The primary group of a profile *)

Lemma elem_of_groups_of (db : DB) (u g : N) :
  g ∈ groups_of db u ↔ (u, g) ∈ user_groups db.
Proof.
  unfold groups_of. rewrite list_elem_of_fmap. split.
  - intros ([u' g'] & -> & Hin). apply list_elem_of_filter in Hin as [Hu Hin].
    simpl in *. subst u'. by apply elem_of_elements in Hin.
  - intros Hin. exists (u, g). split; [done|].
    apply list_elem_of_filter. split; [done | by apply elem_of_elements].
Qed.

Lemma elem_of_user_set (db : DB) (u g : N) :
  u ∈ user_set db g ↔ (u, g) ∈ user_groups db.
Proof.
  unfold user_set. rewrite list_elem_of_fmap. split.
  - intros ([u' g'] & -> & Hin). apply list_elem_of_filter in Hin as [Hu Hin].
    simpl in *. subst g'. by apply elem_of_elements in Hin.
  - intros Hin. exists (u, g). split; [done|].
    apply list_elem_of_filter. split; [done | by apply elem_of_elements].
Qed.

(** [UserProfile.save] never writes a primary group the user is not in. *)
Lemma profile_save_valid (db : DB) (p : UserProfile.t) :
  primary_group_valid db → primary_group_valid (UserProfile.save db p).
Proof.
  intros Hinv u g. unfold UserProfile.save. simpl.
  destruct (decide (UserProfile.user p = u)) as [<-|Hne].
  - rewrite lookup_insert_eq. intros [= Hpg].
    unfold UserProfile.stale_primary_group in Hpg.
    destruct (UserProfile.primary_group p) as [g'|]; [|done].
    case_bool_decide as Hin; simpl in Hpg; [|done].
    injection Hpg as ->. by apply elem_of_groups_of.
  - rewrite lookup_insert_ne by done. apply Hinv.
Qed.

Lemma Group_save_valid (env : Env) (db db' : DB) (pk : N) (name : string) :
  Group_save env db pk name = Ok db' → keeps_primary_group db db'.
Proof.
  apply (Group_save_R keeps_primary_group); unfold keeps_primary_group;
    try done; eauto.
  intros db0 u. apply profile_save_valid.
Qed.

Lemma cascade_valid (db : DB) (pk : N) :
  primary_group_valid db → primary_group_valid (delete_cascade pk db).
Proof.
  intros Hinv u g. unfold delete_cascade. simpl. rewrite lookup_fmap.
  destruct (users_userprofile db !! u) as [pg|] eqn:Hu; simpl; [|done].
  case_bool_decide as Hpg; [done|]. intros [= ->].
  apply elem_of_filter. split; [simpl; congruence | by apply Hinv].
Qed.

Lemma on_delete_valid (db db' : DB) (g : N) :
  validate_primary_group_on_delete db g = Ok db' → keeps_primary_group db db'.
Proof.
  apply (validate_primary_group_on_delete_R keeps_primary_group);
    unfold keeps_primary_group; try done; eauto.
  intros db0 u. apply profile_save_valid.
Qed.

Lemma on_delete_cleared (u : N) (db db' : DB) (g : N) :
  validate_primary_group_on_delete db g = Ok db' → keeps_cleared u db db'.
Proof.
  apply (validate_primary_group_on_delete_R (keeps_cleared u));
    unfold keeps_cleared; try done; eauto.
  intros db0 u' Hnone. unfold UserProfile.save. simpl.
  destruct (decide (u' = u)) as [->|Hne];
    [by rewrite lookup_insert_eq | by rewrite lookup_insert_ne].
Qed.

Lemma on_group_change_valid (db db' : DB) (instance : ModelObj) (action : string) :
  validate_primary_group_on_group_change db instance action = Ok db' →
  keeps_primary_group db db'.
Proof.
  apply (validate_primary_group_on_group_change_R keeps_primary_group);
    unfold keeps_primary_group; try done.
  intros db0 u. apply profile_save_valid.
Qed.

(** The operations the receivers cover.  The save of a profile, the save
    and the deletion of a group, and the addition and removal of groups of
    a user keep the invariant that a primary group, if set, is a group of
    the user; a removal of the user from the primary group, and the deletion
    of the primary group, leave the field null. *)
Theorem primary_group_invariant (env : Env) (db : DB) :
  primary_group_valid db →
  (∀ p, primary_group_valid (UserProfile.save db p))
  ∧ (∀ pk name db', Group_save env db pk name = Ok db' → primary_group_valid db')
  ∧ (∀ pk name db', Group_delete db pk name = Ok db' →
       primary_group_valid db'
       ∧ ∀ u, users_userprofile db !! u = Some (Some pk) →
              users_userprofile db' !! u = Some None)
  ∧ (∀ u groups db', groups_add db u groups = Ok db' → primary_group_valid db')
  ∧ (∀ u groups db', groups_remove db u groups = Ok db' →
       primary_group_valid db'
       ∧ ∀ g, g ∈ groups → users_userprofile db !! u = Some (Some g) →
              users_userprofile db' !! u = Some None).
Proof.
  intros Hinv. split; [intros p; by apply profile_save_valid|].
  split; [intros pk name db' H; by apply (Group_save_valid _ _ _ _ _ H)|].
  split; [|split].
  - intros pk name db' H. unfold Group_delete in H. ok_bind H. rename a into db2.
    unfold delete_owner in E.
    destruct (Owner.get_owner _ _) as [o|]; [|done]. injection E as <-. split.
    + apply (on_delete_valid _ _ _ H). simpl. by apply cascade_valid.
    + intros u Hu. apply (on_delete_cleared u _ _ _ H). simpl.
      rewrite lookup_fmap, Hu. simpl. by rewrite bool_decide_eq_true_2.
  - intros u groups db' H. unfold groups_add in H.
    destruct groups as [|g0 groups0]; [by injection H as <-|].
    cbv iota in H. remember (g0 :: groups0) as groups eqn:Hgroups in *.
    clear Hgroups g0 groups0.
    ok_bind H. simpl in E. injection E as <-.
    apply (on_group_change_valid _ _ _ _ H).
    intros u' g Hu'. simpl. apply elem_of_union_l. by apply Hinv.
  - intros u groups db' H. unfold groups_remove in H.
    destruct groups as [|g0 groups0].
    { injection H as <-. split; [done|]. by intros g Hg%elem_of_nil. }
    cbv iota in H. remember (g0 :: groups0) as groups eqn:Hgroups in *.
    clear Hgroups g0 groups0.
    ok_bind H. simpl in E. injection E as <-.
    unfold validate_primary_group_on_group_change in H. simpl in H.
    ok_bind H. rename a into profile.
    unfold UserProfile.profile_of in E. simpl in E.
    destruct (users_userprofile db !! u) as [pg|] eqn:Hu; [|done].
    injection E as <-. simpl in H.
    set (db1 := set_user_groups _ db) in *.
    assert (∀ u' g', u' ≠ u → (u', g') ∈ user_groups db → (u', g') ∈ user_groups db1)
      as Hother.
    { intros u' g' Hne Hin. simpl. apply elem_of_difference. split; [done|].
      rewrite elem_of_list_to_set, list_elem_of_fmap. intros (g0 & [= ? ?] & _). done. }
    destruct (UserProfile.stale_primary_group db1 u pg) eqn:Hstale;
      injection H as <-.
    + split.
      * intros u' g'. unfold UserProfile.save. simpl.
        destruct (decide (u = u')) as [<-|Hne];
          [by rewrite lookup_insert_eq|].
        rewrite lookup_insert_ne by done. intros Hu'. apply (Hother u' g'); [done|].
        by apply Hinv.
      * intros g Hg Hpg. unfold UserProfile.save. simpl. apply lookup_insert_eq.
    + split.
      * intros u' g'. simpl. destruct (decide (u = u')) as [<-|Hne].
        -- rewrite Hu. intros [= ->]. unfold UserProfile.stale_primary_group in Hstale.
           case_bool_decide as Hin; [|done]. by apply elem_of_groups_of in Hin.
        -- intros Hu'. apply Hother; [done | by apply Hinv].
      * intros g Hg [= ->]. exfalso.
        unfold UserProfile.stale_primary_group in Hstale.
        case_bool_decide as Hin; [|done]. apply elem_of_groups_of in Hin.
        simpl in Hin. apply elem_of_difference in Hin as [_ Hnot]. apply Hnot.
        rewrite elem_of_list_to_set, list_elem_of_fmap. by exists g.
Qed.

Lemma primary_group_invariant_witness :
  ∃ db', groups_remove db_member 1 [1%N] = Ok db'
         ∧ primary_group_valid db'
         ∧ users_userprofile db' !! 1%N = Some None.
Proof.
  assert (primary_group_valid db_member) as Hinv.
  { intros u g. unfold db_member. simpl. intros H.
    apply lookup_singleton_Some in H as [<- [= <-]]. set_solver. }
  destruct (primary_group_invariant env_all db_member Hinv) as (_ & _ & _ & _ & Hrem).
  destruct (is_ok_inv (groups_remove db_member 1 [1%N])) as [db' H];
    [vm_compute; reflexivity|].
  destruct (Hrem _ _ _ H) as [Hvalid Hclear].
  exists db'. split; [exact H|]. split; [exact Hvalid|].
  apply (Hclear 1%N); [set_solver | reflexivity].
Defined.

(** C9: the code at the failing input.  User 1 is a member of group 1, the
    user's primary group, and of no other: the invariant holds.  After
    [user.groups.clear()] the user is in no group and the profile still
    names group 1, because the receiver acts on [post_add] and
    [post_remove] only: the invariant is broken.  [user.groups.remove] of
    that group, from the same database, clears the field. *)
Theorem clear_breaks_primary_group :
  primary_group_valid db_member
  ∧ (∃ db', groups_clear db_member 1 = Ok db'
            ∧ groups_of db' 1 = []
            ∧ users_userprofile db' !! 1%N = Some (Some 1%N)
            ∧ ¬ primary_group_valid db')
  ∧ (∃ db', groups_remove db_member 1 [1%N] = Ok db'
            ∧ users_userprofile db' !! 1%N = Some None
            ∧ primary_group_valid db').
Proof.
  assert (primary_group_valid db_member) as Hinv.
  { intros u g. unfold db_member. simpl. intros H.
    apply lookup_singleton_Some in H as [<- [= <-]]. set_solver. }
  split; [exact Hinv|]. split.
  - exists (set_user_groups (filter (λ x, x.1 ≠ 1%N)) db_member). split.
    { unfold groups_clear, validate_primary_group_on_group_change.
      by rewrite !bool_decide_eq_false_2 by compute_done. }
    set (db' := set_user_groups (filter (λ x, x.1 ≠ 1%N)) db_member).
    assert (∀ g, (1%N, g) ∉ user_groups db') as Hnone.
    { intros g Hin. simpl in Hin. apply elem_of_filter in Hin as [Hne _].
      by apply Hne. }
    split; [|split; [reflexivity|]].
    + destruct (groups_of db' 1) as [|g l] eqn:Hl; [done|].
      destruct (Hnone g). apply elem_of_groups_of. rewrite Hl. by left.
    + intros Hvalid. destruct (Hnone 1%N). by apply Hvalid.
  - destruct (primary_group_invariant env_all db_member Hinv) as (_ & _ & _ & _ & Hrem).
    destruct (is_ok_inv (groups_remove db_member 1 [1%N])) as [db' H];
      [vm_compute; reflexivity|].
    destruct (Hrem _ _ _ H) as [Hvalid Hclear].
    exists db'. split; [exact H|]. split; [|exact Hvalid].
    apply (Hclear 1%N); [set_solver | reflexivity].
Qed.

(** ** The role check and its cache *)

Lemma elem_of_rule_sets (db : DB) (g : N) (r : RuleSet.t) :
  r ∈ rule_sets db g
  ↔ RuleSet.group r = g
    ∧ users_ruleset db !! (g, RuleSet.name r) = Some (RuleSet.flags r).
Proof.
  unfold rule_sets. rewrite list_elem_of_fmap. split.
  - intros ([[g' n] f] & -> & Hin). apply list_elem_of_filter in Hin as [Hg Hin].
    simpl in *. subst g'. by apply elem_of_map_to_list in Hin.
  - intros [<- Hrow]. exists ((RuleSet.group r, RuleSet.name r), RuleSet.flags r).
    split; [by destruct r|]. apply list_elem_of_filter. split; [done|].
    by apply elem_of_map_to_list.
Qed.

Lemma scan_rules_true (role permission : string) (rules : list RuleSet.t) (result : bool) :
  scan_rules role permission rules result = true
  ↔ result = true
    ∨ ∃ r, r ∈ rules ∧ RuleSet.name r = role
           ∧ rule_grants permission (RuleSet.flags r) = true.
Proof.
  induction rules as [|r rules IH]; simpl.
  - split; [by left|]. intros [?|(r & Hin & _)]; [done | by apply elem_of_nil in Hin].
  - destruct (bool_decide (RuleSet.name r = role)
              && rule_grants permission (RuleSet.flags r)) eqn:Hr.
    + split; [|done]. intros _. right. exists r.
      apply andb_true_iff in Hr as [Hn Hg]. apply bool_decide_eq_true in Hn.
      split; [by left | done].
    + rewrite IH. split; (intros [?|(r' & Hin & Hn & Hg)]; [by left|]); right.
      * exists r'. split; [by right | done].
      * apply elem_of_cons in Hin as [->|Hin]; [|by exists r'].
        rewrite Hg, andb_true_r in Hr. by apply bool_decide_eq_false in Hr.
Qed.

Lemma scan_groups_true (db : DB) (role permission : string) (groups : list N) :
  scan_groups db role permission groups = true
  ↔ ∃ g f, g ∈ groups ∧ users_ruleset db !! (g, role) = Some f
           ∧ rule_grants permission f = true.
Proof.
  unfold scan_groups.
  assert (∀ acc,
    foldl (λ result g, scan_rules role permission (rule_sets db g) result) acc groups
      = true
    ↔ acc = true ∨ ∃ g f, g ∈ groups ∧ users_ruleset db !! (g, role) = Some f
                          ∧ rule_grants permission f = true) as Hgen.
  { induction groups as [|g groups IH]; intros acc; simpl.
    - split; [by left|]. intros [?|(g & f & Hin & _)]; [done | by apply elem_of_nil in Hin].
    - rewrite IH, scan_rules_true. split.
      + intros [[?|(r & Hin & Hn & Hg)]|(g' & f & Hin & Hrest)]; [by left| |].
        * apply elem_of_rule_sets in Hin as [_ Hrow]. right. exists g, (RuleSet.flags r).
          rewrite <- Hn. split; [by left | done].
        * right. exists g', f. split; [by right | done].
      + intros [?|(g' & f & Hin & Hrow & Hg)]; [by left; left|].
        apply elem_of_cons in Hin as [->|Hin].
        * left. right. exists (RuleSet.mk role g f). split; [|done].
          by apply elem_of_rule_sets.
        * right. by exists g', f. }
  rewrite Hgen. split; [intros [?|?]; done | by right].
Qed.

Lemma scan_groups_role_grants (db : DB) (u : User.t) (role permission : string) :
  scan_groups db role permission (groups_of db (User.pk u)) = true
  ↔ role_grants db u role permission.
Proof.
  rewrite scan_groups_true. unfold role_grants.
  split; intros (g & f & Hin & Hrest); exists g, f; (split; [|done]);
    by apply elem_of_groups_of.
Qed.

(** Cache keys of distinct role and permission pairs are distinct. *)
Lemma key_suffixes_NoDup : NoDup (key_suffix <$> role_permission_pairs).
Proof. compute_done. Qed.

Lemma fmap_NoDup_inj {A B : Type} (f : A → B) (l : list A) (x y : A) :
  NoDup (f <$> l) → x ∈ l → y ∈ l → f x = f y → x = y.
Proof.
  induction l as [|a l IH]; simpl; intros Hnd Hx Hy Hf.
  - by apply elem_of_nil in Hx.
  - apply NoDup_cons in Hnd as [Ha Hnd].
    apply elem_of_cons in Hx as [->|Hx]; apply elem_of_cons in Hy as [->|Hy];
      try done.
    + exfalso. apply Ha. rewrite Hf. by apply list_elem_of_fmap_2.
    + exfalso. apply Ha. rewrite <- Hf. by apply list_elem_of_fmap_2.
    + by apply IH.
Qed.

Lemma elem_of_role_permission_pairs (role permission : string) :
  role ∈ RuleSet.RULESET_NAMES → permission ∈ RuleSet.RULESET_PERMISSIONS →
  (role, permission) ∈ role_permission_pairs.
Proof.
  intros Hr Hp. unfold role_permission_pairs. apply list_elem_of_bind.
  exists role. split; [|done]. by apply list_elem_of_fmap_2.
Qed.

Lemma cache_key_inj (u : User.t) (role permission role' permission' : string) :
  role ∈ RuleSet.RULESET_NAMES → permission ∈ RuleSet.RULESET_PERMISSIONS →
  role' ∈ RuleSet.RULESET_NAMES → permission' ∈ RuleSet.RULESET_PERMISSIONS →
  cache_key u role permission = cache_key u role' permission' →
  role = role' ∧ permission = permission'.
Proof.
  intros Hr Hp Hr' Hp' Hkey. unfold cache_key in Hkey.
  do 3 apply String.app_inj in Hkey.
  assert ((role, permission) = (role', permission')) as [= -> ->]; [|done].
  apply (fmap_NoDup_inj key_suffix role_permission_pairs);
    [apply key_suffixes_NoDup | by apply elem_of_role_permission_pairs.. | exact Hkey].
Qed.

(** With a fresh cache the role check answers what the rulesets say, and
    leaves the cache fresh. *)
Lemma check_user_role_fresh (db : DB) (cache : Cache) (u : User.t)
  (role permission : string) :
  User.is_superuser u = false →
  role ∈ RuleSet.RULESET_NAMES → permission ∈ RuleSet.RULESET_PERMISSIONS →
  cache_fresh db u cache →
  ∃ b cache', check_user_role db cache (Some u) role permission = (b, cache')
    ∧ (b = true ↔ role_grants db u role permission)
    ∧ cache_fresh db u cache'.
Proof.
  intros Hsu Hr Hp Hfresh. unfold check_user_role. rewrite Hsu.
  destruct (cache !! cache_key u role permission) as [v|] eqn:Hhit.
  - exists v, cache. split; [done|]. split; [by eapply Hfresh | done].
  - eexists _, _. split; [done|]. split; [apply scan_groups_role_grants|].
    intros role' permission' v Hr' Hp' Hlook.
    apply lookup_insert_Some in Hlook as [[Hkey <-]|[_ Hlook]].
    + apply cache_key_inj in Hkey as [<- <-]; [|done..].
      apply scan_groups_role_grants.
    + by eapply Hfresh.
Qed.

Lemma models_of_role_known (env : Env) (role : string) :
  role ∈ RuleSet.RULESET_NAMES → is_Some (RuleSet.models_of_role env role).
Proof.
  unfold RuleSet.RULESET_NAMES. rewrite !elem_of_cons, elem_of_nil.
  intros H. repeat (destruct H as [->|H]; [by eexists|]). done.
Qed.

(** The loop over the roles, for a fresh cache. *)
Lemma check_roles_fresh (env : Env) (db : DB) (u : User.t) (table permission : string)
  (roles : list string) (cache : Cache) :
  User.is_superuser u = false →
  permission ∈ RuleSet.RULESET_PERMISSIONS →
  roles ⊆ RuleSet.RULESET_NAMES →
  cache_fresh db u cache →
  ∃ b cache', check_roles env db u table permission roles cache = Ok (b, cache')
    ∧ cache_fresh db u cache'
    ∧ (b = true ↔ ∃ role models, role ∈ roles
                    ∧ RuleSet.models_of_role env role = Some models
                    ∧ table ∈ models ∧ role_grants db u role permission).
Proof.
  intros Hsu Hp. revert cache.
  induction roles as [|role roles IH]; intros cache Hsub Hfresh; cbn [check_roles].
  - exists false, cache. split; [done|]. split; [done|]. split; [done|].
    intros (r & m & Hin & _). by apply elem_of_nil in Hin.
  - assert (role ∈ RuleSet.RULESET_NAMES) as Hrole by (apply Hsub; by left).
    assert (roles ⊆ RuleSet.RULESET_NAMES) as Hsub' by (intros r ?; apply Hsub; by right).
    destruct (models_of_role_known env role Hrole) as [models Hm]. rewrite Hm.
    case_bool_decide as Htable.
    + destruct (check_user_role_fresh db cache u role permission Hsu Hrole Hp Hfresh)
        as (b & cache1 & -> & Hb & Hfresh1).
      destruct b.
      * exists true, cache1. split; [done|]. split; [done|]. split; [|done].
        intros _. exists role, models. split; [by left|]. split; [done|].
        split; [done | by apply Hb].
      * destruct (IH cache1 Hsub' Hfresh1) as (b' & cache' & -> & Hfresh' & Hb').
        exists b', cache'. split; [done|]. split; [done|]. rewrite Hb'.
        split; intros (r & m & Hin & Hrm & Ht & Hg).
        -- exists r, m. split; [by right | done].
        -- apply elem_of_cons in Hin as [->|Hin]; [|by exists r, m].
           apply Hb in Hg. done.
    + destruct (IH cache Hsub' Hfresh) as (b' & cache' & -> & Hfresh' & Hb').
      exists b', cache'. split; [done|]. split; [done|]. rewrite Hb'.
      split; intros (r & m & Hin & Hrm & Ht & Hg).
      * exists r, m. split; [by right | done].
      * apply elem_of_cons in Hin as [->|Hin]; [|by exists r, m].
        rewrite Hm in Hrm. by injection Hrm as <-.
Qed.

(** The loop over the inheritance pairs, for a fresh cache. *)
Lemma check_inherit_fresh (db : DB) (u : User.t) (table : string)
  (pairs : list (string * string)) (cache : Cache) :
  User.is_superuser u = false →
  (∀ pair, pair ∈ pairs → pair.1 ∈ RuleSet.RULESET_NAMES) →
  cache_fresh db u cache →
  ∃ b cache', check_inherit db u table pairs cache = (b, cache')
    ∧ cache_fresh db u cache'
    ∧ (b = true ↔ ∃ parent child, (parent, child) ∈ pairs
                    ∧ RuleSet.parent_child_string parent child = table
                    ∧ role_grants db u parent "change").
Proof.
  intros Hsu. revert cache.
  induction pairs as [|[parent child] pairs IH]; intros cache Hnames Hfresh;
    cbn [check_inherit].
  - exists false, cache. split; [done|]. split; [done|]. split; [done|].
    intros (p & c & Hin & _). by apply elem_of_nil in Hin.
  - assert (parent ∈ RuleSet.RULESET_NAMES) as Hparent
      by (apply (Hnames (parent, child)); by left).
    assert (∀ pair, pair ∈ pairs → pair.1 ∈ RuleSet.RULESET_NAMES) as Hnames'
      by (intros pair ?; apply Hnames; by right).
    assert ("change" ∈ RuleSet.RULESET_PERMISSIONS) as Hchange
      by (unfold RuleSet.RULESET_PERMISSIONS; set_solver).
    case_bool_decide as Htable.
    + destruct (check_user_role_fresh db cache u parent "change" Hsu Hparent Hchange Hfresh)
        as (b & cache1 & -> & Hb & Hfresh1).
      destruct b.
      * exists true, cache1. split; [done|]. split; [done|]. split; [|done].
        intros _. exists parent, child. split; [by left|]. split; [done | by apply Hb].
      * destruct (IH cache1 Hnames' Hfresh1) as (b' & cache' & -> & Hfresh' & Hb').
        exists b', cache'. split; [done|]. split; [done|]. rewrite Hb'.
        split; intros (p & c & Hin & Ht & Hg).
        -- exists p, c. split; [by right | done].
        -- apply elem_of_cons in Hin as [[= -> ->]|Hin]; [|by exists p, c].
           apply Hb in Hg. done.
    + destruct (IH cache Hnames' Hfresh) as (b' & cache' & -> & Hfresh' & Hb').
      exists b', cache'. split; [done|]. split; [done|]. rewrite Hb'.
      split; intros (p & c & Hin & Ht & Hg).
      * exists p, c. split; [by right | done].
      * apply elem_of_cons in Hin as [[= -> ->]|Hin]; [|by exists p, c]. done.
Qed.

(** The table check of a user who is not a superuser, on a table that needs
    permissions, for a fresh cache: it returns, and it allows the action
    exactly when a governing ruleset or an inheritance pair grants it. *)
Lemma check_table_permission_fresh (env : Env) (db : DB) (cache : Cache) (u : User.t)
  (table permission : string) :
  User.is_superuser u = false →
  table ∉ RuleSet.get_ruleset_ignore →
  permission ∈ RuleSet.RULESET_PERMISSIONS →
  cache_fresh db u cache →
  ∃ b cache', check_table_permission env db cache (Some u) table permission
              = Ok (b, cache')
    ∧ cache_fresh db u cache'
    ∧ (b = true ↔ table_granted env db u table permission
                  ∨ inherit_granted db u table).
Proof.
  intros Hsu Hign Hp Hfresh. unfold check_table_permission. rewrite Hsu.
  rewrite bool_decide_eq_false_2 by done.
  destruct (check_roles_fresh env db u table permission RuleSet.RULESET_NAMES cache
              Hsu Hp (reflexivity _) Hfresh) as (b & cache1 & -> & Hfresh1 & Hb).
  destruct b.
  - exists true, cache1. split; [done|]. split; [done|]. split; [|done].
    intros _. left. by apply Hb.
  - destruct (check_inherit_fresh db u table RuleSet.RULESET_CHANGE_INHERIT cache1 Hsu)
      as (b' & cache' & -> & Hfresh' & Hb'); [|done|].
    { unfold RuleSet.RULESET_CHANGE_INHERIT, RuleSet.RULESET_NAMES. set_solver. }
    exists b', cache'. split; [done|]. split; [done|]. rewrite Hb'.
    unfold table_granted, inherit_granted. split; [by right|].
    intros [Hgr|?]; [|done]. apply Hb in Hgr. done.
Qed.

Lemma cache_fresh_empty (db : DB) (u : User.t) : cache_fresh db u ∅.
Proof. intros role permission v _ _ H. by rewrite lookup_empty in H. Qed.

(** ** Union of grants across the rulesets of a table *)

(** The scenario of the stale cache: the first check denies and leaves
    [cache_before]; the save of the ruleset returns [db_after_grant]. *)
Lemma stale_cache_scenario :
  check_table_permission env_all (db_group no_flags no_flags) ∅
    (Some user1) "part_part" "view" = Ok (false, cache_before)
  ∧ RuleSet_save env_all (db_group no_flags no_flags)
      (RuleSet.mk "part" 1 (mkFlags true false false false)) = Ok db_after_grant
  ∧ answer (check_table_permission env_all db_after_grant cache_before
              (Some user1) "part_part" "view") = Ok false.
Proof.
  split; [|split].
  - unfold cache_before. apply answer_value. vm_compute. reflexivity.
  - unfold db_after_grant. apply ok_value. vm_compute. reflexivity.
  - vm_compute. reflexivity.
Qed.

(** C6, as stated, fails with a stale cache entry: user 1 is checked for
    [view] on [part_part] before any ruleset grants it, the denial is cached,
    the [part] ruleset of the group is then saved with [can_view], and the
    next check in the same session still denies. *)
Lemma union_claim_stale_cache :
  ¬ union_claim env_all db_after_grant cache_before user1 "part_part" "view".
Proof.
  intros H. destruct H as [cache' Hcheck].
  - reflexivity.
  - compute_done.
  - exists "part". eexists. split; [compute_done|]. split; [reflexivity|].
    split; [compute_done|].
    exists 1%N, (mkFlags true false false false).
    split; [compute_done|]. split; [vm_compute; reflexivity | reflexivity].
  - exact (answer_false _ _ (proj2 (proj2 stale_cache_scenario)) Hcheck).
Qed.

(** C6 (amended): for a user who is not a superuser, a table that is not
    exempt and one of the four actions, when every result the session cache
    holds for the user is up to date, the table check returns, and it
    returns true exactly when some ruleset governing the table grants the
    action to a group of the user, or the table is the child of an
    inheritance pair whose parent ruleset grants [change]. *)
Theorem table_permission_is_union (env : Env) (db : DB) (cache : Cache) (u : User.t)
  (table permission : string) :
  User.is_superuser u = false →
  table ∉ RuleSet.get_ruleset_ignore →
  permission ∈ RuleSet.RULESET_PERMISSIONS →
  cache_fresh db u cache →
  ∃ b cache', check_table_permission env db cache (Some u) table permission
              = Ok (b, cache')
    ∧ (table_granted env db u table permission → b = true)
    ∧ (b = true ↔ table_granted env db u table permission
                  ∨ inherit_granted db u table).
Proof.
  intros Hsu Hign Hp Hfresh.
  destruct (check_table_permission_fresh env db cache u table permission
              Hsu Hign Hp Hfresh) as (b & cache' & Hrun & _ & Hb).
  exists b, cache'. split; [exact Hrun|]. split; [|exact Hb].
  intros Hgr. apply Hb. by left.
Qed.

Lemma table_permission_is_union_witness :
  ∃ cache', check_table_permission env_all (db_group view_change no_flags) ∅
              (Some user1) "part_part" "view" = Ok (true, cache').
Proof.
  destruct (table_permission_is_union env_all (db_group view_change no_flags) ∅
              user1 "part_part" "view") as (b & cache' & Hrun & Hgr & _).
  - reflexivity.
  - compute_done.
  - compute_done.
  - apply cache_fresh_empty.
  - exists cache'. rewrite Hrun. rewrite Hgr; [reflexivity|].
    exists "build". eexists. split; [compute_done|]. split; [reflexivity|].
    split; [compute_done|].
    exists 1%N, view_change.
    split; [compute_done|]. split; [vm_compute; reflexivity | reflexivity].
Defined.

(** ** Inheritance from the parent ruleset *)

Lemma desired_or_granted_false (r : result Locals) (group : N) (perm : string)
  (st : Locals) :
  desired_or_granted r group perm = false → r = Ok st →
  (perm ∉ permissions_to_add (l_pile st))
  ∧ (perm ∉ current_permission_strings (l_db st) group).
Proof.
  intros H ->. simpl in H. apply orb_false_iff in H as [H1 H2].
  by apply bool_decide_eq_false in H1, H2.
Qed.

(** C3: the code at the failing input.  The [part] ruleset of the user's
    group grants [view] and [change], no other ruleset grants anything, and
    the session cache is empty.  The pass of [update_group_roles] ends with
    [delete] on the child table [part_partparameter] neither desired nor
    granted, against the comment of its last loop, so the claim does not
    hold. *)
Lemma inheritance_claim_delete_not_forced :
  ¬ inheritance_claim env_all (db_group no_flags view_change) ∅ user1 1.
Proof.
  intros H.
  destruct (H "part" "partparameter" "delete" view_change) as [Hrec _].
  - compute_done.
  - compute_done.
  - reflexivity.
  - compute_done.
  - vm_compute. reflexivity.
  - reflexivity.
  - destruct (is_ok_inv (reconcile_locals env_all (db_group no_flags view_change) 1))
      as [st Hst]; [vm_compute; reflexivity|].
    specialize (Hrec st Hst).
    assert (desired_or_granted
              (reconcile_locals env_all (db_group no_flags view_change) 1) 1
              (child_perm "part" "partparameter" "delete") = false) as Hno
      by (vm_compute; reflexivity).
    destruct (desired_or_granted_false _ _ _ st Hno Hst) as [Hno1 Hno2].
    destruct Hrec as [Hr|Hr]; [exact (Hno1 Hr) | exact (Hno2 Hr)].
Qed.

(** The table check does what the reconciliation misses: for a pair of
    the inheritance table and a user who is not a superuser and has a group
    whose parent ruleset grants [change], when every result the session
    cache holds for the user is up to date, the table check on the child
    table returns true for each of the four actions, whatever the rulesets
    grant on the child table itself. *)
Theorem child_table_allowed (env : Env) (db : DB) (cache : Cache) (u : User.t)
  (group : N) (parent child action : string) (f : Flags) :
  (parent, child) ∈ RuleSet.RULESET_CHANGE_INHERIT →
  action ∈ RuleSet.RULESET_PERMISSIONS →
  User.is_superuser u = false →
  (User.pk u, group) ∈ user_groups db →
  users_ruleset db !! (group, parent) = Some f →
  can_change f = true →
  cache_fresh db u cache →
  ∃ cache', check_table_permission env db cache (Some u)
              (RuleSet.parent_child_string parent child) action = Ok (true, cache').
Proof.
  intros Hpair Hact Hsu Hmember Hrow Hchange Hfresh.
  assert (RuleSet.parent_child_string parent child ∉ RuleSet.get_ruleset_ignore)
    as Hign.
  { unfold RuleSet.RULESET_CHANGE_INHERIT in Hpair.
    rewrite !elem_of_cons, elem_of_nil in Hpair.
    destruct Hpair as [[= -> ->]|[[= -> ->]|[]]]; compute_done. }
  destruct (check_table_permission_fresh env db cache u _ action Hsu Hign Hact Hfresh)
    as (b & cache' & Hrun & _ & Hb).
  exists cache'. rewrite Hrun. f_equal. f_equal. apply Hb. right.
  exists parent, child. split; [done|]. split; [done|].
  exists group, f. split; [done|]. split; [done|].
  destruct f as [v a c d]. simpl in Hchange. subst c. by destruct v, a, d.
Qed.

Lemma child_table_allowed_witness :
  ∃ cache', check_table_permission env_all (db_group no_flags view_change) ∅
              (Some user1) "part_partparameter" "delete" = Ok (true, cache').
Proof.
  apply (child_table_allowed env_all (db_group no_flags view_change) ∅ user1 1
           "part" "partparameter" "delete" view_change).
  - compute_done.
  - compute_done.
  - reflexivity.
  - compute_done.
  - vm_compute. reflexivity.
  - reflexivity.
  - apply cache_fresh_empty.
Defined.

(** ** Calling [update_group_roles] twice *)

Lemma second_call_adds_inv (r : result (DB * DB)) (group : N) (perm : string) :
  second_call_adds r group perm = true →
  ∃ db1 db2, r = Ok (db1, db2)
    ∧ (perm ∉ current_permission_strings db1 group)
    ∧ perm ∈ current_permission_strings db2 group.
Proof.
  destruct r as [[db1 db2]|e]; simpl; [|done].
  intros H. apply andb_true_iff in H as [H1 H2].
  apply negb_true_iff, bool_decide_eq_false in H1. apply bool_decide_eq_true in H2.
  by exists db1, db2.
Qed.

(** C4: a group without permissions whose [build] ruleset grants [view] and
    [change] while its [part] ruleset grants nothing.  The first call grants
    the permissions of the [build] tables; the second call, with no write in
    between, finds [part.view_part] among the group's permissions and adds
    [part.view_partparameter]: it is not a no-op. *)
Theorem second_reconcile_adds_child_permission :
  ∃ db1 db2,
    reconcile_twice env_all (db_group view_change no_flags) 1 = Ok (db1, db2)
    ∧ ("part.view_partparameter" ∉ current_permission_strings db1 1)
    ∧ "part.view_partparameter" ∈ current_permission_strings db2 1.
Proof. apply second_call_adds_inv. vm_compute. reflexivity. Qed.

(** ** The nesting of [update_group_roles] stays within the limit *)

Lemma within_limit_bind {A B : Type} (k : A → result B) (m : result A) :
  within_limit m → (∀ a, m = Ok a → within_limit (k a)) → within_limit (mbind k m).
Proof.
  destruct m as [a|e]; intros Hm Hk; [by apply (Hk a)|].
  intros [= ->]. by apply Hm.
Qed.

Lemma for_each_within_limit {A S : Type} (P : S → Prop) (body : S → A → result S)
  (xs : list A) (s : S) :
  (∀ s1 x, x ∈ xs → P s1 →
           within_limit (body s1 x) ∧ ∀ s2, body s1 x = Ok s2 → P s2) →
  P s → within_limit (for_each body xs s).
Proof.
  revert s. induction xs as [|x xs IH]; intros s Hbody Hs; [done|].
  cbn [for_each]. destruct (Hbody s x) as [Hlim Hnext]; [by left | done |].
  apply within_limit_bind; [done|]. intros s1 Hs1. apply IH; [|by apply Hnext].
  intros s2 y Hy. apply Hbody. by right.
Qed.

Lemma add_model_within_limit (model_var : option string) (pile : Pile)
  (name action : string) (allowed : bool) :
  within_limit (add_model model_var pile name action allowed).
Proof.
  unfold add_model, RuleSet.get_model_permission_string, RuleSet.split_model, within_limit.
  repeat case_match; simpl; try done; repeat case_match; done.
Qed.

Lemma get_permission_object_within_limit (env : Env) (perm : string) :
  within_limit (get_permission_object env perm).
Proof.
  unfold get_permission_object, RuleSet.split_permission, within_limit.
  repeat case_match; simpl; try done; repeat case_match; done.
Qed.

Lemma add_model_actions_within_limit (ruleset : RuleSet.t) (st : Pile * option string)
  (model : string) :
  within_limit (add_model_actions ruleset st model).
Proof.
  unfold add_model_actions.
  repeat (apply within_limit_bind; [apply add_model_within_limit | intros ? _]).
  done.
Qed.

Lemma add_round_within_limit (env : Env) (group : N) (gp : gset string) (db : DB)
  (perm : string) :
  within_limit (add_round env group gp db perm).
Proof.
  unfold add_round. case_bool_decide; [done|].
  apply within_limit_bind; [apply get_permission_object_within_limit|].
  by intros [p|] _.
Qed.

Lemma remove_round_within_limit (env : Env) (group : N) (gp : gset string) (db : DB)
  (perm : string) :
  within_limit (remove_round env group gp db perm).
Proof.
  unfold remove_round. case_bool_decide; [|done].
  apply within_limit_bind; [apply get_permission_object_within_limit|].
  by intros [p|] _.
Qed.

Lemma inherit_pair_within_limit (env : Env) (group : N) (gp : gset string)
  (st : Locals) (pair : string * string) :
  within_limit (inherit_pair env group gp st pair).
Proof.
  unfold inherit_pair. apply (for_each_within_limit (λ _, True)); [|done].
  intros s1 action _ _. split; [|done]. unfold inherit_round.
  case_bool_decide; [|done]. case_bool_decide; [done|].
  destruct (l_ruleset s1); [|done].
  apply within_limit_bind; [apply add_model_within_limit | intros ? _].
  apply within_limit_bind; [apply get_permission_object_within_limit|].
  by intros [p|] _.
Qed.

Lemma validate_primary_group_on_save_within_limit (db : DB) (g : N) :
  within_limit (validate_primary_group_on_save db g).
Proof.
  apply (for_each_within_limit (λ _, True)); [|done].
  intros db1 u _ _. split; [|done]. unfold UserProfile.profile_of.
  destruct (users_userprofile db1 !! u); simpl; [|done]. by case_match.
Qed.

Lemma create_owner_within_limit (env : Env) (db : DB) (obj : ModelObj) :
  within_limit (create_owner env db obj).
Proof.
  unfold create_owner, Owner.create, Owner.objects_create, within_limit.
  repeat case_match; simpl; try done; repeat case_match; done.
Qed.

Lemma filter_length_le {A : Type} (P Q : A → Prop)
  `{!∀ x, Decision (P x)} `{!∀ x, Decision (Q x)} (l : list A) :
  (∀ x, P x → Q x) → (length (filter P l) ≤ length (filter Q l))%nat.
Proof.
  intros HPQ. induction l as [|a l IH]; [done|].
  rewrite !filter_cons. destruct (decide (P a)) as [HP|HP].
  - rewrite decide_True by auto. simpl. lia.
  - destruct (decide (Q a)); simpl; lia.
Qed.

Lemma filter_length_lt {A : Type} (P Q : A → Prop)
  `{!∀ x, Decision (P x)} `{!∀ x, Decision (Q x)} (l : list A) (a : A) :
  (∀ x, P x → Q x) → a ∈ l → Q a → ¬ P a →
  length (filter P l) < length (filter Q l).
Proof.
  intros HPQ Hin HQ HP. induction l as [|b l IH]; [by apply elem_of_nil in Hin|].
  rewrite !filter_cons. apply elem_of_cons in Hin as [<-|Hin].
  - rewrite decide_False, decide_True by done. simpl.
    pose proof (filter_length_le P Q l HPQ). lia.
  - specialize (IH Hin). destruct (decide (P b)) as [HPb|HPb].
    + rewrite decide_True by auto. simpl. lia.
    + destruct (decide (Q b)); simpl; lia.
Qed.

Lemma missing_rulesets_kept (db db' : DB) (group : N) :
  rulesets_kept db db' → (missing_rulesets db' group ≤ missing_rulesets db group)%nat.
Proof.
  intros Hkept. apply filter_length_le. intros n Hnone.
  destruct (users_ruleset db !! (group, n)) as [f|] eqn:Hrow; [|done].
  apply Hkept in Hrow. congruence.
Qed.

Lemma missing_rulesets_insert (db : DB) (group : N) (rulename : string) (f : Flags) :
  rulename ∈ RuleSet.RULESET_NAMES →
  users_ruleset db !! (group, rulename) = None →
  missing_rulesets (set_users_ruleset <[(group, rulename) := f]> db) group
  < missing_rulesets db group.
Proof.
  intros Hin Hnone. apply (filter_length_lt _ _ _ rulename); [|done|done|].
  - intros n. simpl. intros Hn. apply lookup_insert_None in Hn as [Hn _]. done.
  - simpl. by rewrite lookup_insert_eq.
Qed.

Lemma rulesets_kept_refl (db : DB) : rulesets_kept db db.
Proof. by intros k f. Qed.

Lemma rulesets_kept_trans (db1 db2 db3 : DB) :
  rulesets_kept db1 db2 → rulesets_kept db2 db3 → rulesets_kept db1 db3.
Proof. intros H1 H2 k f Hk. by apply H2, H1. Qed.

Lemma rulesets_kept_insert (db : DB) (k : N * string) (f : Flags) :
  users_ruleset db !! k = None → rulesets_kept db (set_users_ruleset <[k := f]> db).
Proof.
  intros Hnone k' f' Hk'. simpl. rewrite lookup_insert_ne; [done|].
  intros ->. congruence.
Qed.

(** The writes of the module keep the ruleset rows. *)
Ltac kept :=
  first [ apply rulesets_kept_refl | apply rulesets_kept_trans
        | apply rulesets_kept_insert | by intros; intros ? ? ].

Lemma update_group_roles_at_keeps_rulesets (depth : nat) (env : Env) (db db' : DB)
  (group : N) :
  update_group_roles_at depth env db group = Ok db' → rulesets_kept db db'.
Proof. apply (update_group_roles_at_R rulesets_kept); kept. Qed.

(** A call of [update_group_roles] nested [depth] deep never reaches the
    limit when fewer than [depth] rulesets of the group are missing. *)
Lemma update_group_roles_at_within_limit (depth : nat) (env : Env) (db : DB) (group : N) :
  missing_rulesets db group < depth →
  within_limit (update_group_roles_at depth env db group).
Proof.
  revert db group. induction depth as [|d IH]; intros db group Hmiss; [lia|].
  cbn [update_group_roles_at]. unfold update_group_roles_body.
  destruct (negb (canAppAccessDatabase env)); [done|].
  apply within_limit_bind; [|done]. unfold update_group_roles_locals.
  apply within_limit_bind.
  { apply (for_each_within_limit (λ st, (missing_rulesets (l_db st) group ≤ d)%nat));
      [|simpl; lia].
    intros st rulename Hname Hst.
    assert (create_keeps rulesets_kept
              (RuleSet_save_with (update_group_roles_at d env) env)) as Hkeeps.
    { intros db1 r db2 Hnone.
      apply (RuleSet_save_with_new_R rulesets_kept); try kept; [|done].
      intros ???. apply update_group_roles_at_keeps_rulesets. }
    split.
    - unfold ruleset_round.
      apply within_limit_bind.
      + destruct (users_ruleset db !! (group, rulename)); [done|].
        destruct (users_ruleset (l_db st) !! (group, rulename)) eqn:Hrow; [done|].
        apply within_limit_bind; [|done].
        unfold RuleSet_save_with. simpl.
        destruct (auth_group (l_db st) !! group) as [name|]; [|done].
        unfold Group_save_with.
        apply within_limit_bind; [apply create_owner_within_limit|].
        intros db2 Hdb2.
        apply within_limit_bind; [|intros; apply validate_primary_group_on_save_within_limit].
        apply IH.
        apply (create_owner_R rulesets_kept) in Hdb2; [|kept..].
        apply (missing_rulesets_kept _ _ group) in Hdb2.
        pose proof (missing_rulesets_insert (l_db st) group rulename no_flags Hname Hrow)
          as Hlt.
        change (missing_rulesets (set_auth_group _ (set_users_ruleset _ (l_db st))) group)
          with (missing_rulesets
                  (set_users_ruleset <[(group, rulename) := no_flags]> (l_db st)) group)
          in Hdb2.
        lia.
      + intros [ruleset db1] _.
        apply within_limit_bind; [|by intros []].
        apply (for_each_within_limit (λ _, True)); [|done].
        intros ? ? _ _. split; [apply add_model_actions_within_limit | done].
    - intros st' Hround.
      apply (ruleset_round_R rulesets_kept) in Hround; [|kept | exact Hkeeps].
      apply (missing_rulesets_kept _ _ group) in Hround. lia. }
  intros st _.
  apply within_limit_bind.
  { apply (for_each_within_limit (λ _, True)); [|done].
    intros ? ? _ _. split; [apply add_round_within_limit | done]. }
  intros db2 _.
  apply within_limit_bind.
  { apply (for_each_within_limit (λ _, True)); [|done].
    intros ? ? _ _. split; [apply remove_round_within_limit | done]. }
  intros db3 _.
  apply (for_each_within_limit (λ _, True)); [|done].
  intros ? ? _ _. split; [apply inherit_pair_within_limit | done].
Qed.

(** [update_group_roles] never fails for want of nesting depth. *)
Lemma update_group_roles_within_limit (env : Env) (db : DB) (group : N) :
  within_limit (update_group_roles env db group).
Proof.
  apply update_group_roles_at_within_limit. unfold recursion_limit, missing_rulesets.
  apply Nat.lt_succ_r. apply length_filter.
Qed.

(** ** Supporting facts *)

(** With a stale cache the table check denies the child table although the
    parent ruleset grants [change]: the denial of [change] on [part] was
    cached before the grant. *)
Lemma child_table_denied_by_stale_cache :
  check_table_permission env_all (db_group no_flags no_flags) ∅
    (Some user1) "part_partparameter" "delete" = Ok (false, cache_before_child)
  ∧ RuleSet_save env_all (db_group no_flags no_flags)
      (RuleSet.mk "part" 1 view_change) = Ok db_after_change
  ∧ users_ruleset db_after_change !! (1%N, "part") = Some view_change
  ∧ answer (check_table_permission env_all db_after_change cache_before_child
              (Some user1) "part_partparameter" "delete") = Ok false.
Proof.
  split; [|split; [|split]].
  - unfold cache_before_child. apply answer_value. vm_compute. reflexivity.
  - unfold db_after_change. apply ok_value. vm_compute. reflexivity.
  - vm_compute. reflexivity.
  - vm_compute. reflexivity.
Qed.

Lemma later_call_removes_inv (r : result (DB * DB)) (group : N) (perm : string) :
  later_call_removes r group perm = true →
  ∃ db1 db2, r = Ok (db1, db2)
    ∧ perm ∈ current_permission_strings db1 group
    ∧ (perm ∉ current_permission_strings db2 group).
Proof.
  destruct r as [[db1 db2]|e]; simpl; [|done].
  intros H. apply andb_true_iff in H as [H1 H2].
  apply negb_true_iff, bool_decide_eq_false in H2. apply bool_decide_eq_true in H1.
  by exists db1, db2.
Qed.

(** The third call removes what the second call added. *)
Lemma third_reconcile_removes_child_permission :
  ∃ db2 db3,
    reconcile_thrice env_all (db_group view_change no_flags) 1 = Ok (db2, db3)
    ∧ "part.view_partparameter" ∈ current_permission_strings db2 1
    ∧ ("part.view_partparameter" ∉ current_permission_strings db3 1).
Proof. apply later_call_removes_inv. vm_compute. reflexivity. Qed.

(** The two sets of a pass are disjoint when it ends. *)
Lemma reconcile_piles_disjoint (env : Env)
  (objects_create : DB → RuleSet.t → result DB) (db : DB) (group : N) (st : Locals) :
  update_group_roles_locals env objects_create db group = Ok st →
  pile_disjoint (l_pile st).
Proof.
  unfold update_group_roles_locals. intros H.
  apply bind_ok in H as (st1 & Hmain & H).
  apply bind_ok in H as (db2 & _ & H). apply bind_ok in H as (db3 & _ & H).
  cbv beta in H.
  assert (pile_disjoint (l_pile st1)) as Hst1.
  { revert Hmain. apply (for_each_inv (λ s, pile_disjoint (l_pile s))).
    - intros s1 rulename s2 _ Hs1 Hround. unfold ruleset_round in Hround.
      apply bind_ok in Hround as ([ruleset db1] & _ & Hround).
      apply bind_ok in Hround as ([pile model] & Hmodels & Hround).
      injection Hround as <-. simpl. revert Hmodels.
      apply (for_each_inv (λ pm : Pile * option string, pile_disjoint pm.1)); [|done].
      intros pm1 m pm2 _ Hpm1 Hact. unfold add_model_actions in Hact.
      apply bind_ok in Hact as (p1 & H1 & Hact).
      apply bind_ok in Hact as (p2 & H2 & Hact).
      apply bind_ok in Hact as (p3 & H3 & Hact).
      apply bind_ok in Hact as (p4 & H4 & Hact).
      injection Hact as <-. simpl.
      apply add_model_keeps in H1 as [H1 _], H2 as [H2 _], H3 as [H3 _], H4 as [H4 _].
      auto.
    - unfold pile_disjoint. simpl. set_solver. }
  revert H. apply (for_each_inv (λ s, pile_disjoint (l_pile s))); [|done].
  intros s1 pair s2 _ Hs1. unfold inherit_pair.
  apply (for_each_inv (λ s, pile_disjoint (l_pile s))); [|done].
  intros s3 action s4 _ Hs3. unfold inherit_round.
  case_bool_decide as Hp; [|by intros [= <-]].
  case_bool_decide as Hc; [by intros [= <-]|].
  destruct (l_ruleset s3); [|done]. intros Hround.
  apply bind_ok in Hround as (pile & Hpile & Hround).
  apply bind_ok in Hround as (permission & _ & Hround).
  apply add_model_keeps in Hpile as [Hpile _].
  destruct permission; injection Hround as <-; simpl; auto.
Qed.

(** * Further properties of the module *)

(** ** The normalisation of [RuleSet.save] *)

(** X1: the two assignments of [save] only ever set flags, their result
    satisfies both implications, flags that satisfy them already are left
    as they are, and applying them twice is applying them once. *)
Theorem normalize_closure (f : Flags) :
  flags_le f (RuleSet.normalize f)
  ∧ normalized (RuleSet.normalize f)
  ∧ (normalized f ↔ RuleSet.normalize f = f)
  ∧ RuleSet.normalize (RuleSet.normalize f) = RuleSet.normalize f.
Proof.
  unfold flags_le, normalized.
  destruct f as [[] [] [] []]; simpl; repeat split; try done;
    try (intros [H1 H2]; try (by specialize (H1 eq_refl)); by specialize (H2 eq_refl)).
Qed.

(** ** Taking table names and permission strings apart *)

Lemma has_char_app (c : ascii) (a b : string) :
  has_char c (a +:+ b) = has_char c a || has_char c b.
Proof.
  induction a as [|x a IH]; [done|].
  change (has_char c (String x (a +:+ b))
          = (bool_decide (x = c) || has_char c a) || has_char c b).
  simpl. rewrite IH. by rewrite orb_assoc.
Qed.

Lemma split_nonempty (c : ascii) (s : string) : Py.split c s ≠ [].
Proof.
  destruct s as [|d s]; simpl; [done|].
  destruct (decide (d = c)); [done|]. by destruct (Py.split c s).
Qed.

Lemma split_no_sep (c : ascii) (s : string) :
  has_char c s = false → Py.split c s = [s].
Proof.
  induction s as [|d s IH]; simpl; [done|].
  intros H. apply orb_false_iff in H as [Hd Hs]. apply bool_decide_eq_false in Hd.
  rewrite decide_False by done. by rewrite IH.
Qed.

Lemma split_app_sep (c : ascii) (a b : string) :
  has_char c a = false → Py.split c (a +:+ String c b) = a :: Py.split c b.
Proof.
  induction a as [|d a IH]; simpl.
  - intros _. by rewrite decide_True.
  - intros H. apply orb_false_iff in H as [Hd Ha]. apply bool_decide_eq_false in Hd.
    rewrite decide_False by done. by rewrite IH.
Qed.

Lemma split_parts_no_sep (c : ascii) (s : string) :
  Forall (λ w, has_char c w = false) (Py.split c s).
Proof.
  induction s as [|d s IH]; simpl; [by repeat constructor|].
  destruct (decide (d = c)) as [->|Hd]; [by constructor|].
  destruct (Py.split c s) as [|w ws].
  - constructor; [|constructor]. simpl. by rewrite bool_decide_eq_false_2.
  - apply Forall_cons in IH as [Hw Hws]. constructor; [|done].
    simpl. rewrite Hw. by rewrite bool_decide_eq_false_2.
Qed.

Lemma join_split (c : ascii) (s : string) :
  Py.join (String c "") (Py.split c s) = s.
Proof.
  induction s as [|d s IH]; simpl; [done|].
  destruct (decide (d = c)) as [->|Hd].
  - pose proof (split_nonempty c s) as Hne.
    destruct (Py.split c s) as [|w ws]; [done|]. simpl in *. by rewrite IH.
  - pose proof (split_nonempty c s) as Hne.
    destruct (Py.split c s) as [|w ws]; [done|].
    destruct ws as [|w' ws]; simpl in *; by rewrite <- IH.
Qed.

Lemma str_app_assoc (a b c : string) : (a +:+ b) +:+ c = a +:+ b +:+ c.
Proof.
  induction a as [|x a IH]; [done|].
  change (String x ((a +:+ b) +:+ c) = String x (a +:+ b +:+ c)). by rewrite IH.
Qed.

Lemma prefix_app (p q : string) : String.prefix p (p +:+ q) = true.
Proof.
  induction p as [|x p IH]; simpl; [by destruct q|].
  by destruct (ascii_dec x x).
Qed.

Lemma join_snoc (sep : string) (ws : list string) (w : string) :
  ws ≠ [] → Py.join sep (ws ++ [w]) = Py.join sep ws +:+ sep +:+ w.
Proof.
  induction ws as [|a ws IH]; [done|]. intros _.
  destruct ws as [|b ws]; [done|].
  change (Py.join sep ((a :: b :: ws) ++ [w]))
    with (a +:+ sep +:+ Py.join sep ((b :: ws) ++ [w])).
  rewrite IH by done. simpl. by rewrite !str_app_assoc.
Qed.


(** What [split_model] returns gives the name back. *)
Lemma split_model_ok_parts (name model app : string) :
  RuleSet.split_model name = Ok (model, app) →
  app +:+ "_" +:+ model = name ∧ has_char "_" model = false.
Proof.
  unfold RuleSet.split_model.
  pose proof (join_split "_" name) as Hjoin.
  pose proof (split_parts_no_sep "_" name) as Hparts.
  destruct (Py.split "_" name) as [|w ws] using rev_ind; [done|]. clear IHws.
  rewrite removelast_last, last_last in *.
  apply Forall_app in Hparts as [_ Hw]. apply Forall_inv in Hw.
  intros Hok.
  destruct ws as [|a [|b ws]]; [discriminate Hok| |];
    injection Hok as <- <-;
    (split; [|done]); rewrite <- Hjoin; by rewrite join_snoc.
Qed.


(** A codename with one underscore is taken apart at that underscore and
    returned as it is. *)
Lemma split_permission_simple (app permission_name model : string) :
  has_char "_" permission_name = false → has_char "_" model = false →
  RuleSet.split_permission app (permission_name +:+ "_" +:+ model)
  = Ok (permission_name +:+ "_" +:+ model, model).
Proof.
  intros Hname Hmodel. unfold RuleSet.split_permission.
  change (permission_name +:+ "_" +:+ model)
    with (permission_name +:+ String "_" model).
  rewrite split_app_sep, split_no_sep by done. done.
Qed.


(** [get_permission_object] on a string [app.action_model] whose parts hold
    no further dot or underscore. *)
Lemma get_permission_object_parts (env : Env) (app action model : string) :
  has_char "." action = false → has_char "_" action = false →
  has_char "." model = false → has_char "_" model = false →
  has_char "." app = false →
  get_permission_object env (app +:+ "." +:+ action +:+ "_" +:+ model)
  = lookup_permission env app model (action +:+ "_" +:+ model).
Proof.
  intros Hadot Haus Hmdot Hmodel Happ. unfold get_permission_object.
  change (app +:+ "." +:+ action +:+ "_" +:+ model)
    with (app +:+ String "." (action +:+ "_" +:+ model)).
  rewrite split_app_sep by done. rewrite split_no_sep.
  - by rewrite split_permission_simple.
  - rewrite !has_char_app, Hadot, Hmdot. done.
Qed.

(** X4: the permission string of a table and its way back.  For a table
    name without a dot that [split_model] takes apart into app label and
    model, [get_model_permission_string] gives [app.action_model],
    [get_permission_object] looks up exactly the content type [(app, model)]
    and the codename [action_model], and the permission it finds has that
    same string as its simplified key. *)
Theorem permission_string_round_trip (env : Env) (table action model app : string) :
  action ∈ RuleSet.RULESET_PERMISSIONS →
  has_char "." table = false →
  RuleSet.split_model table = Ok (model, app) →
  let ps := app +:+ "." +:+ action +:+ "_" +:+ model in
  RuleSet.get_model_permission_string table action = Ok ps
  ∧ get_permission_object env ps = lookup_permission env app model (action +:+ "_" +:+ model)
  ∧ permission_string (action +:+ "_" +:+ model, app, model) = ps.
Proof.
  intros Hact Hdot Hsplit ps.
  destruct (split_model_ok_parts table model app Hsplit) as [Hname Hmodel].
  assert (has_char "." app = false ∧ has_char "." model = false) as [Happ Hmdot].
  { rewrite <- Hname, !has_char_app in Hdot.
    apply orb_false_iff in Hdot as [Happ Hdot].
    by apply orb_false_iff in Hdot as [_ Hdot]. }
  assert (has_char "." action = false ∧ has_char "_" action = false) as [Hadot Haus].
  { unfold RuleSet.RULESET_PERMISSIONS in Hact.
    rewrite !elem_of_cons, elem_of_nil in Hact.
    destruct Hact as [->|[->|[->|[->|[]]]]]; done. }
  split; [|split].
  - unfold RuleSet.get_model_permission_string. by rewrite Hsplit.
  - by apply get_permission_object_parts.
  - done.
Qed.

Lemma permission_string_round_trip_witness :
  RuleSet.get_model_permission_string "otp_totp_totpdevice" "view"
    = Ok "otp_totp.view_totpdevice"
  ∧ get_permission_object env_all "otp_totp.view_totpdevice"
    = Ok (Some ("view_totpdevice", "otp_totp", "totpdevice")).
Proof.
  destruct (permission_string_round_trip env_all "otp_totp_totpdevice" "view"
              "totpdevice" "otp_totp") as (H1 & H2 & _);
    [compute_done | reflexivity | reflexivity |].
  split; [exact H1 | exact H2].
Defined.

(** X5: the declared tables fit together, with and without [SITE_MULTI]:
    every governed table and every exempt table has an app prefix and no
    dot, so that its permission strings can be built and taken apart; no
    exempt table is governed by a ruleset; and the child table of every
    inheritance pair is governed by the ruleset of its parent. *)
Theorem declared_tables_consistent (env : Env) :
  Forall (λ t, is_ok (RuleSet.split_model t) = true ∧ has_char "." t = false)
         (governed_tables env ++ RuleSet.get_ruleset_ignore)%list
  ∧ Forall (λ t, t ∉ RuleSet.get_ruleset_ignore) (governed_tables env)
  ∧ Forall (λ pc, ∃ models,
              RuleSet.models_of_role env pc.1 = Some models
              ∧ RuleSet.parent_child_string pc.1 pc.2 ∈ models)
           RuleSet.RULESET_CHANGE_INHERIT.
Proof.
  unfold governed_tables, RuleSet.models_of_role, RuleSet.get_ruleset_models.
  destruct (SITE_MULTI env).
  - split; [compute_done|]. split; [compute_done|].
    repeat constructor; eexists; (split; [reflexivity | compute_done]).
  - split; [compute_done|]. split; [compute_done|].
    repeat constructor; eexists; (split; [reflexivity | compute_done]).
Qed.

(** ** The role check and the session cache *)

(** X6: once [check_user_role] has answered for a user, role and
    permission, a second call with the cache it left gives the same answer
    and the same cache, whatever the rulesets and memberships have become:
    within a session the answer is never computed again. *)
Theorem check_user_role_answers_from_cache (db db' : DB) (cache : Cache)
  (user : option User.t) (role permission : string) :
  check_user_role db' (check_user_role db cache user role permission).2
                  user role permission
  = check_user_role db cache user role permission.
Proof.
  unfold check_user_role. destruct user as [u|]; [|done].
  destruct (User.is_superuser u); [done|].
  destruct (cache !! cache_key u role permission) as [v|] eqn:Hhit; simpl.
  - by rewrite Hhit.
  - by rewrite lookup_insert_eq.
Qed.

Lemma rule_grants_unknown (permission : string) (f : Flags) :
  permission ∉ RuleSet.RULESET_PERMISSIONS → rule_grants permission f = false.
Proof.
  intros Hp. unfold rule_grants.
  rewrite !bool_decide_eq_false_2; [done|intros ->; apply Hp; compute_done..].
Qed.

(** X7: a permission that is not one of [view], [add], [change] and
    [delete] is granted to nobody but a superuser: with no cached result
    the role check computes [False], whatever the rulesets say, and caches
    it. *)
Theorem check_user_role_unknown_permission (db : DB) (cache : Cache) (u : User.t)
  (role permission : string) :
  User.is_superuser u = false →
  permission ∉ RuleSet.RULESET_PERMISSIONS →
  cache !! cache_key u role permission = None →
  check_user_role db cache (Some u) role permission
  = (false, <[cache_key u role permission := false]> cache).
Proof.
  intros Hsu Hp Hmiss. unfold check_user_role. rewrite Hsu, Hmiss.
  destruct (scan_groups db role permission (groups_of db (User.pk u))) eqn:Hscan;
    [|done].
  apply scan_groups_true in Hscan as (g & f & _ & _ & Hgr).
  by rewrite rule_grants_unknown in Hgr.
Qed.

Lemma check_user_role_unknown_permission_witness :
  check_user_role (db_group view_change view_change) ∅ (Some user1) "part" "export"
  = (false, {[ "role_1_part_export" := false ]}).
Proof.
  rewrite (check_user_role_unknown_permission _ _ user1 "part" "export");
    [reflexivity | reflexivity | compute_done | reflexivity].
Defined.

(** ** The table check without rulesets *)

(** X8: a superuser, and any user on an exempt table, is allowed every
    action — also one that is no permission at all — without the rulesets or
    the cache being looked at. *)
Theorem check_table_permission_bypass (env : Env) (db : DB) (cache : Cache)
  (u : User.t) (table permission : string) :
  User.is_superuser u = true ∨ table ∈ RuleSet.get_ruleset_ignore →
  check_table_permission env db cache (Some u) table permission = Ok (true, cache).
Proof.
  intros H. unfold check_table_permission.
  destruct (User.is_superuser u); [done|].
  destruct H as [H|H]; [done|]. by rewrite bool_decide_eq_true_2.
Qed.

Lemma check_table_permission_bypass_witness :
  check_table_permission env_all (db_group no_flags no_flags) ∅ (Some user1)
    "users_owner" "delete" = Ok (true, ∅).
Proof.
  apply check_table_permission_bypass. right. compute_done.
Defined.

Lemma models_of_role_governed (env : Env) (role table : string) (models : list string) :
  RuleSet.models_of_role env role = Some models → table ∈ models →
  table ∈ governed_tables env.
Proof.
  unfold RuleSet.models_of_role, governed_tables.
  generalize (RuleSet.get_ruleset_models env). intros d.
  induction d as [|[k v] d IH]; simpl; [done|].
  intros Hget Hin. apply elem_of_app. case_decide.
  - injection Hget as ->. by left.
  - right. by apply IH.
Qed.

Lemma check_roles_ungoverned (env : Env) (db : DB) (u : User.t)
  (table permission : string) (roles : list string) (cache : Cache) :
  table ∉ governed_tables env → roles ⊆ RuleSet.RULESET_NAMES →
  check_roles env db u table permission roles cache = Ok (false, cache).
Proof.
  intros Hnot. induction roles as [|role roles IH]; intros Hsub; [done|].
  cbn [check_roles].
  destruct (models_of_role_known env role) as [models Hm]; [apply Hsub; by left|].
  rewrite Hm. rewrite bool_decide_eq_false_2.
  - apply IH. intros r ?. apply Hsub. by right.
  - intros Hin. apply Hnot. by eapply models_of_role_governed.
Qed.

(** X9: a table that is neither exempt nor named by any ruleset is denied
    to everyone but a superuser, for every action, without the rulesets or
    the cache being looked at: a table missing from the declared tables
    fails closed. *)
Theorem check_table_permission_ungoverned (env : Env) (db : DB) (cache : Cache)
  (u : User.t) (table permission : string) :
  User.is_superuser u = false →
  table ∉ RuleSet.get_ruleset_ignore →
  table ∉ governed_tables env →
  check_table_permission env db cache (Some u) table permission = Ok (false, cache).
Proof.
  intros Hsu Hign Hgov. unfold check_table_permission. rewrite Hsu.
  rewrite bool_decide_eq_false_2 by done.
  rewrite check_roles_ungoverned by done.
  assert (∀ parent child, (parent, child) ∈ RuleSet.RULESET_CHANGE_INHERIT →
            RuleSet.parent_child_string parent child ≠ table) as Hchild.
  { intros parent child Hin <-. apply Hgov.
    unfold RuleSet.RULESET_CHANGE_INHERIT in Hin.
    rewrite !elem_of_cons, elem_of_nil in Hin.
    unfold governed_tables, RuleSet.get_ruleset_models.
    destruct Hin as [[= -> ->]|[[= -> ->]|[]]]; destruct (SITE_MULTI env); compute_done. }
  cbn [check_inherit RuleSet.RULESET_CHANGE_INHERIT].
  rewrite !bool_decide_eq_false_2; [done|apply Hchild; compute_done..].
Qed.

Lemma check_table_permission_ungoverned_witness :
  check_table_permission env_all (db_group view_change view_change) ∅ (Some user1)
    "company_unknown" "view" = Ok (false, ∅).
Proof.
  apply check_table_permission_ungoverned; [reflexivity | compute_done..].
Defined.

(** ** Owners *)

Lemma next_pk_above (rows : list OwnerRow) (o : OwnerRow) :
  o ∈ rows → (owner_pk o < Owner.next_pk rows)%N.
Proof.
  unfold Owner.next_pk. intros Hin.
  enough (owner_pk o ≤ foldr N.max 0 (owner_pk <$> rows))%N by lia.
  induction rows as [|r rows IH]; [by apply elem_of_nil in Hin|].
  change (owner_pk o ≤ N.max (owner_pk r) (foldr N.max 0 (owner_pk <$> rows)))%N.
  apply elem_of_cons in Hin as [->|Hin].
  - apply N.le_max_l.
  - etrans; [by apply IH | apply N.le_max_r].
Qed.

Lemma existsb_matches_false (rows : list OwnerRow) (ct : ContentType) (id : N)
  (o : OwnerRow) :
  existsb (Owner.matches ct id) rows = false → o ∈ rows →
  Owner.matches ct id o = false.
Proof.
  intros Hex Hin. apply not_true_is_false. intros Hm.
  apply not_true_iff_false in Hex. apply Hex, existsb_exists.
  exists o. by rewrite <- list_elem_of_In.
Qed.

Lemma matches_inj (ct ct' : ContentType) (id id' : N) (o : OwnerRow) :
  Owner.matches ct id o = true → Owner.matches ct' id' o = true →
  ct = ct' ∧ id = id'.
Proof.
  unfold Owner.matches. intros [H1 H2]%bool_decide_eq_true [H3 H4]%bool_decide_eq_true.
  split; congruence.
Qed.

Lemma owners_unique_snoc (rows : list OwnerRow) (obj : ModelObj) :
  owners_unique rows →
  existsb (Owner.matches (obj_content_type obj) (obj_pk obj)) rows = false →
  owners_unique
    (rows ++ [mkOwner (Owner.next_pk rows) (Some (obj_content_type obj))
                      (Some (obj_pk obj))]).
Proof.
  intros [Hpk Huniq] Hex. split.
  - rewrite fmap_app. apply NoDup_app. split; [done|]. split; [|apply NoDup_singleton].
    intros pk Hin Hin'. apply list_elem_of_fmap in Hin as (o & -> & Hin).
    apply next_pk_above in Hin. simpl in Hin'. apply list_elem_of_singleton in Hin'. lia.
  - intros i j o1 o2 ct id Hi Hj Hm1 Hm2.
    apply lookup_app_Some in Hi as [Hi|[Hli Hi]];
      apply lookup_app_Some in Hj as [Hj|[Hlj Hj]].
    + by eapply Huniq.
    + apply list_lookup_singleton_Some in Hj as [_ <-].
      assert (ct = obj_content_type obj ∧ id = obj_pk obj) as [-> ->].
      { eapply matches_inj; [exact Hm2|]. unfold Owner.matches. simpl.
        by apply bool_decide_eq_true. }
      rewrite (existsb_matches_false _ _ _ o1 Hex) in Hm1; [done|].
      by eapply list_elem_of_lookup_2.
    + apply list_lookup_singleton_Some in Hi as [_ <-].
      assert (ct = obj_content_type obj ∧ id = obj_pk obj) as [-> ->].
      { eapply matches_inj; [exact Hm1|]. unfold Owner.matches. simpl.
        by apply bool_decide_eq_true. }
      rewrite (existsb_matches_false _ _ _ o2 Hex) in Hm2; [done|].
      by eapply list_elem_of_lookup_2.
    + apply list_lookup_singleton_Some in Hi as [Hi _].
      apply list_lookup_singleton_Some in Hj as [Hj _]. lia.
Qed.

(** X10: [Owner.create] keeps the table free of duplicates, whatever other
    writers commit between its lookup and its insert, as long as they keep
    it so themselves: no two owners share a primary key or stand for the
    same instance. *)
Theorem owner_create_keeps_unique (others : DB → DB) (db db' : DB) (obj : ModelObj)
  (r : option OwnerRow) :
  (∀ d, owners_unique (users_owner d) → owners_unique (users_owner (others d))) →
  owners_unique (users_owner db) →
  Owner.create others db obj = Ok (r, db') →
  owners_unique (users_owner db').
Proof.
  intros Hothers Hdb. unfold Owner.create.
  destruct (Owner.get_owner db obj) as [o|]; [by intros [= _ <-]|].
  unfold Owner.objects_create.
  destruct (existsb _ (users_owner (others db))) eqn:Hex.
  - intros [= _ <-]. by apply Hothers.
  - intros [= _ <-]. destruct (others db) as [a b c d e rows p q] eqn:Ho. simpl in *.
    apply owners_unique_snoc; [|done].
    specialize (Hothers db Hdb). by rewrite Ho in Hothers.
Qed.

Lemma db_owners_unique : owners_unique (users_owner db_owners).
Proof.
  split; [compute_done|].
  intros i j o1 o2 ct id Hi Hj Hm1 Hm2.
  unfold Owner.matches in Hm1, Hm2.
  apply bool_decide_eq_true in Hm1 as [Ht1 Hi1], Hm2 as [Ht2 Hi2].
  destruct i as [|[|i]], j as [|[|j]]; simpl in *; try done;
    simplify_eq; simpl in *; congruence.
Qed.

Lemma owner_create_keeps_unique_witness :
  owners_unique (users_owner db_owners) ∧
  ∃ r db', Owner.create id db_owners (AUser 5) = Ok (r, db')
           ∧ owners_unique (users_owner db').
Proof.
  split; [exact db_owners_unique|].
  eexists _, _. split; [reflexivity|].
  eapply (owner_create_keeps_unique id db_owners _ (AUser 5));
    [intros d Hd; exact Hd | exact db_owners_unique | reflexivity].
Defined.

Lemma find_app_r {A : Type} (f : A → bool) (l1 l2 : list A) :
  existsb f l1 = false → List.find f (l1 ++ l2) = List.find f l2.
Proof.
  induction l1 as [|x l1 IH]; simpl; [done|].
  destruct (f x); [done | exact IH].
Qed.

(** X11: creating the owner of a group or a user, with nobody else writing,
    always returns an owner of that instance; afterwards [get_owner] finds
    this very row, and a second [create] returns it again and leaves the
    table as it is. *)
Theorem owner_create_round_trip (db : DB) (obj : ModelObj) :
  is_group_or_user obj = true →
  ∃ o db', Owner.create id db obj = Ok (Some o, db')
           ∧ owner_type o = Some (obj_content_type obj)
           ∧ owner_id o = Some (obj_pk obj)
           ∧ Owner.get_owner db' obj = Some o
           ∧ Owner.create id db' obj = Ok (Some o, db').
Proof.
  intros Hobj.
  assert (∀ d, Owner.get_owner d obj
               = Owner.objects_get (users_owner d) (obj_content_type obj) (obj_pk obj))
    as Hget by (by destruct obj).
  unfold Owner.create. rewrite !Hget.
  destruct (Owner.objects_get (users_owner db) _ _) as [o|] eqn:Hfind.
  - exists o, db. rewrite Hget, Hfind.
    apply objects_get_matches in Hfind as [_ [? ?]%bool_decide_eq_true]. done.
  - apply objects_get_none in Hfind. unfold Owner.objects_create, id at 1 2.
    rewrite Hfind.
    set (o := mkOwner (Owner.next_pk (users_owner db))
                      (Some (obj_content_type obj)) (Some (obj_pk obj))).
    set (db' := set_users_owner (λ _, (users_owner db ++ [o])%list) db).
    exists o, db'. split; [done|]. split; [done|]. split; [done|].
    assert (Owner.objects_get (users_owner db') (obj_content_type obj) (obj_pk obj)
            = Some o) as Hnew.
    { unfold Owner.objects_get. simpl. rewrite find_app_r by done. simpl.
      unfold Owner.matches. simpl. by rewrite bool_decide_eq_true_2. }
    by rewrite Hget, Hnew.
Qed.

Lemma owner_create_round_trip_witness :
  ∃ o db', Owner.create id db_owners (AGroup 9 "sales") = Ok (Some o, db')
           ∧ owner_type o = Some CT_group
           ∧ owner_id o = Some 9%N
           ∧ Owner.get_owner db' (AGroup 9 "sales") = Some o
           ∧ Owner.create id db' (AGroup 9 "sales") = Ok (Some o, db').
Proof.
  apply (owner_create_round_trip db_owners (AGroup 9 "sales")). reflexivity.
Defined.

(** X12: [Owner.create] of an instance that is neither a group nor a user
    never finds the owner it made: once a call has inserted the row, the
    next call, with nobody else writing, tries to insert again, meets the
    [unique_owner] constraint and returns [None] instead of the owner. *)
Theorem owner_create_other_twice (db db' : DB) (app model : string) (pk : N)
  (o : OwnerRow) :
  Owner.create id db (AnOther app model pk) = Ok (Some o, db') →
  Owner.create id db' (AnOther app model pk) = Ok (None, db').
Proof.
  unfold Owner.create, Owner.objects_create, id. simpl.
  destruct (existsb _ (users_owner db)) eqn:Hex; [done|].
  intros [= _ <-]. simpl.
  rewrite existsb_app. simpl. unfold Owner.matches at 2. simpl.
  by rewrite bool_decide_eq_true_2, orb_true_r.
Qed.

Lemma owner_create_other_twice_witness :
  ∃ o db', Owner.create id db_owners (AnOther "part" "part" 3) = Ok (Some o, db')
           ∧ Owner.create id db' (AnOther "part" "part" 3) = Ok (None, db').
Proof.
  eexists _, _. split; [reflexivity|].
  eapply (owner_create_other_twice db_owners). reflexivity.
Defined.

Lemma NoDup_fmap_eq {A B : Type} (f : A → B) (l : list A) (x y : A) :
  NoDup (f <$> l) → x ∈ l → y ∈ l → f x = f y → x = y.
Proof.
  intros Hnd [i Hi]%list_elem_of_lookup_1 [j Hj]%list_elem_of_lookup_1 Hf.
  assert (i = j) as ->.
  { eapply (NoDup_lookup _ _ _ (f x) Hnd).
    - by rewrite list_lookup_fmap, Hi.
    - by rewrite list_lookup_fmap, Hj, Hf. }
  congruence.
Qed.

Lemma owners_unique_match (rows : list OwnerRow) (ct : ContentType) (id : N)
  (o1 o2 : OwnerRow) :
  owners_unique rows → o1 ∈ rows → o2 ∈ rows →
  Owner.matches ct id o1 = true → Owner.matches ct id o2 = true → o1 = o2.
Proof.
  intros [_ Huniq] [i Hi]%list_elem_of_lookup_1 [j Hj]%list_elem_of_lookup_1 H1 H2.
  assert (i = j) as -> by (by eapply Huniq). congruence.
Qed.

Lemma objects_get_unique (rows : list OwnerRow) (ct : ContentType) (id : N)
  (o : OwnerRow) :
  owners_unique rows → o ∈ rows → Owner.matches ct id o = true →
  Owner.objects_get rows ct id = Some o.
Proof.
  intros Huniq Hin Hm.
  destruct (Owner.objects_get rows ct id) as [o'|] eqn:Hget.
  - apply objects_get_matches in Hget as [Hin' Hm'].
    f_equal. by eapply owners_unique_match.
  - apply objects_get_none in Hget.
    by rewrite (existsb_matches_false _ _ _ o Hget Hin) in Hm.
Qed.

Lemma get_owner_matches (db : DB) (obj : ModelObj) (o : OwnerRow) :
  Owner.get_owner db obj = Some o →
  is_group_or_user obj = true ∧ o ∈ users_owner db
  ∧ Owner.matches (obj_content_type obj) (obj_pk obj) o = true.
Proof.
  destruct obj; simpl; [| |done]; intros H%objects_get_matches; by destruct H.
Qed.

Lemma elem_of_delete_row (db : DB) (o r : OwnerRow) :
  r ∈ users_owner (Owner.delete_row o db) ↔ r ∈ users_owner db ∧ owner_pk r ≠ owner_pk o.
Proof.
  unfold Owner.delete_row. simpl. rewrite list_elem_of_In, filter_In, <- list_elem_of_In.
  rewrite negb_true_iff, bool_decide_eq_false. done.
Qed.

Lemma filter_sublist_lookup {A : Type} (f : A → bool) (l : list A) (i j : nat) (x y : A) :
  i < j → List.filter f l !! i = Some x → List.filter f l !! j = Some y →
  ∃ i' j', i' < j' ∧ l !! i' = Some x ∧ l !! j' = Some y.
Proof.
  revert i j. induction l as [|a l IH]; intros i j Hij Hi Hj; [done|].
  simpl in Hi, Hj. destruct (f a).
  - destruct i as [|i], j as [|j]; try lia; simpl in *.
    + injection Hi as ->. apply list_elem_of_lookup_2 in Hj.
      apply list_elem_of_In, filter_In in Hj as [Hj _].
      apply list_elem_of_In, list_elem_of_lookup_1 in Hj as [j' Hj'].
      exists 0, (S j'). split; [lia|done].
    + destruct (IH i j) as (i' & j' & ? & ? & ?); [lia|done..|].
      exists (S i'), (S j'). split; [lia|done].
  - destruct (IH i j) as (i' & j' & ? & ? & ?); [lia|done..|].
    exists (S i'), (S j'). split; [lia|done].
Qed.

Lemma owners_unique_filter (rows : list OwnerRow) (f : OwnerRow → bool) :
  owners_unique rows → owners_unique (List.filter f rows).
Proof.
  intros [Hpk Huniq]. split.
  - apply NoDup_alt. intros i j pk Hi Hj.
    rewrite list_lookup_fmap in Hi, Hj.
    destruct (List.filter f rows !! i) as [x|] eqn:Hx; [|done].
    destruct (List.filter f rows !! j) as [y|] eqn:Hy; [|done].
    simpl in Hi, Hj. injection Hi as <-. injection Hj as Hj.
    destruct (Nat.lt_trichotomy i j) as [Hlt|[->|Hlt]]; [|done|].
    + destruct (filter_sublist_lookup f rows i j x y) as (i' & j' & ? & Hi' & Hj');
        [done..|].
      assert (i' = j'); [|lia].
      eapply (NoDup_lookup _ _ _ (owner_pk x) Hpk).
      * by rewrite list_lookup_fmap, Hi'.
      * by rewrite list_lookup_fmap, Hj', <- Hj.
    + destruct (filter_sublist_lookup f rows j i y x) as (i' & j' & ? & Hi' & Hj');
        [done..|].
      assert (i' = j'); [|lia].
      eapply (NoDup_lookup _ _ _ (owner_pk x) Hpk).
      * by rewrite list_lookup_fmap, Hi', <- Hj.
      * by rewrite list_lookup_fmap, Hj'.
  - intros i j o1 o2 ct id Hi Hj H1 H2.
    destruct (Nat.lt_trichotomy i j) as [Hlt|[->|Hlt]]; [|done|].
    + destruct (filter_sublist_lookup f rows i j o1 o2) as (i' & j' & ? & Hi' & Hj');
        [done..|].
      assert (i' = j'); [|lia]. by eapply Huniq.
    + destruct (filter_sublist_lookup f rows j i o2 o1) as (i' & j' & ? & Hi' & Hj');
        [done..|].
      assert (i' = j'); [|lia]. by eapply Huniq.
Qed.

(** X13: deleting the owner of an instance, in a table without duplicates,
    removes that row and no other: afterwards [get_owner] finds nothing for
    the instance, every other owner is still there, and the table is still
    free of duplicates. *)
Theorem delete_owner_removes (db : DB) (obj : ModelObj) (o : OwnerRow) :
  owners_unique (users_owner db) →
  Owner.get_owner db obj = Some o →
  ∃ db', delete_owner db obj = Ok db'
         ∧ Owner.get_owner db' obj = None
         ∧ (∀ r, r ∈ users_owner db' ↔ r ∈ users_owner db ∧ r ≠ o)
         ∧ owners_unique (users_owner db').
Proof.
  intros Huniq Hget. unfold delete_owner. rewrite Hget.
  exists (Owner.delete_row o db). split; [done|].
  pose proof (get_owner_matches _ _ _ Hget) as (Hobj & Hin & Hm).
  assert (∀ r, r ∈ users_owner (Owner.delete_row o db) ↔ r ∈ users_owner db ∧ r ≠ o)
    as Hrows.
  { intros r. rewrite elem_of_delete_row. split; intros [Hr Hne]; (split; [done|]).
    - by intros ->.
    - intros Hpk. apply Hne. by eapply (NoDup_fmap_eq owner_pk), Hpk; [apply Huniq|..]. }
  split; [|split; [done|]].
  - destruct (Owner.get_owner (Owner.delete_row o db) obj) as [r|] eqn:Hget'; [|done].
    apply get_owner_matches in Hget' as (_ & Hr & Hmr).
    apply Hrows in Hr as [Hr Hne]. destruct Hne.
    by eapply owners_unique_match.
  - by apply owners_unique_filter.
Qed.

Lemma delete_owner_removes_witness :
  ∃ db', delete_owner db_owners (AUser 1) = Ok db'
         ∧ Owner.get_owner db' (AUser 1) = None
         ∧ (∀ r, r ∈ users_owner db' ↔
                 r ∈ users_owner db_owners ∧ r ≠ mkOwner 2 (Some CT_user) (Some 1%N))
         ∧ owners_unique (users_owner db').
Proof.
  apply (delete_owner_removes db_owners (AUser 1)); [exact db_owners_unique | reflexivity].
Defined.

Lemma owner_is_user (db : DB) (self : OwnerRow) (u : N) :
  Owner.owner db self = Some (AUser u) →
  Owner.matches CT_user u self = true.
Proof.
  unfold Owner.owner, Owner.matches.
  destruct (owner_type self) as [[| |app model]|], (owner_id self) as [id|]; try done.
  - by destruct (auth_group db !! id).
  - case_bool_decide as Hin; [|done]. intros [= ->]. by apply bool_decide_eq_true.
  - by case_bool_decide.
Qed.

Lemma owner_is_group (db : DB) (self : OwnerRow) (g : N) (name : string) :
  Owner.owner db self = Some (AGroup g name) →
  Owner.matches CT_group g self = true ∧ auth_group db !! g = Some name.
Proof.
  unfold Owner.owner, Owner.matches.
  destruct (owner_type self) as [[| |app model]|], (owner_id self) as [id|]; try done.
  - destruct (auth_group db !! id) as [nm|] eqn:Hnm; [|done]. intros [= -> ->].
    split; [by apply bool_decide_eq_true | done].
  - by case_bool_decide.
  - by case_bool_decide.
Qed.

(** X14: in a table without duplicates, an owner that stands for a user
    allows that user and nobody else — no group, no other user, no other
    instance — with or without [include_group]. *)
Theorem user_owner_allows_only_that_user (db : DB) (self : OwnerRow) (u : N)
  (user : ModelObj) (include_group : bool) :
  owners_unique (users_owner db) →
  self ∈ users_owner db →
  Owner.owner db self = Some (AUser u) →
  ∃ b, Owner.is_user_allowed db self user include_group = Ok b
       ∧ (b = true ↔ user = AUser u).
Proof.
  intros Huniq Hself Howner. unfold Owner.is_user_allowed, Owner.get_related_owners.
  rewrite Howner. eexists. split; [done|].
  apply owner_is_user in Howner as Hm. unfold Owner.contains. split.
  - destruct (Owner.get_owner db user) as [uo|] eqn:Hget; [|done].
    simpl. rewrite orb_false_r. intros Hpk%bool_decide_eq_true.
    apply get_owner_matches in Hget as (Hobj & Hin & Hm').
    assert (self = uo) as <- by (by eapply (NoDup_fmap_eq owner_pk); [apply Huniq|..]).
    destruct (matches_inj _ _ _ _ _ Hm Hm') as [Hct Hid].
    destruct user; simpl in *; congruence.
  - intros ->. simpl. rewrite (objects_get_unique _ _ _ self) by done.
    simpl. by rewrite bool_decide_eq_true_2.
Qed.

Lemma user_owner_allows_only_that_user_witness :
  ∃ b, Owner.is_user_allowed db_owners (mkOwner 2 (Some CT_user) (Some 1%N))
         (AGroup 7 "staff") true = Ok b
       ∧ (b = true ↔ AGroup 7 "staff" = AUser 1).
Proof.
  apply (user_owner_allows_only_that_user db_owners _ 1);
    [exact db_owners_unique | compute_done | reflexivity].
Defined.

Lemma elem_of_get_or_pass (rows : list OwnerRow) (ct : ContentType) (id : N)
  (o : OwnerRow) :
  o ∈ get_or_pass rows ct id → o ∈ rows ∧ Owner.matches ct id o = true.
Proof.
  unfold get_or_pass.
  destruct (List.filter (Owner.matches ct id) rows) as [|x [|y l]] eqn:Hf;
    [by intros ?%elem_of_nil| |by intros ?%elem_of_nil].
  intros ->%list_elem_of_singleton.
  assert (In x (List.filter (Owner.matches ct id) rows)) as Hin by (rewrite Hf; by left).
  apply filter_In in Hin as [Hin Hm]. by rewrite list_elem_of_In.
Qed.

Lemma get_or_pass_unique (rows : list OwnerRow) (ct : ContentType) (id : N)
  (o : OwnerRow) :
  owners_unique rows → o ∈ rows → Owner.matches ct id o = true →
  get_or_pass rows ct id = [o].
Proof.
  intros Huniq Hin Hm. unfold get_or_pass.
  assert (∀ x, In x (List.filter (Owner.matches ct id) rows) → x = o) as Hall.
  { intros x [Hx Hmx]%filter_In. apply list_elem_of_In in Hx.
    by eapply owners_unique_match. }
  assert (In o (List.filter (Owner.matches ct id) rows)) as Ho.
  { apply filter_In. by rewrite <- list_elem_of_In. }
  destruct (List.filter (Owner.matches ct id) rows) as [|x [|y l]] eqn:Hf; [done| |].
  - by rewrite (Hall x) by (by left).
  - destruct (filter_sublist_lookup (Owner.matches ct id) rows 0 1 x y)
      as (i' & j' & Hlt & Hi' & Hj'); [lia|by rewrite Hf..|].
    assert (In x (List.filter (Owner.matches ct id) rows)
            ∧ In y (List.filter (Owner.matches ct id) rows)) as [Hx Hy].
    { rewrite Hf. split; [by left | right; by left]. }
    apply filter_In in Hx as [_ Hmx], Hy as [_ Hmy].
    assert (i' = j'); [|lia]. by eapply (proj2 Huniq).
Qed.

(** X15: in a table without duplicates, the owners matching a user are
    exactly the user's own owner and the owners of the groups the user is a
    member of: the lookups that swallow their exceptions drop nothing. *)
Theorem owners_matching_user_spec (env : Env) (db : DB) (user : N)
  (owners : list OwnerRow) (o : OwnerRow) :
  owners_unique (users_owner db) →
  get_owners_matching_user env db user = Ok owners →
  o ∈ owners ↔
  o ∈ users_owner db
  ∧ (Owner.matches CT_user user o = true
     ∨ ∃ g, (user, g) ∈ user_groups db ∧ Owner.matches CT_group g o = true).
Proof.
  intros Huniq. unfold get_owners_matching_user.
  destruct (content_type_exists env "auth" "user"); [|done].
  destruct (content_type_exists env "auth" "group"); [|done].
  intros [= <-]. rewrite elem_of_app, list_elem_of_join. split.
  - intros [Hin|(l & Hin & Hl)].
    + apply elem_of_get_or_pass in Hin as [? ?]. split; [done | by left].
    + apply list_elem_of_fmap in Hl as (g & -> & Hg).
      apply elem_of_get_or_pass in Hin as [? ?]. split; [done|].
      right. exists g. by rewrite <- elem_of_groups_of.
  - intros [Hin [Hm|(g & Hg & Hm)]].
    + left. rewrite (get_or_pass_unique _ _ _ o) by done. by left.
    + right. exists (get_or_pass (users_owner db) CT_group g). split.
      * rewrite (get_or_pass_unique _ _ _ o) by done. by left.
      * apply list_elem_of_fmap. exists g. by rewrite elem_of_groups_of.
Qed.

Lemma owners_matching_user_spec_witness :
  mkOwner 1 (Some CT_group) (Some 7%N)
    ∈ [mkOwner 2 (Some CT_user) (Some 1%N); mkOwner 1 (Some CT_group) (Some 7%N)] ↔
  mkOwner 1 (Some CT_group) (Some 7%N) ∈ users_owner db_owners
  ∧ (Owner.matches CT_user 1 (mkOwner 1 (Some CT_group) (Some 7%N)) = true
     ∨ ∃ g, (1%N, g) ∈ user_groups db_owners
            ∧ Owner.matches CT_group g (mkOwner 1 (Some CT_group) (Some 7%N)) = true).
Proof.
  apply (owners_matching_user_spec env_all db_owners 1);
    [exact db_owners_unique | reflexivity].
Defined.

Lemma elem_of_users_in_group_named (db : DB) (name : string) (u : N) :
  u ∈ Owner.users_in_group_named db name ↔
  ∃ g, (u, g) ∈ user_groups db ∧ u ∈ auth_user db ∧ auth_group db !! g = Some name.
Proof.
  unfold Owner.users_in_group_named. rewrite list_elem_of_fmap. split.
  - intros ([u' g] & -> & Hin). apply list_elem_of_filter in Hin as [[Hu Hg] Hin].
    exists g. by apply elem_of_elements in Hin.
  - intros (g & Hin & Hu & Hg). exists (u, g). split; [done|].
    apply list_elem_of_filter. split; [done | by apply elem_of_elements].
Qed.

(** X16: every owner matching a user allows that user: when the user
    exists and has an owner row, and the groups of the user's memberships
    exist, [is_user_allowed] answers [True] for the user on each owner that
    [get_owners_matching_user] returns, with or without [include_group]. *)
Theorem matching_owners_allow_user (env : Env) (db : DB) (user : N)
  (owners : list OwnerRow) (o : OwnerRow) (include_group : bool) :
  user ∈ auth_user db →
  (∀ g, (user, g) ∈ user_groups db → is_Some (auth_group db !! g)) →
  is_Some (Owner.get_owner db (AUser user)) →
  get_owners_matching_user env db user = Ok owners →
  o ∈ owners →
  Owner.is_user_allowed db o (AUser user) include_group = Ok true.
Proof.
  intros Huser Hgroups [uo Huo]. unfold get_owners_matching_user.
  destruct (content_type_exists env "auth" "user"); [|done].
  destruct (content_type_exists env "auth" "group"); [|done].
  intros [= <-]. rewrite elem_of_app, list_elem_of_join.
  pose proof (get_owner_matches _ _ _ Huo) as (_ & Huin & Hum). simpl in Hum.
  unfold Owner.matches in Hum. apply bool_decide_eq_true in Hum as [Hut Hui].
  unfold Owner.is_user_allowed. rewrite Huo.
  intros [Hin|(l & Hin & Hl)].
  - unfold get_or_pass in Hin.
    destruct (List.filter _ (users_owner db)) as [|x [|y t]] eqn:Hf;
      [by apply elem_of_nil in Hin| |by apply elem_of_nil in Hin].
    apply list_elem_of_singleton in Hin as ->.
    assert (In x (List.filter (Owner.matches CT_user user) (users_owner db))) as Hx
      by (rewrite Hf; by left).
    apply filter_In in Hx as [Hx Hmx].
    apply bool_decide_eq_true in Hmx as [Hxt Hxi].
    unfold Owner.get_related_owners, Owner.owner. rewrite Hxt, Hxi.
    rewrite bool_decide_eq_true_2 by done. f_equal. simpl.
    assert (uo = x) as ->; [|by rewrite bool_decide_eq_true_2].
    simpl in Huo. unfold Owner.objects_get in Huo.
    assert (List.find (Owner.matches CT_user user) (users_owner db)
            = hd_error (List.filter (Owner.matches CT_user user) (users_owner db))) as Hfind.
    { generalize (users_owner db). intros rows.
      induction rows as [|r rows IH]; simpl; [done|].
      by destruct (Owner.matches CT_user user r). }
    rewrite Hfind, Hf in Huo. by injection Huo.
  - apply list_elem_of_fmap in Hl as (g & -> & Hg).
    apply elem_of_get_or_pass in Hin as [Hin Hm].
    apply bool_decide_eq_true in Hm as [Hot Hoi].
    apply elem_of_groups_of in Hg.
    destruct (Hgroups g Hg) as [name Hname].
    unfold Owner.get_related_owners, Owner.owner. rewrite Hot, Hoi, Hname. simpl.
    f_equal. apply existsb_exists. exists uo. split; [|by apply bool_decide_eq_true].
    apply filter_In. split; [by apply list_elem_of_In|].
    assert (Owner.owner_id_in (Owner.users_in_group_named db name) uo
            && bool_decide (owner_type uo = Some CT_user) = true) as Hq.
    { apply andb_true_iff. split; [|by apply bool_decide_eq_true].
      unfold Owner.owner_id_in. rewrite Hui. apply bool_decide_eq_true.
      apply elem_of_users_in_group_named. by exists g. }
    destruct include_group; [by rewrite Hq | done].
Qed.

Lemma matching_owners_allow_user_witness :
  Owner.is_user_allowed db_owners (mkOwner 1 (Some CT_group) (Some 7%N)) (AUser 1) false
  = Ok true.
Proof.
  apply (matching_owners_allow_user env_all db_owners 1
           [mkOwner 2 (Some CT_user) (Some 1%N); mkOwner 1 (Some CT_group) (Some 7%N)]);
    [compute_done | | by eexists | reflexivity | compute_done].
  intros g Hg. unfold db_owners in Hg. simpl in Hg.
  apply elem_of_singleton in Hg. injection Hg as ->. by eexists.
Defined.

(** ** Reconciliation of one group *)

Section GroupPreservation.

(** A relation between the database before and after, kept by the writes
    a reconciliation of [group] makes under the settings [env]. *)
Variable env : Env.
Variable group : N.
Variable R : DB → DB → Prop.
Hypothesis R_refl : ∀ db, R db db.
Hypothesis R_trans : ∀ db1 db2 db3, R db1 db2 → R db2 db3 → R db1 db3.
Hypothesis R_perms_add : ∀ db p, R db (permissions_add group p db).
Hypothesis R_perms_remove : ∀ db p, R db (permissions_remove group p db).
Hypothesis R_owner :
  isImportingData env = false →
  ∀ db name o rows,
    Owner.objects_create (users_owner db) (AGroup group name) = Ok (o, rows) →
    R db (set_users_owner (λ _, rows) db).
Hypothesis R_group :
  ∀ db name, auth_group db !! group = Some name →
             R db (set_auth_group <[group := name]> db).
Hypothesis R_profile :
  ∀ db0 db u, R db0 db → (u, group) ∈ user_groups db0 →
              R db (UserProfile.save db (UserProfile.mk u None)).
Hypothesis R_ruleset :
  ∀ db name, users_ruleset db !! (group, name) = None →
             R db (set_users_ruleset
                     <[(group, name) := RuleSet.normalize no_flags]> db).

Lemma create_owner_G (db db' : DB) (name : string) :
  create_owner env db (AGroup group name) = Ok db' → R db db'.
Proof using R_refl R_owner.
  unfold create_owner. destruct (isImportingData env) eqn:Himp.
  { intros [= <-]. apply R_refl. }
  unfold Owner.create, id.
  destruct (Owner.get_owner db _); simpl.
  { intros [= <-]. apply R_refl. }
  destruct (Owner.objects_create (users_owner db) _) as [[o rows]|[]] eqn:Hc; simpl;
    intros [= <-]; [by eapply R_owner | apply R_refl].
Qed.

Lemma for_each_G {A : Type} (body : DB → A → result DB) (xs : list A) (db db' : DB) :
  (∀ db1 x db2, body db1 x = Ok db2 → R db1 db2) →
  for_each body xs db = Ok db' → R db db'.
Proof using R_refl R_trans.
  intros Hbody. apply (for_each_inv (R db)); [|apply R_refl].
  intros db1 x db2 _ H1 Hx. eapply R_trans; [exact H1 | by eapply Hbody].
Qed.

Lemma validate_primary_group_on_save_G (db db' : DB) :
  validate_primary_group_on_save db group = Ok db' → R db db'.
Proof using R_refl R_trans R_profile.
  unfold validate_primary_group_on_save.
  apply (for_each_inv (R db)); [|apply R_refl].
  intros db1 u db2 Hu H1 H. ok_bind H.
  eapply R_trans; [exact H1|].
  destruct (UserProfile.stale_primary_group _ _ _); injection H as <-; [|apply R_refl].
  apply (R_profile db); [done | by apply elem_of_user_set].
Qed.

Lemma add_round_G (gp : gset string) (db db' : DB) (perm : string) :
  add_round env group gp db perm = Ok db' → R db db'.
Proof using R_refl R_perms_add.
  unfold add_round. case_bool_decide as Hdec.
  { intros [= <-]. apply R_refl. }
  intros H. ok_bind H. destruct a; injection H as <-; [apply R_perms_add | apply R_refl].
Qed.

Lemma remove_round_G (gp : gset string) (db db' : DB) (perm : string) :
  remove_round env group gp db perm = Ok db' → R db db'.
Proof using R_refl R_perms_remove.
  unfold remove_round. case_bool_decide as Hdec.
  - intros H. ok_bind H. destruct a; injection H as <-;
      [apply R_perms_remove | apply R_refl].
  - intros [= <-]. apply R_refl.
Qed.

Lemma inherit_round_G (gp : gset string) (parent child action : string)
  (st st' : Locals) :
  inherit_round env group gp parent child st action = Ok st' →
  R (l_db st) (l_db st').
Proof using R_refl R_perms_add.
  unfold inherit_round. case_bool_decide as Hdec; [|intros [= <-]; apply R_refl].
  case_bool_decide as Hdec2; [intros [= <-]; apply R_refl|].
  destruct (l_ruleset st); [|done]. intros H. ok_bind H. ok_bind H.
  destruct a0; injection H as <-; simpl; [apply R_perms_add | apply R_refl].
Qed.

Lemma inherit_pair_G (gp : gset string) (st st' : Locals) (pair : string * string) :
  inherit_pair env group gp st pair = Ok st' → R (l_db st) (l_db st').
Proof using R_refl R_trans R_perms_add.
  unfold inherit_pair.
  apply (for_each_inv (λ s, R (l_db st) (l_db s))); [|apply R_refl].
  intros s1 x s2 _ H1 Hx. eapply R_trans; [exact H1 | by eapply inherit_round_G].
Qed.

Lemma ruleset_round_G (objects_create : DB → RuleSet.t → result DB)
  (rulesets : gmap (N * string) Flags) (st st' : Locals) (rulename : string) :
  create_keeps_for group R objects_create →
  ruleset_round env objects_create group rulesets st rulename = Ok st' →
  R (l_db st) (l_db st').
Proof using R_refl.
  intros Hcreate. unfold ruleset_round. intros H.
  destruct (rulesets !! (group, rulename)) as [f|]; simpl in H.
  { ok_bind H. destruct a. injection H as <-. apply R_refl. }
  destruct (users_ruleset (l_db st) !! (group, rulename)) as [f|] eqn:Hrow; simpl in H.
  { ok_bind H. destruct a. injection H as <-. apply R_refl. }
  destruct (objects_create (l_db st) _) as [db1|] eqn:Hc; simpl in H; [|done].
  ok_bind H. destruct a. injection H as <-. simpl.
  eapply Hcreate; [|exact Hc]. exact Hrow.
Qed.

Lemma update_group_roles_locals_G (objects_create : DB → RuleSet.t → result DB)
  (db : DB) (st : Locals) :
  create_keeps_for group R objects_create →
  update_group_roles_locals env objects_create db group = Ok st → R db (l_db st).
Proof using R_refl R_trans R_perms_add R_perms_remove.
  intros Hcreate. unfold update_group_roles_locals. intros H.
  ok_bind H. rename a into st1. ok_bind H. rename a into db2.
  ok_bind H. rename a into db3.
  assert (R db (l_db st1)) as H1.
  { revert E. apply (for_each_inv (λ s, R db (l_db s))); [|apply R_refl].
    intros s1 x s2 _ Hs1 Hx. eapply R_trans; [exact Hs1 | by eapply ruleset_round_G]. }
  assert (R (l_db st1) db2) as H2.
  { revert E0. apply for_each_G. intros ???. apply add_round_G. }
  assert (R db2 db3) as H3.
  { revert E1. apply for_each_G. intros ???. apply remove_round_G. }
  assert (R db3 (l_db st)) as H4.
  { revert H. apply (for_each_inv (λ s, R db3 (l_db s))); [|apply R_refl].
    intros s1 x s2 _ Hs1 Hx. eapply R_trans; [exact Hs1 | by eapply inherit_pair_G]. }
  eauto.
Qed.

Lemma update_group_roles_body_G (objects_create : DB → RuleSet.t → result DB)
  (db db' : DB) :
  create_keeps_for group R objects_create →
  update_group_roles_body env objects_create db group = Ok db' → R db db'.
Proof using R_refl R_trans R_perms_add R_perms_remove.
  intros Hcreate. unfold update_group_roles_body.
  destruct (negb (canAppAccessDatabase env)); [intros [= <-]; apply R_refl|].
  intros H. ok_bind H. injection H as <-. by eapply update_group_roles_locals_G.
Qed.

Lemma Group_save_with_G (update : DB → N → result DB) (db db' : DB) (name : string) :
  (∀ db1 db2, update db1 group = Ok db2 → R db1 db2) →
  auth_group db !! group = Some name →
  Group_save_with update env db group name = Ok db' → R db db'.
Proof using R_refl R_trans R_owner R_group R_profile.
  intros Hup Hname. unfold Group_save_with. intros H. ok_bind H. ok_bind H.
  eapply R_trans; [by apply R_group|].
  eapply R_trans; [by eapply create_owner_G|].
  eapply R_trans; [by eapply Hup|].
  by eapply validate_primary_group_on_save_G.
Qed.

Lemma RuleSet_save_with_new_G (update : DB → N → result DB) :
  (∀ db1 db2, update db1 group = Ok db2 → R db1 db2) →
  create_keeps_for group R (RuleSet_save_with update env).
Proof using R_refl R_trans R_owner R_group R_profile R_ruleset.
  intros Hup db name db' Hnew. unfold RuleSet_save_with.
  cbn [RuleSet.group RuleSet.name RuleSet.flags set_users_ruleset auth_group].
  destruct (auth_group db !! group) as [nm|] eqn:Hnm; [|done]. intros H.
  eapply R_trans; [by apply R_ruleset|]. by eapply Group_save_with_G.
Qed.

Lemma update_group_roles_at_G (depth : nat) (db db' : DB) :
  update_group_roles_at depth env db group = Ok db' → R db db'.
Proof using All.
  revert db db'. induction depth as [|d IH]; intros db db'; [done|].
  simpl. apply update_group_roles_body_G.
  apply RuleSet_save_with_new_G. intros ??. apply IH.
Qed.

End GroupPreservation.

Lemma group_frame_refl (group : N) (db : DB) : group_frame group db db.
Proof. repeat split; try done; intros; by left. Qed.

Lemma group_frame_trans (group : N) (db1 db2 db3 : DB) :
  group_frame group db1 db2 → group_frame group db2 db3 → group_frame group db1 db3.
Proof.
  intros (Ha & Hb & Hc & Hd & He & Hf & Hg & Hh & Hi)
         (Ha' & Hb' & Hc' & Hd' & He' & Hf' & Hg' & Hh' & Hi').
  split; [congruence|]. split; [congruence|]. split; [congruence|]. split; [congruence|].
  split; [|split; [|split; [|split]]].
  - intros g p Hne. by rewrite He', He.
  - intros k. destruct (Hf' k) as [->|(? & Hn & ->)]; [done|].
    right. split; [done|]. split; [|done].
    destruct (Hf k) as [<-|(_ & ? & Hs)]; [done | congruence].
  - intros u. destruct (Hg' u) as [->|[Hu ->]]; [done|].
    right. split; [by rewrite <- Hc | done].
  - intros o Ho. by apply Hh', Hh.
  - intros o Ho. destruct (Hi' o Ho) as [Ho2|Hm]; [|by right]. by apply Hi.
Qed.

Ltac frame := repeat split; try done; simpl; try (intros; by left).

Lemma group_frame_perms_add (group : N) (db : DB) (p : Permission) :
  group_frame group db (permissions_add group p db).
Proof.
  frame.
  - intros [[= ? ?]|?]%elem_of_set_add; done.
  - intros ?. apply elem_of_set_add. by right.
Qed.

Lemma group_frame_perms_remove (group : N) (db : DB) (p : Permission) :
  group_frame group db (permissions_remove group p db).
Proof.
  frame.
  - by intros [_ ?]%elem_of_set_remove.
  - intros ?. apply elem_of_set_remove. split; [by intros [= ? ?] | done].
Qed.

Lemma group_frame_owner (group : N) (db : DB) (name : string) (o : OwnerRow)
  (rows : list OwnerRow) :
  Owner.objects_create (users_owner db) (AGroup group name) = Ok (o, rows) →
  group_frame group db (set_users_owner (λ _, rows) db).
Proof.
  intros Hc. unfold Owner.objects_create in Hc.
  destruct (existsb _ _); [done|]. injection Hc as <- <-. frame.
  - intros o Ho. apply elem_of_app. by left.
  - intros o [?|Ho%list_elem_of_singleton]%elem_of_app; [by left|].
    subst o. right. unfold Owner.matches. simpl. by apply bool_decide_eq_true.
Qed.

Lemma group_frame_group (group : N) (db : DB) (name : string) :
  auth_group db !! group = Some name →
  group_frame group db (set_auth_group <[group := name]> db).
Proof. intros Hname. frame. by apply insert_id. Qed.

Lemma group_frame_profile (group : N) (db0 db : DB) (u : N) :
  group_frame group db0 db → (u, group) ∈ user_groups db0 →
  group_frame group db (UserProfile.save db (UserProfile.mk u None)).
Proof.
  intros (_ & _ & Hug & _) Hu. frame. intros u'. rewrite Hug.
  destruct (decide (u' = u)) as [->|Hne].
  - right. by rewrite lookup_insert_eq.
  - left. by rewrite lookup_insert_ne.
Qed.

Lemma group_frame_ruleset (group : N) (db : DB) (name : string) :
  users_ruleset db !! (group, name) = None →
  group_frame group db
    (set_users_ruleset <[(group, name) := RuleSet.normalize no_flags]> db).
Proof.
  intros Hnone. frame. intros k.
  destruct (decide (k = (group, name))) as [->|Hne].
  - right. by rewrite lookup_insert_eq.
  - left. by rewrite lookup_insert_ne.
Qed.

(** X17: a reconciliation of one group touches nothing but that group: the
    groups and their names, the users, the memberships and the rows of
    other models are as before, and so are the permissions of every other
    group, every ruleset that had a row, the profile of every user outside
    the group, and every owner.  What can appear is a ruleset of the group
    with no flag set, an owner for the group, and a cleared primary group
    for a member. *)
Theorem update_group_roles_frame (env : Env) (db db' : DB) (group : N) :
  update_group_roles env db group = Ok db' →
  group_frame group db db'.
Proof.
  unfold update_group_roles.
  apply (update_group_roles_at_G env group (group_frame group)).
  - apply group_frame_refl.
  - apply group_frame_trans.
  - apply group_frame_perms_add.
  - apply group_frame_perms_remove.
  - intros _. apply group_frame_owner.
  - apply group_frame_group.
  - apply group_frame_profile.
  - apply group_frame_ruleset.
Qed.

Lemma update_group_roles_frame_witness :
  ∃ db', update_group_roles env_all db_no_rulesets 1 = Ok db'
         ∧ group_frame 1 db_no_rulesets db'.
Proof.
  destruct (is_ok_inv (update_group_roles env_all db_no_rulesets 1)) as [db' Hdb'];
    [vm_compute; reflexivity|].
  exists db'. split; [exact Hdb'|].
  exact (update_group_roles_frame env_all db_no_rulesets db' 1 Hdb').
Defined.

Lemma update_group_roles_at_owners_same (depth : nat) (env : Env) (db db' : DB)
  (group : N) :
  isImportingData env = true →
  update_group_roles_at depth env db group = Ok db' → owners_same db db'.
Proof.
  intros Himp. apply (update_group_roles_at_G env group owners_same); try done.
  - intros d1 d2 d3. unfold owners_same. congruence.
  - congruence.
Qed.

(** X18: a group saved while data is imported gets no owner, and such a
    group cannot be deleted: the save leaves the table of owners as it is,
    and the receiver that deletes the owner then finds [None] and raises
    [AttributeError]. *)
Theorem imported_group_cannot_be_deleted (env : Env) (db db1 : DB) (pk : N)
  (name : string) :
  isImportingData env = true →
  Owner.get_owner db (AGroup pk name) = None →
  Group_save env db pk name = Ok db1 →
  Owner.get_owner db1 (AGroup pk name) = None
  ∧ Group_delete db1 pk name = Raise AttributeError.
Proof.
  intros Himp Hnone Hsave.
  assert (users_owner db1 = users_owner db) as Hrows.
  { unfold Group_save, Group_save_with, create_owner in Hsave. rewrite Himp in Hsave.
    simpl in Hsave. ok_bind Hsave.
    apply (update_group_roles_at_owners_same _ _ _ _ _ Himp) in E.
    apply (validate_primary_group_on_save_G pk owners_same) in Hsave; try done.
    - unfold owners_same in *. by rewrite Hsave, E.
    - intros d1 d2 d3. unfold owners_same. congruence. }
  assert (Owner.get_owner db1 (AGroup pk name) = None) as Hnone1.
  { simpl in *. by rewrite Hrows. }
  split; [done|]. unfold Group_delete, delete_owner.
  change (Owner.get_owner (delete_cascade pk db1) (AGroup pk name))
    with (Owner.get_owner db1 (AGroup pk name)).
  by rewrite Hnone1.
Qed.

Lemma imported_group_cannot_be_deleted_witness :
  ∃ db1, Group_save env_import db_no_rulesets 3 "new" = Ok db1
         ∧ Owner.get_owner db1 (AGroup 3 "new") = None
         ∧ Group_delete db1 3 "new" = Raise AttributeError.
Proof.
  destruct (is_ok_inv (Group_save env_import db_no_rulesets 3 "new")) as [db1 Hdb1];
    [vm_compute; reflexivity|].
  exists db1. split; [exact Hdb1|].
  exact (imported_group_cannot_be_deleted env_import db_no_rulesets db1 3 "new"
           eq_refl eq_refl Hdb1).
Defined.

Lemma RuleSet_save_with_row (update : DB → N → result DB) (env : Env) (db db' : DB)
  (self : RuleSet.t) :
  (∀ db1 g db2, update db1 g = Ok db2 → rulesets_kept db1 db2) →
  RuleSet_save_with update env db self = Ok db' →
  is_Some (users_ruleset db' !! (RuleSet.group self, RuleSet.name self)).
Proof.
  intros Hup. unfold RuleSet_save_with.
  destruct (auth_group _ !! _) as [name|]; [|done]. intros H.
  apply (Group_save_with_R rulesets_kept) in H; try kept; [|done].
  eexists. apply H. simpl. apply lookup_insert_eq.
Qed.

Lemma ruleset_rounds_complete (env : Env) (oc : DB → RuleSet.t → result DB)
  (group : N) (db0 : DB) (names : list string) (st st' : Locals) :
  create_keeps rulesets_kept oc →
  (∀ db r db', oc db r = Ok db' →
               is_Some (users_ruleset db' !! (RuleSet.group r, RuleSet.name r))) →
  rulesets_kept db0 (l_db st) →
  for_each (ruleset_round env oc group (users_ruleset db0)) names st = Ok st' →
  rulesets_kept (l_db st) (l_db st')
  ∧ ∀ name, name ∈ names → is_Some (users_ruleset (l_db st') !! (group, name)).
Proof.
  intros Hkeeps Hrow. revert st. induction names as [|n names IH]; intros st H0 H.
  { injection H as <-. split; [kept | by intros ? ?%elem_of_nil]. }
  cbn [for_each] in H. ok_bind H. rename a into st1.
  pose proof (ruleset_round_R rulesets_kept rulesets_kept_refl _ _ _ _ _ _ _ Hkeeps E)
    as H1.
  destruct (IH st1) as [H2 Hall]; [by eapply rulesets_kept_trans | done |].
  split; [by eapply rulesets_kept_trans|].
  intros name [->|Hin]%elem_of_cons; [|by apply Hall].
  assert (is_Some (users_ruleset (l_db st1) !! (group, n))) as [f Hf].
  { unfold ruleset_round in E.
    destruct (users_ruleset db0 !! (group, n)) as [f|] eqn:Hsnap; simpl in E.
    { ok_bind E. destruct a. injection E as <-. simpl. exists f. by apply H0. }
    destruct (users_ruleset (l_db st) !! (group, n)) as [f|] eqn:Hcur; simpl in E.
    { ok_bind E. destruct a. injection E as <-. simpl. by exists f. }
    destruct (oc (l_db st) _) as [db1|] eqn:Hc; simpl in E; [|done].
    ok_bind E. destruct a. injection E as <-. simpl.
    by apply Hrow in Hc. }
  exists f. by apply H2.
Qed.

(** X19: after a reconciliation of a group that is allowed to use the
    database, every ruleset name has a row for the group. *)
Theorem update_group_roles_creates_rulesets (env : Env) (db db' : DB) (group : N) :
  canAppAccessDatabase env = true →
  update_group_roles env db group = Ok db' →
  rulesets_complete db' group.
Proof.
  intros Hacc. unfold update_group_roles, recursion_limit.
  cbn [update_group_roles_at]. unfold update_group_roles_body. rewrite Hacc.
  cbn [negb]. intros H. ok_bind H. injection H as <-. rename a into st.
  unfold update_group_roles_locals in E.
  ok_bind E. rename a into st1. ok_bind E. rename a into db2.
  ok_bind E. rename a into db3.
  apply ruleset_rounds_complete in E0 as [_ Hall]; [| |
    |apply rulesets_kept_refl].
  - assert (rulesets_kept (l_db st1) (l_db st)) as Hkept.
    { assert (rulesets_kept (l_db st1) db2) as H2.
      { revert E1. apply (for_each_R rulesets_kept); try kept.
        intros ???. apply add_round_R; kept. }
      assert (rulesets_kept db2 db3) as H3.
      { revert E2. apply (for_each_R rulesets_kept); try kept.
        intros ???. apply remove_round_R; kept. }
      assert (rulesets_kept db3 (l_db st)) as H4.
      { revert E. apply (for_each_inv (λ s, rulesets_kept db3 (l_db s))); [|kept].
        intros s1 x s2 _ Hs1 Hx. eapply rulesets_kept_trans; [exact Hs1|].
        revert Hx. apply inherit_pair_R; kept. }
      eauto using rulesets_kept_trans. }
    intros name Hname. destruct (Hall name Hname) as [f Hf]. exists f. by apply Hkept.
  - intros db1 r db1' Hnone.
    apply (RuleSet_save_with_new_R rulesets_kept); try kept; [|done].
    intros ???. apply update_group_roles_at_keeps_rulesets.
  - intros db1 r db1'. apply RuleSet_save_with_row.
    intros ???. apply update_group_roles_at_keeps_rulesets.
Qed.

Lemma update_group_roles_creates_rulesets_witness :
  ∃ db', update_group_roles env_all db_no_rulesets 1 = Ok db'
         ∧ rulesets_complete db' 1.
Proof.
  destruct (is_ok_inv (update_group_roles env_all db_no_rulesets 1)) as [db' Hdb'];
    [vm_compute; reflexivity|].
  exists db'. split; [exact Hdb'|].
  exact (update_group_roles_creates_rulesets env_all db_no_rulesets db' 1 eq_refl Hdb').
Defined.

Lemma for_each_ext_inv {A S : Type} (P : S → Prop) (b1 b2 : S → A → result S)
  (xs : list A) (s : S) :
  (∀ s1 x, x ∈ xs → P s1 → b1 s1 x = b2 s1 x) →
  (∀ s1 x s2, x ∈ xs → P s1 → b1 s1 x = Ok s2 → P s2) →
  P s → for_each b1 xs s = for_each b2 xs s.
Proof.
  revert s. induction xs as [|x xs IH]; intros s Heq Hinv Hs; [done|].
  cbn [for_each]. rewrite <- (Heq s x) by (done || by left).
  destruct (b1 s x) as [s1|e] eqn:Hx; [|done]. simpl.
  apply IH.
  - intros s2 y Hy. apply Heq. by right.
  - intros s2 y s3 Hy. apply Hinv. by right.
  - eapply Hinv; [by left | done | done].
Qed.

Lemma Group_save_with_ext (u1 u2 : DB → N → result DB) (env : Env) (db : DB)
  (pk : N) (name : string) :
  (∀ db2, create_owner env (set_auth_group <[pk := name]> db) (AGroup pk name) = Ok db2 →
          u1 db2 pk = u2 db2 pk) →
  Group_save_with u1 env db pk name = Group_save_with u2 env db pk name.
Proof.
  intros H. unfold Group_save_with.
  destruct (create_owner env _ (AGroup pk name)) as [db2|e]; [|done].
  simpl. by rewrite (H db2 eq_refl).
Qed.

Lemma update_group_roles_at_S (d : nat) (env : Env) (db : DB) (group : N) :
  update_group_roles_at (S d) env db group
  = update_group_roles_body env (RuleSet_save_with (update_group_roles_at d env) env)
                            db group.
Proof. done. Qed.

Lemma update_group_roles_at_succ (depth : nat) (env : Env) (db : DB) (group : N) :
  missing_rulesets db group < depth →
  update_group_roles_at (S depth) env db group = update_group_roles_at depth env db group.
Proof.
  revert db. induction depth as [|d IH]; intros db Hmiss; [lia|].
  rewrite (update_group_roles_at_S (S d)), (update_group_roles_at_S d).
  unfold update_group_roles_body.
  destruct (negb (canAppAccessDatabase env)); [done|].
  f_equal. unfold update_group_roles_locals. f_equal.
  apply (for_each_ext_inv (λ st, (missing_rulesets (l_db st) group ≤ d)%nat));
    [| |simpl; lia].
  - intros st rulename Hname Hst. unfold ruleset_round. f_equal.
    destruct (users_ruleset db !! (group, rulename)); [done|].
    destruct (users_ruleset (l_db st) !! (group, rulename)) eqn:Hrow; [done|].
    f_equal. unfold RuleSet_save_with.
    cbn [RuleSet.group RuleSet.name RuleSet.flags].
    destruct (auth_group _ !! group) as [name|]; [|done].
    apply Group_save_with_ext. intros db2 Hdb2. apply IH.
    apply (create_owner_R rulesets_kept) in Hdb2; [|kept..].
    apply (missing_rulesets_kept _ _ group) in Hdb2.
    pose proof (missing_rulesets_insert (l_db st) group rulename
                  (RuleSet.normalize no_flags) Hname Hrow) as Hlt.
    change (missing_rulesets (set_auth_group _ (set_users_ruleset _ (l_db st))) group)
      with (missing_rulesets
              (set_users_ruleset <[(group, rulename) := RuleSet.normalize no_flags]>
                                 (l_db st)) group)
      in Hdb2.
    lia.
  - intros st rulename st' Hname Hst Hround.
    apply (ruleset_round_R rulesets_kept) in Hround; [|kept|].
    + apply (missing_rulesets_kept _ _ group) in Hround. lia.
    + intros db1 r db2 Hnone.
      apply (RuleSet_save_with_new_R rulesets_kept); try kept; [|done].
      intros ???. apply update_group_roles_at_keeps_rulesets.
Qed.

Lemma update_group_roles_at_le (d1 d2 : nat) (env : Env) (db : DB) (group : N) :
  missing_rulesets db group < d1 → (d1 ≤ d2)%nat →
  update_group_roles_at d2 env db group = update_group_roles_at d1 env db group.
Proof.
  intros Hmiss Hle. induction Hle as [|d2 Hle IH]; [done|].
  rewrite update_group_roles_at_succ by lia. exact IH.
Qed.

(** X20: the calls of [update_group_roles] that nest through the creation
    of a missing ruleset go no deeper than the number of rulesets the group
    is missing, plus one: with any greater bound on the nesting the function
    gives the result it gives with none, and that result is never the
    interpreter's [RecursionError]. *)
Theorem update_group_roles_nesting_bounded (depth : nat) (env : Env) (db : DB)
  (group : N) :
  missing_rulesets db group < depth →
  update_group_roles_at depth env db group = update_group_roles env db group
  ∧ update_group_roles env db group ≠ Raise RecursionError.
Proof.
  intros Hmiss. split; [|apply update_group_roles_within_limit].
  unfold update_group_roles.
  assert (missing_rulesets db group < recursion_limit) as Hlim.
  { unfold recursion_limit, missing_rulesets. apply Nat.lt_succ_r, length_filter. }
  destruct (Nat.le_ge_cases depth recursion_limit) as [Hle|Hge].
  - symmetry. by apply update_group_roles_at_le.
  - by apply update_group_roles_at_le.
Qed.

Lemma update_group_roles_nesting_bounded_witness :
  update_group_roles_at 1 env_all (db_group view_change view_change) 1
  = update_group_roles env_all (db_group view_change view_change) 1
  ∧ update_group_roles env_all (db_group view_change view_change) 1
    ≠ Raise RecursionError.
Proof.
  apply (update_group_roles_nesting_bounded 1 env_all (db_group view_change view_change) 1).
  vm_compute. lia.
Defined.

(** ** Tokens *)

(** X21: a token that got the default expiry on the day it was made is
    active on every day up to the 365th day after, that day included, and on
    no later day; a revoked token is never active, and a token without
    expiry date never expires. *)
Theorem token_active_window (revoked : bool) (created today : Z) :
  (ApiTokenRow.active (ApiTokenRow.mk revoked (Some (default_token_expiry created))) today
   = true ↔ revoked = false ∧ (today ≤ created + 365)%Z)
  ∧ ApiTokenRow.expired (ApiTokenRow.mk revoked None) today = false.
Proof.
  split; [|done].
  unfold ApiTokenRow.active, ApiTokenRow.expired, default_token_expiry. simpl.
  rewrite andb_true_iff, !negb_true_iff, bool_decide_eq_false.
  split; intros [? ?]; (split; [done | lia]).
Qed.

Lemma py_replace_no_char (c : ascii) (new s : string) :
  has_char c s = false → py_replace c new s = s.
Proof.
  induction s as [|d s IH]; simpl; [done|].
  intros [Hd Hs]%orb_false_iff. apply bool_decide_eq_false in Hd.
  rewrite decide_False by done. by rewrite IH.
Qed.

Lemma py_replace_app (c : ascii) (new a b : string) :
  py_replace c new (a +:+ b) = py_replace c new a +:+ py_replace c new b.
Proof.
  induction a as [|d a IH]; [done|].
  change (py_replace c new (String d (a +:+ b))
          = py_replace c new (String d a) +:+ py_replace c new b).
  simpl. destruct (decide (d = c)); rewrite IH; [by rewrite str_app_assoc | done].
Qed.

Lemma py_replace_gone (c : ascii) (new s : string) :
  has_char c new = false → has_char c (py_replace c new s) = false.
Proof.
  intros Hnew. induction s as [|d s IH]; simpl; [done|].
  destruct (decide (d = c)) as [->|Hd].
  - by rewrite has_char_app, Hnew, IH.
  - simpl. by rewrite bool_decide_eq_false_2, IH.
Qed.

Lemma has_char_slice_to (c : ascii) (n : nat) (s : string) :
  has_char c s = false → has_char c (Py.slice_to n s) = false.
Proof.
  revert s. induction n as [|n IH]; intros [|d s]; simpl; try done.
  intros [Hd Hs]%orb_false_iff. by rewrite Hd, IH.
Qed.

Lemma slice_to_app_l (n : nat) (a b : string) :
  (n ≤ String.length a)%nat → Py.slice_to n (a +:+ b) = Py.slice_to n a.
Proof.
  revert a. induction n as [|n IH]; intros [|d a] Hn; simpl in *; try done; try lia.
  by rewrite IH by lia.
Qed.

Lemma slice_to_app_r (n : nat) (a b : string) :
  Py.slice_to (String.length a + n) (a +:+ b) = a +:+ Py.slice_to n b.
Proof. induction a as [|d a IH]; [done|]. simpl. by rewrite IH. Qed.

Lemma slice_from_app_l (n : nat) (a b : string) :
  (n ≤ String.length a)%nat → Py.slice_from n (a +:+ b) = Py.slice_from n a +:+ b.
Proof.
  revert a. induction n as [|n IH]; intros [|d a] Hn; simpl in *; try done; try lia.
  apply IH. lia.
Qed.

Lemma slice_from_app_r (n : nat) (a b : string) :
  Py.slice_from (String.length a + n) (a +:+ b) = Py.slice_from n b.
Proof. induction a as [|d a IH]; [by destruct n|]. exact IH. Qed.

(** X22: what the redacted form of a generated key shows.  With the default
    prefix, a random part of 40 characters and a date [YYYY-MM-DD], the key
    has 53 characters, enough for the validator of the field, and the
    token of a saved row is the prefix, the first 4 characters of the random
    part, 33 stars, the last 3 characters of the random part, a hyphen and
    the date without its hyphens. *)
Theorem default_token_redacted (random y m d : string) (pk : N) (revoked : bool) :
  String.length random = 40 →
  String.length y = 4 → String.length m = 2 → String.length d = 2 →
  has_char "-" y = false → has_char "-" m = false → has_char "-" d = false →
  let key := default_token random (y +:+ "-" +:+ m +:+ "-" +:+ d) in
  key = "inv-" +:+ random +:+ "-" +:+ y +:+ m +:+ d
  ∧ String.length key = 53
  ∧ ApiToken.key_validates (ApiToken.mk (Some pk) key revoked)
  ∧ ApiToken.token (ApiToken.mk (Some pk) key revoked)
    = "inv-" +:+ Py.slice_to 4 random +:+ Py.repeat_char "*" 33
      +:+ Py.slice_last 3 random +:+ "-" +:+ y +:+ m +:+ d.
Proof.
  intros Hr Hy Hm Hd Hyc Hmc Hdc key.
  assert (key = "inv-" +:+ random +:+ "-" +:+ y +:+ m +:+ d) as Hkey.
  { unfold key, default_token, generate_key. cbv zeta.
    rewrite !py_replace_app.
    rewrite (py_replace_no_char "-" "" y), (py_replace_no_char "-" "" m),
      (py_replace_no_char "-" "" d) by done.
    done. }
  assert (String.length key = 53) as Hlen.
  { rewrite Hkey, !length_app, Hr, Hy, Hm, Hd. done. }
  split; [done|]. split; [done|]. split.
  { unfold ApiToken.key_validates. cbn [ApiToken.key]. lia. }
  unfold ApiToken.token. cbn [ApiToken.pk ApiToken.key].
  unfold Py.len, Py.slice_last. rewrite Hlen.
  assert (Py.slice_to 8 key = "inv-" +:+ Py.slice_to 4 random) as ->.
  { rewrite Hkey. rewrite (slice_to_app_r 4 "inv-").
    by rewrite slice_to_app_l by lia. }
  assert (Py.slice_from (53 - 12) key
          = Py.slice_last 3 random +:+ "-" +:+ y +:+ m +:+ d) as ->.
  { rewrite Hkey. rewrite (slice_from_app_r 37 "inv-").
    rewrite slice_from_app_l by lia. unfold Py.slice_last. by rewrite Hr. }
  by rewrite !str_app_assoc.
Qed.

Lemma default_token_redacted_witness :
  ApiToken.token
    (ApiToken.mk (Some 1%N)
       (default_token "0123456789abcdef0123456789abcdef01234567" "2024-05-17") false)
  = "inv-0123*********************************567-20240517".
Proof.
  apply (default_token_redacted "0123456789abcdef0123456789abcdef01234567"
           "2024" "05" "17" 1 false); reflexivity.
Defined.

(** X23: whatever the two helpers make of the name, a name that
    [sanitize_name] returns has at most 100 characters and no space. *)
Theorem sanitize_name_bounds (strip : string → string)
  (remove_non_printable_characters strip_html_tags : string → result string)
  (name sanitized : string) :
  sanitize_name strip remove_non_printable_characters strip_html_tags name
  = Ok sanitized →
  (String.length sanitized ≤ 100)%nat ∧ has_char " " sanitized = false.
Proof.
  unfold sanitize_name. cbv zeta. intros H. ok_bind H. ok_bind H.
  assert (sanitized = Py.slice_to 100 (py_replace " " "-" a0)) as -> by congruence.
  split.
  - rewrite length_slice_to. lia.
  - by apply has_char_slice_to, py_replace_gone.
Qed.

Lemma sanitize_name_bounds_witness :
  sanitize_name id Ok Ok "my token name" = Ok "my-token-name"
  ∧ (String.length "my-token-name" ≤ 100)%nat ∧ has_char " " "my-token-name" = false.
Proof.
  split; [reflexivity|].
  apply (sanitize_name_bounds id Ok Ok "my token name"). reflexivity.
Defined.

(** ** Profiles and memberships *)


(** X25: [user.groups.clear()] leaves the profile alone: the receiver acts
    on additions and removals only, so a user whose primary group is set
    keeps it while belonging to no group any more, and the invariant of the
    primary group is broken. *)
Theorem groups_clear_keeps_primary_group (db : DB) (u g : N) :
  users_userprofile db !! u = Some (Some g) →
  ∃ db', groups_clear db u = Ok db'
         ∧ groups_of db' u = []
         ∧ users_userprofile db' !! u = Some (Some g)
         ∧ ¬ primary_group_valid db'.
Proof.
  intros Hpg. exists (set_user_groups (filter (λ x, x.1 ≠ u)) db).
  split.
  { unfold groups_clear, validate_primary_group_on_group_change.
    by rewrite !bool_decide_eq_false_2 by compute_done. }
  set (db' := set_user_groups (filter (λ x, x.1 ≠ u)) db).
  assert (∀ g', (u, g') ∉ user_groups db') as Hnone.
  { intros g' Hin. simpl in Hin. apply elem_of_filter in Hin as [Hne _].
    by apply Hne. }
  split; [|split; [done|]].
  - destruct (groups_of db' u) as [|g' l] eqn:Hl; [done|].
    destruct (Hnone g'). apply elem_of_groups_of. rewrite Hl. by left.
  - intros Hvalid. destruct (Hnone g). by apply Hvalid.
Qed.

Lemma groups_clear_keeps_primary_group_witness :
  ∃ db', groups_clear db_primary 1 = Ok db'
         ∧ groups_of db' 1 = []
         ∧ users_userprofile db' !! 1%N = Some (Some 7%N)
         ∧ ¬ primary_group_valid db'.
Proof. apply (groups_clear_keeps_primary_group db_primary 1 7). reflexivity. Defined.

(** X26: members cannot be added or removed from the side of the group:
    through [group.user_set] the receiver gets the group as its instance,
    whose [profile] it reads, and every call with a user raises
    [AttributeError]. *)
Theorem user_set_change_raises (db : DB) (g : N) (name : string) (users : list N) :
  users ≠ [] →
  user_set_add db g name users = Raise AttributeError
  ∧ user_set_remove db g name users = Raise AttributeError.
Proof.
  intros Hne. unfold user_set_add, user_set_remove.
  destruct users as [|u users]; [done|].
  unfold validate_primary_group_on_group_change.
  rewrite (bool_decide_eq_false_2 ("pre_add" ∈ _)) by compute_done.
  rewrite (bool_decide_eq_false_2 ("pre_remove" ∈ _)) by compute_done.
  rewrite (bool_decide_eq_true_2 ("post_add" ∈ _)) by compute_done.
  rewrite (bool_decide_eq_true_2 ("post_remove" ∈ _)) by compute_done.
  done.
Qed.

Lemma user_set_change_raises_witness :
  user_set_add db_primary 7 "staff" [1%N] = Raise AttributeError
  ∧ user_set_remove db_primary 7 "staff" [1%N] = Raise AttributeError.
Proof. by apply (user_set_change_raises db_primary 7 "staff" [1%N]). Defined.

(** ** When a reconciliation succeeds *)

Lemma governed_tables_ok (env : Env) (t : string) :
  t ∈ governed_tables env → table_ok t.
Proof.
  assert (Forall (λ t, is_ok (RuleSet.split_model t) = true ∧ has_char "." t = false)
                 (governed_tables env)) as H.
  { unfold governed_tables, RuleSet.get_ruleset_models.
    destruct (SITE_MULTI env); compute_done. }
  intros Hin. by apply (proj1 (Forall_forall _ _) H).
Qed.

Lemma get_models_ok (env : Env) (ruleset : RuleSet.t) (m : string) :
  m ∈ RuleSet.get_models env ruleset → table_ok m.
Proof.
  unfold RuleSet.get_models.
  destruct (RuleSet.models_of_role env (RuleSet.name ruleset)) as [models|] eqn:H;
    simpl; [|by intros ?%elem_of_nil].
  intros Hin. apply (governed_tables_ok env). by eapply models_of_role_governed.
Qed.

Lemma permission_string_ok (env : Env) (t action : string) :
  default_permissions env → table_ok t → action ∈ RuleSet.RULESET_PERMISSIONS →
  ∃ ps, RuleSet.get_model_permission_string t action = Ok ps
        ∧ is_ok (get_permission_object env ps) = true.
Proof.
  intros Hperm [Hsplit Hdot] Hact.
  apply is_ok_inv in Hsplit as [[model app] Hsplit].
  destruct (split_model_ok_parts _ _ _ Hsplit) as [Hname Hmodel].
  assert (has_char "." app = false ∧ has_char "." model = false) as [Happ Hmdot].
  { rewrite <- Hname, !has_char_app in Hdot.
    apply orb_false_iff in Hdot as [Happ Hdot].
    by apply orb_false_iff in Hdot as [_ Hdot]. }
  assert (has_char "." action = false ∧ has_char "_" action = false) as [Hadot Haus].
  { unfold RuleSet.RULESET_PERMISSIONS in Hact.
    rewrite !elem_of_cons, elem_of_nil in Hact.
    destruct Hact as [->|[->|[->|[->|[]]]]]; done. }
  exists (app +:+ "." +:+ action +:+ "_" +:+ model). split.
  - unfold RuleSet.get_model_permission_string. by rewrite Hsplit.
  - rewrite get_permission_object_parts by done. unfold lookup_permission.
    destruct (content_type_exists env app model) eqn:Hct; [|done].
    by rewrite Hperm.
Qed.

Lemma add_model_total (env : Env) (p : Pile) (model name action : string)
  (allowed : bool) :
  default_permissions env → pile_ok env p → table_ok model →
  action ∈ RuleSet.RULESET_PERMISSIONS →
  ∃ p', add_model (Some model) p name action allowed = Ok p' ∧ pile_ok env p'.
Proof.
  intros Hperm Hp Hm Hact.
  destruct (permission_string_ok env model action Hperm Hm Hact) as (ps & Hps & Hok).
  unfold add_model. rewrite bool_decide_eq_true_2 by exact Hact. rewrite Hps. simpl.
  destruct allowed.
  - eexists. split; [done|]. intros s [Hs|Hs]; simpl in Hs.
    + apply elem_of_set_add in Hs as [->|Hs]; [done|]. apply Hp. by left.
    + apply elem_of_set_remove in Hs as [_ Hs]. apply Hp. by right.
  - case_bool_decide as Hin; [by exists p|].
    eexists. split; [done|]. intros s [Hs|Hs]; simpl in Hs.
    + apply Hp. by left.
    + apply elem_of_set_add in Hs as [->|Hs]; [done|]. apply Hp. by right.
Qed.

Lemma add_model_actions_total (env : Env) (ruleset : RuleSet.t)
  (st : Pile * option string) (model : string) :
  default_permissions env → pile_ok env st.1 → table_ok model →
  ∃ p', add_model_actions ruleset st model = Ok (p', Some model) ∧ pile_ok env p'.
Proof.
  intros Hperm Hp Hm. unfold add_model_actions.
  destruct (add_model_total env st.1 model model "view"
              (can_view (RuleSet.flags ruleset)) Hperm Hp Hm) as (p1 & -> & Hp1);
    [compute_done|]. simpl.
  destruct (add_model_total env p1 model model "add"
              (can_add (RuleSet.flags ruleset)) Hperm Hp1 Hm) as (p2 & -> & Hp2);
    [compute_done|]. simpl.
  destruct (add_model_total env p2 model model "change"
              (can_change (RuleSet.flags ruleset)) Hperm Hp2 Hm) as (p3 & -> & Hp3);
    [compute_done|]. simpl.
  destruct (add_model_total env p3 model model "delete"
              (can_delete (RuleSet.flags ruleset)) Hperm Hp3 Hm) as (p4 & -> & Hp4);
    [compute_done|]. simpl.
  by exists p4.
Qed.

Lemma models_loop_total (env : Env) (ruleset : RuleSet.t) (models : list string)
  (pile : Pile) (model_var : option string) :
  default_permissions env → pile_ok env pile → model_ok model_var →
  (∀ m, m ∈ models → table_ok m) →
  ∃ pile' model_var',
    for_each (add_model_actions ruleset) models (pile, model_var)
    = Ok (pile', model_var')
    ∧ pile_ok env pile' ∧ model_ok model_var'
    ∧ (is_Some model_var ∨ models ≠ [] → is_Some model_var').
Proof.
  intros Hperm. revert pile model_var.
  induction models as [|m models IH]; intros pile model_var Hp Hmv Hall.
  { exists pile, model_var. split; [done|]. split; [done|]. split; [done|].
    by intros [?|?]. }
  cbn [for_each].
  destruct (add_model_actions_total env ruleset (pile, model_var) m Hperm Hp)
    as (p1 & -> & Hp1); [apply Hall; by left|].
  simpl.
  destruct (IH p1 (Some m)) as (pile' & mv' & Hrun & Hp' & Hmv' & Hsome);
    [done | by intros ? [= <-]; apply Hall; left
    | by intros ??; apply Hall; right |].
  exists pile', mv'. split; [done|]. split; [done|]. split; [done|].
  intros _. apply Hsome. left. by eexists.
Qed.

Lemma create_owner_total (env : Env) (db : DB) (obj : ModelObj) :
  ∃ db', create_owner env db obj = Ok db'.
Proof.
  unfold create_owner. destruct (isImportingData env); [by eexists|].
  unfold Owner.create, Owner.objects_create, id.
  destruct (Owner.get_owner db obj); simpl; [by eexists|].
  destruct (existsb _ _); simpl; by eexists.
Qed.

Lemma validate_primary_group_on_save_total (db : DB) (g : N) :
  (∀ u, (u, g) ∈ user_groups db → is_Some (users_userprofile db !! u)) →
  ∃ db', validate_primary_group_on_save db g = Ok db'.
Proof.
  intros Hprof. unfold validate_primary_group_on_save.
  destruct (for_each_total
              (λ db1, ∀ u, u ∈ user_set db g → is_Some (users_userprofile db1 !! u))
              (λ db' u,
                 profile ← UserProfile.profile_of db' u;
                 if UserProfile.stale_primary_group db' u
                      (UserProfile.primary_group profile)
                 then Ok (UserProfile.save db' (UserProfile.mk u None))
                 else Ok db')
              (user_set db g) db) as (db' & Hrun & _); [| |by exists db'].
  - intros db1 u Hu H1. unfold UserProfile.profile_of.
    destruct (H1 u Hu) as [pg ->]. simpl.
    destruct (UserProfile.stale_primary_group _ _ _); eexists; (split; [done|]); [|done].
    intros u' Hu'. unfold UserProfile.save. simpl.
    destruct (decide (u' = u)) as [->|Hne].
    + rewrite lookup_insert_eq. by eexists.
    + rewrite lookup_insert_ne by done. by apply H1.
  - intros u Hu. apply Hprof. by apply elem_of_user_set.
Qed.

Lemma group_frame_reconcilable (group : N) (db db' : DB) :
  group_frame group db db' → reconcilable db group → reconcilable db' group.
Proof.
  intros (Ha & _ & Hug & _ & _ & _ & Hprof & _) [Hg Hmem]. split.
  - by rewrite Ha.
  - intros u Hu. rewrite Hug in Hu.
    destruct (Hprof u) as [->|[_ ->]]; [by apply Hmem | by eexists].
Qed.

Lemma update_group_roles_at_frame (depth : nat) (env : Env) (db db' : DB) (group : N) :
  update_group_roles_at depth env db group = Ok db' → group_frame group db db'.
Proof.
  apply (update_group_roles_at_G env group (group_frame group)).
  - apply group_frame_refl.
  - apply group_frame_trans.
  - apply group_frame_perms_add.
  - apply group_frame_perms_remove.
  - intros _. apply group_frame_owner.
  - apply group_frame_group.
  - apply group_frame_profile.
  - apply group_frame_ruleset.
Qed.

Lemma child_permission_ok (env : Env) (parent child action : string) :
  default_permissions env →
  (parent, child) ∈ RuleSet.RULESET_CHANGE_INHERIT →
  action ∈ RuleSet.RULESET_PERMISSIONS →
  is_ok (get_permission_object env (parent +:+ "." +:+ action +:+ "_" +:+ child)) = true.
Proof.
  intros Hperm Hpair Hact.
  assert (has_char "." action = false ∧ has_char "_" action = false) as [Hadot Haus].
  { unfold RuleSet.RULESET_PERMISSIONS in Hact.
    rewrite !elem_of_cons, elem_of_nil in Hact.
    destruct Hact as [->|[->|[->|[->|[]]]]]; done. }
  assert (has_char "." child = false ∧ has_char "_" child = false
          ∧ has_char "." parent = false) as (Hc1 & Hc2 & Hp).
  { unfold RuleSet.RULESET_CHANGE_INHERIT in Hpair.
    rewrite !elem_of_cons, elem_of_nil in Hpair.
    destruct Hpair as [[= -> ->]|[[= -> ->]|[]]]; done. }
  rewrite get_permission_object_parts by done. unfold lookup_permission.
  destruct (content_type_exists env parent child) eqn:Hct; [|done].
  by rewrite Hperm.
Qed.

Lemma inherit_round_total (env : Env) (group : N) (gp : gset string)
  (parent child action : string) (st : Locals) :
  default_permissions env →
  (parent, child) ∈ RuleSet.RULESET_CHANGE_INHERIT →
  action ∈ RuleSet.RULESET_PERMISSIONS →
  is_Some (l_ruleset st) → is_Some (l_model st) → model_ok (l_model st) →
  pile_ok env (l_pile st) →
  ∃ st', inherit_round env group gp parent child st action = Ok st'
         ∧ is_Some (l_ruleset st') ∧ is_Some (l_model st') ∧ model_ok (l_model st')
         ∧ pile_ok env (l_pile st').
Proof.
  intros Hperm Hpair Hact [ruleset Hr] [model Hm] Hmok Hp. unfold inherit_round.
  assert (is_Some (l_ruleset st) ∧ is_Some (l_model st)) as [Hr' Hm'].
  { rewrite Hr, Hm. split; by eexists. }
  case_bool_decide as Hparent; [|by exists st].
  case_bool_decide as Hchild; [by exists st|].
  rewrite Hr, Hm.
  destruct (add_model_total env (l_pile st) model
              (RuleSet.parent_child_string parent child) action
              (can_delete (RuleSet.flags ruleset)) Hperm Hp (Hmok model Hm) Hact)
    as (p' & -> & Hp'). simpl.
  pose proof (child_permission_ok env parent child action Hperm Hpair Hact) as Hok.
  apply is_ok_inv in Hok as [perm ->]. simpl.
  destruct perm; eexists; (split; [done|]); simpl;
    (split; [by eexists|]); (split; [by eexists|]);
    (split; [by rewrite <- Hm | done]).
Qed.

Lemma inherit_pair_total (env : Env) (group : N) (gp : gset string)
  (pair : string * string) (st : Locals) :
  default_permissions env →
  pair ∈ RuleSet.RULESET_CHANGE_INHERIT →
  is_Some (l_ruleset st) → is_Some (l_model st) → model_ok (l_model st) →
  pile_ok env (l_pile st) →
  ∃ st', inherit_pair env group gp st pair = Ok st'
         ∧ is_Some (l_ruleset st') ∧ is_Some (l_model st') ∧ model_ok (l_model st')
         ∧ pile_ok env (l_pile st').
Proof.
  intros Hperm Hpair Hr Hm Hmok Hp. unfold inherit_pair. destruct pair as [parent child].
  destruct (for_each_total
              (λ s, is_Some (l_ruleset s) ∧ is_Some (l_model s) ∧ model_ok (l_model s)
                    ∧ pile_ok env (l_pile s))
              (inherit_round env group gp parent child)
              ["view"; "change"; "add"; "delete"] st) as (st' & Hrun & Hst');
    [|done|by exists st'].
  intros s1 action Hact (H1 & H2 & H3 & H4).
  apply inherit_round_total; try done.
  revert Hact. unfold RuleSet.RULESET_PERMISSIONS. rewrite !elem_of_cons, !elem_of_nil.
  tauto.
Qed.

Lemma bind_intro {A B : Type} (k : A → result B) (m : result A) (a : A) (r : B) :
  m = Ok a → k a = Ok r → mbind k m = Ok r.
Proof. by intros -> <-. Qed.

Lemma round_total (env : Env) (oc : DB → RuleSet.t → result DB) (group : N)
  (rulesets : gmap (N * string) Flags) (d : nat) (st : Locals) (rulename : string) :
  default_permissions env →
  (∀ db1 name,
     reconcilable db1 group → (missing_rulesets db1 group ≤ d)%nat →
     users_ruleset db1 !! (group, name) = None → name ∈ RuleSet.RULESET_NAMES →
     ∃ db2, oc db1 (RuleSet.mk name group no_flags) = Ok db2
            ∧ reconcilable db2 group ∧ rulesets_kept db1 db2) →
  rulename ∈ RuleSet.RULESET_NAMES →
  reconcilable (l_db st) group → (missing_rulesets (l_db st) group ≤ d)%nat →
  pile_ok env (l_pile st) → model_ok (l_model st) →
  ∃ st', ruleset_round env oc group rulesets st rulename = Ok st'
         ∧ reconcilable (l_db st') group
         ∧ (missing_rulesets (l_db st') group ≤ d)%nat
         ∧ pile_ok env (l_pile st') ∧ model_ok (l_model st')
         ∧ is_Some (l_ruleset st')
         ∧ (is_Some (l_model st) ∨ rulename = "admin" → is_Some (l_model st')).
Proof.
  intros Hperm Hoc Hname Hrec Hmiss Hp Hmok.
  assert (∃ ruleset db1,
            match rulesets !! (group, rulename) with
            | Some f => Ok (RuleSet.mk rulename group f, l_db st)
            | None =>
                match users_ruleset (l_db st) !! (group, rulename) with
                | Some f => Ok (RuleSet.mk rulename group f, l_db st)
                | None =>
                    let r := RuleSet.mk rulename group no_flags in
                    db' ← oc (l_db st) r; Ok (r, db')
                end
            end = Ok (ruleset, db1)
            ∧ RuleSet.name ruleset = rulename
            ∧ reconcilable db1 group ∧ (missing_rulesets db1 group ≤ d)%nat)
    as (ruleset & db1 & Hpick & Hrn & Hrec1 & Hmiss1).
  { destruct (rulesets !! (group, rulename)) as [f|]; [by eexists _, _|].
    destruct (users_ruleset (l_db st) !! (group, rulename)) as [f|] eqn:Hrow;
      [by eexists _, _|].
    destruct (Hoc (l_db st) rulename Hrec Hmiss Hrow Hname) as (db2 & Hdb2 & Hrec2 & Hkept).
    cbv zeta. rewrite Hdb2. simpl. eexists _, _. split; [done|]. split; [done|].
    split; [done|]. apply (missing_rulesets_kept _ _ group) in Hkept. lia. }
  destruct (models_loop_total env ruleset (RuleSet.get_models env ruleset)
              (l_pile st) (l_model st) Hperm Hp Hmok)
    as (pile' & mv' & Hloop & Hp' & Hmok' & Hsome); [apply get_models_ok|].
  exists (mkLocals db1 pile' mv' (Some ruleset)). split.
  { unfold ruleset_round. eapply bind_intro; [exact Hpick|]. simpl.
    eapply bind_intro; [exact Hloop|]. done. }
  simpl.
  split; [done|]. split; [done|]. split; [done|]. split; [done|].
  split; [by eexists|].
  intros [Hm | Hadmin]; apply Hsome; [by left|]. right.
  unfold RuleSet.get_models, RuleSet.models_of_role, RuleSet.get_ruleset_models.
  rewrite Hrn, Hadmin. simpl. by destruct (SITE_MULTI env).
Qed.

Lemma round_loop_total (P0 P : Locals → Prop) (body : Locals → string → result Locals)
  (x : string) (xs : list string) (s : Locals) :
  (∀ s1, P0 s1 → ∃ s2, body s1 x = Ok s2 ∧ P s2) →
  (∀ s1 y, y ∈ xs → P s1 → ∃ s2, body s1 y = Ok s2 ∧ P s2) →
  P0 s → ∃ s', for_each body (x :: xs) s = Ok s' ∧ P s'.
Proof.
  intros Hfirst Hrest Hs. cbn [for_each].
  destruct (Hfirst s Hs) as (s1 & -> & Hs1). simpl.
  by apply for_each_total.
Qed.

Lemma update_group_roles_at_total (depth : nat) (env : Env) (db : DB) (group : N) :
  default_permissions env →
  missing_rulesets db group < depth →
  reconcilable db group →
  ∃ db', update_group_roles_at depth env db group = Ok db'.
Proof.
  intros Hperm. revert db. induction depth as [|d IH]; intros db Hmiss Hrec; [lia|].
  rewrite update_group_roles_at_S. unfold update_group_roles_body.
  destruct (negb (canAppAccessDatabase env)); [by eexists|].
  assert (∀ db1 name,
            reconcilable db1 group → (missing_rulesets db1 group ≤ d)%nat →
            users_ruleset db1 !! (group, name) = None → name ∈ RuleSet.RULESET_NAMES →
            ∃ db2, RuleSet_save_with (update_group_roles_at d env) env db1
                     (RuleSet.mk name group no_flags) = Ok db2
                   ∧ reconcilable db2 group ∧ rulesets_kept db1 db2) as Hoc.
  { intros db1 name Hrec1 Hmiss1 Hrow Hname.
    assert (∃ db2, RuleSet_save_with (update_group_roles_at d env) env db1
                     (RuleSet.mk name group no_flags) = Ok db2) as [db2 Hdb2].
    { unfold RuleSet_save_with.
      cbn [RuleSet.group RuleSet.name RuleSet.flags set_users_ruleset auth_group].
      destruct Hrec1 as [[nm Hnm] Hmem]. rewrite Hnm. unfold Group_save_with.
      set (dbA := set_users_ruleset <[(group, name) := RuleSet.normalize no_flags]> db1).
      set (dbB := set_auth_group <[group := nm]> dbA).
      assert (group_frame group db1 dbB) as HfB.
      { eapply group_frame_trans; [by apply group_frame_ruleset|].
        by apply group_frame_group. }
      destruct (create_owner_total env dbB (AGroup group nm)) as [dbC HdbC].
      rewrite HdbC. simpl.
      assert (group_frame group dbB dbC) as HfC.
      { revert HdbC. apply (create_owner_G env group (group_frame group)).
        - apply group_frame_refl.
        - intros _. apply group_frame_owner. }
      assert (reconcilable dbC group) as HrecC.
      { eapply group_frame_reconcilable; [exact HfC|].
        eapply group_frame_reconcilable; [exact HfB|]. by split; [eexists|]. }
      destruct (IH dbC) as [dbD HdbD]; [|done|].
      { apply (create_owner_R rulesets_kept) in HdbC; [|kept..].
        apply (missing_rulesets_kept _ _ group) in HdbC.
        pose proof (missing_rulesets_insert db1 group name
                      (RuleSet.normalize no_flags) Hname Hrow) as Hlt.
        change (missing_rulesets dbB group) with (missing_rulesets dbA group) in HdbC.
        unfold dbA in HdbC. lia. }
      rewrite HdbD. simpl.
      apply validate_primary_group_on_save_total.
      apply (group_frame_reconcilable group dbC dbD); [|done].
      by eapply update_group_roles_at_frame. }
    exists db2. split; [done|]. split.
    - eapply group_frame_reconcilable; [|exact Hrec1].
      revert Hdb2.
      apply (RuleSet_save_with_new_G env group (group_frame group)); try done.
      + apply group_frame_refl.
      + apply group_frame_trans.
      + intros _. apply group_frame_owner.
      + apply group_frame_group.
      + apply group_frame_profile.
      + apply group_frame_ruleset.
      + intros ??. apply update_group_roles_at_frame.
    - revert Hdb2. apply (RuleSet_save_with_new_R rulesets_kept); try kept; [|done].
      intros ???. apply update_group_roles_at_keeps_rulesets. }
  unfold update_group_roles_locals.
  set (base := λ s : Locals,
         reconcilable (l_db s) group ∧ (missing_rulesets (l_db s) group ≤ d)%nat
         ∧ pile_ok env (l_pile s) ∧ model_ok (l_model s)).
  destruct (round_loop_total base
              (λ s, base s ∧ is_Some (l_ruleset s) ∧ is_Some (l_model s))
              (ruleset_round env (RuleSet_save_with (update_group_roles_at d env) env)
                             group (users_ruleset db))
              "admin"
              ["part_category"; "part"; "stocktake"; "stock_location"; "stock";
               "build"; "purchase_order"; "sales_order"; "return_order"]
              (mkLocals db empty_pile None None))
    as (st1 & Hst1 & (Hrec1 & Hmiss1 & Hp1 & Hmok1) & Hr1 & Hm1).
  - intros s1 (H1 & H2 & H3 & H4).
    destruct (round_total env _ group (users_ruleset db) d s1 "admin" Hperm Hoc)
      as (s2 & Hs2 & ? & ? & ? & ? & ? & Hsome); try done; [compute_done|].
    exists s2. split; [done|]. split; [done|]. split; [done|]. apply Hsome. by right.
  - intros s1 y Hy ((H1 & H2 & H3 & H4) & H5 & H6).
    destruct (round_total env _ group (users_ruleset db) d s1 y Hperm Hoc)
      as (s2 & Hs2 & ? & ? & ? & ? & ? & Hsome); try done.
    { unfold RuleSet.RULESET_NAMES. by right. }
    exists s2. split; [done|]. split; [done|]. split; [done|]. apply Hsome. by left.
  - split; [done|]. split; [simpl; lia|]. split.
    + intros s [Hs|Hs]; simpl in Hs; by apply elem_of_empty in Hs.
    + by intros m.
  - change (for_each _ RuleSet.RULESET_NAMES _) with
      (for_each
         (ruleset_round env (RuleSet_save_with (update_group_roles_at d env) env)
                        group (users_ruleset db))
         ("admin" :: ["part_category"; "part"; "stocktake"; "stock_location"; "stock";
                      "build"; "purchase_order"; "sales_order"; "return_order"])
         (mkLocals db empty_pile None None)).
    rewrite Hst1. cbn [mbind result_bind].
    destruct (for_each_total (λ _, True)
                (add_round env group (current_permission_strings db group))
                (elements (permissions_to_add (l_pile st1))) (l_db st1))
      as (db2 & -> & _); [|done|].
    { intros dbx perm Hin _. unfold add_round. case_bool_decide; [by eexists|].
      assert (is_ok (get_permission_object env perm) = true) as Hok.
      { apply Hp1. left. by apply elem_of_elements. }
      apply is_ok_inv in Hok as [[p|] ->]; by eexists. }
    cbn [mbind result_bind].
    destruct (for_each_total (λ _, True)
                (remove_round env group (current_permission_strings db group))
                (elements (permissions_to_delete (l_pile st1))) db2)
      as (db3 & -> & _); [|done|].
    { intros dbx perm Hin _. unfold remove_round. case_bool_decide; [|by eexists].
      assert (is_ok (get_permission_object env perm) = true) as Hok.
      { apply Hp1. right. by apply elem_of_elements. }
      apply is_ok_inv in Hok as [[p|] ->]; by eexists. }
    cbn [mbind result_bind].
    destruct (for_each_total
                (λ s, is_Some (l_ruleset s) ∧ is_Some (l_model s)
                      ∧ model_ok (l_model s) ∧ pile_ok env (l_pile s))
                (inherit_pair env group (current_permission_strings db group))
                RuleSet.RULESET_CHANGE_INHERIT
                (mkLocals db3 (l_pile st1) (l_model st1) (l_ruleset st1)))
      as (st4 & -> & _); [|done|by eexists].
    intros s1 pair Hpair (H1 & H2 & H3 & H4). by apply inherit_pair_total.
Qed.

(** X27: when a reconciliation cannot fail.  If every content type has its
    four default permissions, the group exists and every member of the
    group has a profile, [update_group_roles] returns, and these conditions
    hold again afterwards. *)
Theorem update_group_roles_succeeds (env : Env) (db : DB) (group : N) :
  default_permissions env →
  reconcilable db group →
  ∃ db', update_group_roles env db group = Ok db' ∧ reconcilable db' group.
Proof.
  intros Hperm Hrec.
  destruct (update_group_roles_at_total recursion_limit env db group Hperm)
    as [db' Hdb']; [|done|].
  { unfold recursion_limit, missing_rulesets. apply Nat.lt_succ_r, length_filter. }
  exists db'. split; [done|].
  eapply group_frame_reconcilable; [|exact Hrec].
  by eapply update_group_roles_at_frame.
Qed.

Lemma update_group_roles_succeeds_witness :
  ∃ db', update_group_roles env_all db_no_rulesets 1 = Ok db'
         ∧ reconcilable db' 1.
Proof.
  apply (update_group_roles_succeeds env_all db_no_rulesets 1).
  - intros app model action _ _. reflexivity.
  - split; [by eexists|]. intros u Hu. unfold db_no_rulesets in Hu. simpl in Hu.
    apply elem_of_singleton in Hu. injection Hu as ->. by eexists.
Defined.
